(** * es6-transpiler: scope resolver, fresh names, shared helpers, class and
      parameter lowering

    A shallow embedding of the transpiler core (registry of identifiers,
    [unique], bubbled variables, [findParentForScopes], reference and
    const checks, loop-closure detection), of [createPrototypeString] from the
    class transpiler and of the parameter-lowering visitor of
    [transpiler/functions.js], together with the properties stated about
    them. *)

From stdpp Require Import gmap strings list fin_maps pretty.

Open Scope Z_scope.
Set Warnings "-register-all,-clear-no-such-hyp".

(** ** Failures

    JavaScript exceptions the embedded functions can raise.  [assert(...)]
    raises [AssertionError]; reading a property of [null]/[undefined] raises
    [TypeError]. *)

Inductive DiagKind :=
  | UnknownReferenceError
  | UseBeforeDeclarationError
  | ConstReassignmentError
  | UnsupportedLoopClosureError
  | SelfReferentialDefaultError.

(** The message template each diagnostic is raised with in the sources. *)
Definition template (k : DiagKind) : string :=
  match k with
  | UnknownReferenceError => "reference to unknown global variable {0}"
  | UseBeforeDeclarationError => "{0} is referenced before its declaration"
  | ConstReassignmentError => "can't assign to const variable {0}"
  | UnsupportedLoopClosureError =>
      "can't transform closure. {0} is defined outside closure, inside loop"
  | SelfReferentialDefaultError =>
      "function parameter '{0}' defined with default value refered to scope variable with the same name '{0}'"
  end.

(** [LoopBudget] is not a JavaScript exception: it marks a loop of the model
    that used up its iteration budget.  The loops that carry a budget are
    shown never to exhaust it. *)
Inductive Exception :=
  | AssertionError
  | TypeError
  | ReferenceError
  | Diagnostic (kind : DiagKind) (line : Z) (subject : string)
  | LoopBudget.

Inductive Res (A : Type) :=
  | Ok (a : A)
  | Err (e : Exception).
Arguments Ok {A} a.
Arguments Err {A} e.

(** Modelled from the spec: lib/error is not among the sources.  [error(line,
    template, args)] is a fatal diagnostic carrying a line number and a
    templated message; the first one aborts the unit. *)
Definition error {A} (line : Z) (k : DiagKind) (subject : string) : Res A :=
  Err (Diagnostic k line subject).

Definition assert (b : bool) : Res unit :=
  if b then Ok tt else Err AssertionError.

Definition res_bind {A B} (r : Res A) (k : A -> Res B) : Res B :=
  match r with
  | Ok a => k a
  | Err e => Err e
  end.

Notation "x <- r ;; k" := (res_bind r (fun x => k))
  (at level 100, r at next level, right associativity).

(** ** Syntax nodes

    A node is seen by the core through its [type] tag, its [name], its source
    range, and the [$parent] back-reference installed by [createScopes].
    Object identity ([===]) is identity of [nid].  The child slots a parent is
    asked about ([parent.id === node], [parent.left === node], ...) hold the
    identity of the child. *)

Inductive NodeType :=
  | Program | FunctionDeclaration | FunctionExpression | ArrowFunctionExpression
  | BlockStatement | ForStatement | ForInStatement | WhileStatement
  | DoWhileStatement | VariableDeclaration | VariableDeclarator | Identifier
  | MemberExpression | Property | LabeledStatement | CatchClause
  | AssignmentExpression | UpdateExpression | CallExpression
  | ExpressionStatement | ReturnStatement | ClassDeclaration | Literal
  | ObjectPattern | ArrayPattern | SpreadElement
  | NoType.

#[global] Instance NodeType_eq_dec : EqDecision NodeType.
Proof. solve_decision. Defined.

Inductive Node := mkNode {
  nid : nat;
  ntype : NodeType;
  nname : string;
  nrange : Z * Z;
  nline : Z;
  c_id : option nat;
  c_property : option nat;
  c_key : option nat;
  c_label : option nat;
  c_param : option nat;
  c_left : option nat;
  c_argument : option nat;
  c_params : list nat;
  computed : bool;
  body0 : option Z;
  nparent : option Node
}.

(** [a === b] on nodes. *)
Definition same_node (a b : Node) : bool := bool_decide (nid a = nid b).

Definition is_child (slot : option nat) (n : Node) : bool :=
  bool_decide (slot = Some (nid n)).

Definition isFunction (node : Node) : bool :=
  let type := ntype node in
  bool_decide (type = FunctionDeclaration)
  || bool_decide (type = FunctionExpression)
  || bool_decide (type = ArrowFunctionExpression).

Definition isLoop (node : Node) : bool :=
  let type := ntype node in
  bool_decide (type = ForStatement)
  || bool_decide (type = ForInStatement)
  || bool_decide (type = WhileStatement)
  || bool_decide (type = DoWhileStatement).

(** ** Scopes

    The static shape of a scope (kind, owning node, parent link) is a chain;
    what the passes mutate (the declarations of a scope, its [$__path] mark)
    lives in the store of the core state, keyed by [sid]. *)

Inductive ScopeKind := Hoist | BlockScope | CatchBlock.

#[global] Instance ScopeKind_eq_dec : EqDecision ScopeKind.
Proof. solve_decision. Defined.

Inductive Scope := mkScope {
  sid : nat;
  skind : ScopeKind;
  snode : Node;
  sparent : option Scope
}.

Definition same_scope (a b : Scope) : bool := bool_decide (sid a = sid b).

Inductive DeclKind := KVar | KLet | KConst | KParam | KCaught | KFun.

#[global] Instance DeclKind_eq_dec : EqDecision DeclKind.
Proof. solve_decision. Defined.

Definition isConstLet (kind : option DeclKind) : bool :=
  bool_decide (kind = Some KConst) || bool_decide (kind = Some KLet).

Record Declaration := mkDecl {
  dkind : DeclKind;
  dnode : option nat;
  dfrom : option Z;
  dorigin : option nat
}.

(** A node with the annotations of the passes: [$scope] (set by
    [createScopes]) and [$refToScope] (set by [setupReferences]). *)
Record ANode := mkANode {
  anode :> Node;
  a_scope : Scope;
  a_refToScope : option Scope
}.

(** ** The state of the core

    [allIdentifiers] is a [stringset]; [bubbledVariables] is an object used
    as a map from logical names to records (the logical names the transpilers
    pass, "DP", "MIXIN", "SLICE", are not properties of [Object.prototype]).
    The [changesOptions] object of a bubbled variable is shared with the edit
    handed to [alter.insert]: both hold the same handle, and the [inactive]
    flag lives in [inactiveOptions]. *)

Record BubbledVariable := mkBV {
  bv_name : string;
  bv_value : string;
  bv_isFunction : bool;
  bv_scope : Scope;
  bv_changesOptions : nat
}.

(** One [alter.insert(pos, str, options)] received by the edit sink. *)
Record Edit := mkEdit {
  e_pos : Z;
  e_str : string;
  e_options : nat
}.

Record Options := mkOptions {
  disallowVars : bool;
  disallowUnknownReferences : bool
}.

Record Core := mkCore {
  allIdentifiers : gset string;
  outermostLoop : option Node;
  functions : list Node;
  bubbledVariables : gmap string BubbledVariable;
  __isInit : bool;
  options : Options;
  (* the edit sink [this.alter] and the option objects handed to it *)
  alter : list Edit;
  inactiveOptions : gset nat;
  nextOptions : nat;
  (* mutable fields of the scope objects *)
  scopeDecls : gmap nat (gmap string Declaration);
  scopePath : gmap nat N;
  (* the module-level counter [UUID] *)
  UUID : N
}.

Definition set_allIdentifiers (f : gset string -> gset string) (c : Core) : Core :=
  mkCore (f (allIdentifiers c)) (outermostLoop c) (functions c)
    (bubbledVariables c) (__isInit c) (options c) (alter c) (inactiveOptions c)
    (nextOptions c) (scopeDecls c) (scopePath c) (UUID c).

Definition set_loopState (l : option Node) (fs : list Node) (c : Core) : Core :=
  mkCore (allIdentifiers c) l fs
    (bubbledVariables c) (__isInit c) (options c) (alter c) (inactiveOptions c)
    (nextOptions c) (scopeDecls c) (scopePath c) (UUID c).

Definition set_bubbledVariables
    (f : gmap string BubbledVariable -> gmap string BubbledVariable) (c : Core) : Core :=
  mkCore (allIdentifiers c) (outermostLoop c) (functions c)
    (f (bubbledVariables c)) (__isInit c) (options c) (alter c) (inactiveOptions c)
    (nextOptions c) (scopeDecls c) (scopePath c) (UUID c).

Definition set_isInit (b : bool) (c : Core) : Core :=
  mkCore (allIdentifiers c) (outermostLoop c) (functions c)
    (bubbledVariables c) b (options c) (alter c) (inactiveOptions c)
    (nextOptions c) (scopeDecls c) (scopePath c) (UUID c).

Definition set_options (o : Options) (c : Core) : Core :=
  mkCore (allIdentifiers c) (outermostLoop c) (functions c)
    (bubbledVariables c) (__isInit c) o (alter c) (inactiveOptions c)
    (nextOptions c) (scopeDecls c) (scopePath c) (UUID c).

Definition set_alter (a : list Edit) (inact : gset nat) (next : nat) (c : Core) : Core :=
  mkCore (allIdentifiers c) (outermostLoop c) (functions c)
    (bubbledVariables c) (__isInit c) (options c) a inact
    next (scopeDecls c) (scopePath c) (UUID c).

Definition set_scopeDecls
    (f : gmap nat (gmap string Declaration) -> gmap nat (gmap string Declaration))
    (c : Core) : Core :=
  mkCore (allIdentifiers c) (outermostLoop c) (functions c)
    (bubbledVariables c) (__isInit c) (options c) (alter c) (inactiveOptions c)
    (nextOptions c) (f (scopeDecls c)) (scopePath c) (UUID c).

Definition set_scopePath (p : gmap nat N) (u : N) (c : Core) : Core :=
  mkCore (allIdentifiers c) (outermostLoop c) (functions c)
    (bubbledVariables c) (__isInit c) (options c) (alter c) (inactiveOptions c)
    (nextOptions c) (scopeDecls c) p u.

(** Computations of the core: state passing with exceptions.  An exception
    aborts the unit (no pass runs after a failure), so the state reached at
    the time of the throw is not kept. *)
Definition M (A : Type) : Type := Core -> Res (A * Core).

Definition ret {A} (a : A) : M A := fun c => Ok (a, c).
Definition throw {A} (e : Exception) : M A := fun _ => Err e.
Definition bind {A B} (m : M A) (k : A -> M B) : M B :=
  fun c => match m c with
           | Ok (a, c') => k a c'
           | Err e => Err e
           end.
Definition get : M Core := fun c => Ok (c, c).
Definition modify (f : Core -> Core) : M unit := fun c => Ok (tt, f c).
Definition lift {A} (r : Res A) : M A :=
  fun c => match r with Ok a => Ok (a, c) | Err e => Err e end.

Declare Scope core_scope.
Delimit Scope core_scope with core.
Notation "x <~ m ; k" := (bind m (fun x => k))
  (at level 100, m at next level, right associativity) : core_scope.
Notation "m ;> k" := (bind m (fun _ => k))
  (at level 100, right associativity) : core_scope.

(** [reset] and [setup]. *)
Definition reset (c : Core) : Core :=
  set_bubbledVariables (fun _ => ∅)
    (set_loopState None [] (set_allIdentifiers (fun _ => ∅) c)).

Definition setup (alter' : list Edit) (options' : Options) (c : Core) : Core :=
  let c1 := if __isInit c then c else set_isInit true (reset c) in
  set_options options'
    (set_alter alter' (inactiveOptions c1) (nextOptions c1) c1).

(** ** Fresh names *)

(** [name + "$" + cnt]; the counter is printed in decimal, as JavaScript
    prints the integers the loop can reach. *)
Definition genName (name : string) (cnt : N) : string :=
  name +:+ "$" +:+ pretty cnt.

Definition accepts (all : gset string) (additionalFilter : option (gset string))
    (g : string) : bool :=
  bool_decide (g ∉ all)
  && match additionalFilter with
     | None => true
     | Some f => bool_decide (g ∉ f)
     end.

(** The [for ( let cnt = 0 ; ; cnt++ )] loop of [unique]; the source loop has
    no bound, [budget] is the number of iterations the model runs. *)
Fixpoint unique_loop (budget : nat) (all : gset string)
    (additionalFilter : option (gset string)) (name : string) (cnt : N)
    : option string :=
  match budget with
  | O => None
  | S budget' =>
      let genName := genName name cnt in
      if accepts all additionalFilter genName then Some genName
      else unique_loop budget' all additionalFilter name (cnt + 1)
  end.

(** The additional filter as a set: nothing when it is absent. *)
Definition filter_set (additionalFilter : option (gset string)) : gset string :=
  default ∅ additionalFilter.

Definition filter_size (additionalFilter : option (gset string)) : nat :=
  match additionalFilter with None => O | Some f => size f end.

Definition unique (name : string) (newVariable : bool)
    (additionalFilter : option (gset string)) : M string :=
  fun c =>
    _ <- assert (newVariable || bool_decide (name ∈ allIdentifiers c)) ;;
    match unique_loop (S (size (allIdentifiers c) + filter_size additionalFilter))
            (allIdentifiers c) additionalFilter name 0 with
    | None => Err LoopBudget
    | Some genName =>
        if newVariable
        then Ok (genName, set_allIdentifiers (fun s => s ∪ {[genName]}) c)
        else Ok (genName, c)
    end.

(** ** Registry traffic of one compilation unit

    Between two resets the registry is touched by [pre] (which adds the
    declared names of every scope), by [setupReferences] (which adds the
    name of every reference) and by [unique].  [run_ops] runs such a
    sequence and records, for every identifier minted with the declaring
    flag, the registry as it was when the identifier was minted. *)

Inductive RegistryOp :=
  | OpUnique (name : string) (newVariable : bool)
      (additionalFilter : option (gset string))
  | OpAdd (name : string)
  | OpAddMany (names : list string).

Definition run_op (op : RegistryOp) (c : Core)
    : Res (list (string * gset string) * Core) :=
  match op with
  | OpUnique name newVariable additionalFilter =>
      match unique name newVariable additionalFilter c with
      | Ok (g, c') =>
          Ok (if newVariable then [(g, allIdentifiers c)] else [], c')
      | Err e => Err e
      end
  | OpAdd name => Ok ([], set_allIdentifiers (fun s => s ∪ {[name]}) c)
  | OpAddMany names =>
      Ok ([], set_allIdentifiers (fun s => s ∪ list_to_set names) c)
  end.

Fixpoint run_ops (ops : list RegistryOp) (c : Core)
    : Res (list (string * gset string) * Core) :=
  match ops with
  | [] => Ok ([], c)
  | op :: rest =>
      match run_op op c with
      | Ok (ev, c1) =>
          match run_ops rest c1 with
          | Ok (evs, c2) => Ok (ev ++ evs, c2)
          | Err e => Err e
          end
      | Err e => Err e
      end
  end.

(** The core object as the module creates it, before any [setup].  In the
    source the registry, the helper table, the loop state, the sink and the
    options do not exist yet at this point (a call of [unique] would raise a
    [TypeError]); the values given for them here stand for the absent
    properties and are never read: [core0] is only handed to [setup], whose
    latch is unset, so that [reset] and [setup] assign every one of them
    before any other function runs. *)
Definition core0 : Core :=
  mkCore ∅ None [] ∅ false (mkOptions false false) [] ∅ 0 ∅ ∅ 1.

(** ** Scope methods

    lib/scope is not among the sources; its methods are modelled from what
    the spec says about scopes: a scope has a kind, an owning node, a parent
    and a map from names to declarations; a declaration records its kind and
    the position from which it becomes visible; hoisting scopes are function
    bodies and the program root. *)

Definition decls_of (c : Core) (s : Scope) : gmap string Declaration :=
  default ∅ (scopeDecls c !! sid s).

(** Modelled from the spec: [Scope.closestHoistScope] is missing.  The
    nearest scope of kind hoist, starting with the scope itself. *)
Fixpoint closestHoistScope (s : Scope) : Res Scope :=
  if bool_decide (skind s = Hoist) then Ok s
  else match sparent s with
       | Some p => closestHoistScope p
       | None => Err TypeError
       end.

(** Modelled from the spec: [Scope.lookup] is missing.  It walks the
    enclosing scopes outward to the scope that declares the name; the set of
    propagated names it maintains is not part of the model. *)
Fixpoint Scope_lookup (c : Core) (s : Scope) (name : string) : option Scope :=
  if bool_decide (is_Some (decls_of c s !! name)) then Some s
  else match sparent s with
       | Some p => Scope_lookup c p name
       | None => None
       end.

(** Modelled from the spec: [Scope.getKind] is missing.  The kind of the
    declaration of the name in this scope, if any. *)
Definition getKind (c : Core) (s : Scope) (name : string) : option DeclKind :=
  dkind <$> decls_of c s !! name.

(** Modelled from the spec: [Scope.getFromPos] is missing.  The position from
    which the declaration of the name in this scope is visible. *)
Definition getFromPos (c : Core) (s : Scope) (name : string) : option Z :=
  decls_of c s !! name ≫= dfrom.

(** Modelled from the spec: [Scope.hasFunctionScopeBetween] is missing.  Is
    a function boundary crossed on the way from [this] out to [outer]?  The
    walk stops at [outer] before looking at its node. *)
Fixpoint hasFunctionScopeBetween (this outer : Scope) : Res bool :=
  if same_scope this outer then Ok false
  else if isFunction (snode this) then Ok true
  else match sparent this with
       | Some p => hasFunctionScopeBetween p outer
       | None => Err AssertionError
       end.

(** Modelled from the spec: [Scope.add] is missing.  It records a
    declaration with its kind, defining node, visible-from position and
    origin declarator: var, fun and param declarations in the closest
    hoisting scope, let, const and caught ones in the scope itself. *)
Definition Scope_add (scope : Scope) (name : string) (kind : DeclKind)
    (node : option nat) (referableFromPos : option Z)
    (originalDeclarator : option nat) : M unit :=
  fun c =>
    target <- (match kind with
               | KVar | KFun | KParam => closestHoistScope scope
               | _ => Ok scope
               end) ;;
    Ok (tt, set_scopeDecls
              (fun m => <[sid target :=
                 <[name := mkDecl kind node referableFromPos originalDeclarator]>
                   (default ∅ (m !! sid target))]> m) c).

(** ** Building declarations: the [VariableDeclaration] branch of
    [createScopes] *)

(** Declaration targets: an identifier or a destructuring pattern. *)
Inductive Pattern :=
  | PIdentifier (id : nat) (name : string) (range : Z * Z)
  | PObjectPattern (properties : list Pattern)
  | PProperty (value : Pattern)
  | PArrayPattern (elements : list (option Pattern))
  | PSpreadElement (id : nat) (argument_name : string) (range : Z * Z).

Fixpoint addVariableToScope (scope : Scope) (variable : Pattern)
    (kind : DeclKind) (originalDeclarator : nat) : M unit :=
  match variable with
  | PObjectPattern properties =>
      (fix each (l : list Pattern) : M unit :=
         match l with
         | [] => ret tt
         | v :: rest =>
             bind (addVariableToScope scope v kind originalDeclarator)
                  (fun _ => each rest)
         end) properties
  | PProperty value => addVariableToScope scope value kind originalDeclarator
  | PArrayPattern elements =>
      (fix each (l : list (option Pattern)) : M unit :=
         match l with
         | [] => ret tt
         | Some v :: rest =>
             bind (addVariableToScope scope v kind originalDeclarator)
                  (fun _ => each rest)
         | None :: rest => each rest
         end) elements
  | PSpreadElement id argument_name range =>
      Scope_add scope argument_name kind (Some id) (Some (snd range))
        (Some originalDeclarator)
  | PIdentifier id name range =>
      Scope_add scope name kind (Some id) (Some (snd range))
        (Some originalDeclarator)
  end.

(** [node.declarations.forEach(...)] for a [VariableDeclaration] node of the
    given kind whose [$scope] is [scope]; a declarator is its identity and
    its [id] target.  The [error] call of the [disallowVars] check names a
    variable [name] that is not bound in the source. *)
Fixpoint createScopes_VariableDeclaration (scope : Scope) (kind : DeclKind)
    (declarations : list (nat * Pattern)) : M unit :=
  match declarations with
  | [] => ret tt
  | (declarator, id) :: rest =>
      fun c =>
        if disallowVars (options c) && bool_decide (kind = KVar)
        then Err ReferenceError
        else bind (addVariableToScope scope id kind declarator)
               (fun _ => createScopes_VariableDeclaration scope kind rest) c
  end.

(** ** References *)

Definition isReference (node : ANode) : Res bool :=
  match a_refToScope node with
  | Some _ => Ok true
  | None =>
      if negb (bool_decide (ntype node = Identifier)) then Ok false
      else match nparent node with
           | None => Err TypeError
           | Some parent =>
               let parentType := ntype parent in
               Ok (negb (bool_decide (parentType = VariableDeclarator)
                         && is_child (c_id parent) node)
                   && negb (bool_decide (parentType = MemberExpression)
                            && negb (computed parent)
                            && is_child (c_property parent) node)
                   && negb (bool_decide (parentType = Property)
                            && is_child (c_key parent) node)
                   && negb (bool_decide (parentType = LabeledStatement)
                            && is_child (c_label parent) node)
                   && negb (bool_decide (parentType = CatchClause)
                            && is_child (c_param parent) node)
                   && negb (isFunction parent && is_child (c_id parent) node)
                   && negb (isFunction parent
                            && bool_decide (nid node ∈ c_params parent))
                   && true)
           end
  end.

Definition isLvalue (node : ANode) : Res bool :=
  r <- isReference node ;;
  if r then
    match nparent node with
    | None => Err TypeError
    | Some parent =>
        Ok (bool_decide (ntype parent = AssignmentExpression)
              && is_child (c_left parent) node
            || bool_decide (ntype parent = UpdateExpression)
              && is_child (c_argument parent) node)
    end
  else Ok false.

(** [setupReferences]; the result is the node with [$refToScope] set. *)
Definition setupReferences (node : ANode) : M ANode :=
  fun c =>
    r <- isReference node ;;
    if r then
      let c1 := set_allIdentifiers (fun s => s ∪ {[nname node]}) c in
      let scope := Scope_lookup c1 (a_scope node) (nname node) in
      _ <- (match scope with
            | None =>
                if disallowUnknownReferences (options c1)
                then error (nline node) UnknownReferenceError (nname node)
                else Ok tt
            | Some _ => Ok tt
            end) ;;
      _ <- (match scope with
            | Some scope =>
                if isConstLet (getKind c1 scope (nname node)) then
                  let allowedFromPos := getFromPos c1 scope (nname node) in
                  let referencedAtPos := fst (nrange node) in
                  match allowedFromPos with
                  | None => Err AssertionError
                  | Some allowedFromPos =>
                      if bool_decide (referencedAtPos < allowedFromPos) then
                        b <- hasFunctionScopeBetween (a_scope node) scope ;;
                        if negb b
                        then error (nline node) UseBeforeDeclarationError
                               (nname node)
                        else Ok tt
                      else Ok tt
                  end
                else Ok tt
            | None => Ok tt
            end) ;;
      Ok (mkANode node (a_scope node) scope, c1)
    else Ok (node, c).

Definition detectConstAssignment (node : ANode) : M unit :=
  fun c =>
    l <- isLvalue node ;;
    if l then
      match Scope_lookup c (a_scope node) (nname node) with
      | Some scope =>
          if bool_decide (getKind c scope (nname node) = Some KConst)
          then error (nline node) ConstReassignmentError (nname node)
          else Ok (tt, c)
      | None => Ok (tt, c)
      end
    else Ok (tt, c).

(** ** Closures in loops *)

(** The [while (n)] walk of [detectLoopClosuresPre]: [true] is [ok]. *)
Fixpoint closure_walk (n innermost loop : Node) : bool :=
  if same_node n innermost then true
  else if same_node n loop then false
  else match nparent n with
       | Some p => closure_walk p innermost loop
       | None => true
       end.

Definition detectLoopClosuresPre (node : ANode) : M unit :=
  fun c =>
    let c1 :=
      if bool_decide (outermostLoop c = None) && isLoop node
      then set_loopState (Some (anode node)) (functions c) c else c in
    match outermostLoop c1 with
    | None => Ok (tt, c1)
    | Some loop =>
        let c2 :=
          if isFunction node
          then set_loopState (outermostLoop c1) (functions c1 ++ [anode node]) c1
          else c1 in
        match last (functions c2) with
        | None => Ok (tt, c2)
        | Some innermost =>
            r <- isReference node ;;
            if r then
              match a_refToScope node with
              | None => Err TypeError
              | Some scope =>
                  if isConstLet (getKind c2 scope (nname node)) then
                    if closure_walk (snode scope) innermost loop
                    then Ok (tt, c2)
                    else error (nline node) UnsupportedLoopClosureError
                           (nname node)
                  else Ok (tt, c2)
              end
            else Ok (tt, c2)
        end
    end.

Definition detectLoopClosuresPost (node : ANode) : M unit :=
  fun c =>
    let l := match outermostLoop c with
             | Some loop => if same_node loop node then None else Some loop
             | None => None
             end in
    let fs := if isFunction node then removelast (functions c) else functions c in
    Ok (tt, set_loopState l fs c).

(** ** Chains used to state the properties *)

(** The scopes passed on the way from [this] outward, up to but excluding
    [outer]. *)
Fixpoint scopes_between (this outer : Scope) : list Scope :=
  if same_scope this outer then []
  else this :: match sparent this with
               | Some p => scopes_between p outer
               | None => []
               end.

(** A node followed by its ancestors, innermost first. *)
Fixpoint ancestors (n : Node) : list Node :=
  n :: match nparent n with
       | Some p => ancestors p
       | None => []
       end.

(** Walking up from [n], [loop] is met before [innermost]. *)
Definition loop_reached_first (n loop innermost : Node) : Prop :=
  ∃ pre l post,
    ancestors n = pre ++ l :: post
    ∧ same_node l loop = true ∧ same_node l innermost = false
    ∧ ∀ x, x ∈ pre -> same_node x innermost = false ∧ same_node x loop = false.

(** Walking up from [n], [innermost] is met, and [loop] is not met before. *)
Definition function_reached_first (n loop innermost : Node) : Prop :=
  ∃ pre f post,
    ancestors n = pre ++ f :: post
    ∧ same_node f innermost = true
    ∧ ∀ x, x ∈ pre -> same_node x innermost = false ∧ same_node x loop = false.

(** ** Common hoisting-scope ancestor *)

(** [Array.prototype.splice(start, 1)]: a negative [start] counts from the
    end of the array. *)
Definition splice1 {A} (start : Z) (l : list A) : list A :=
  let len := Z.of_nat (length l) in
  let actual := if bool_decide (start < 0) then Z.max (len + start) 0
                else Z.min start len in
  delete (Z.to_nat actual) l.

(** The first [for] loop of [findParentForScopes]: every entry is replaced by
    its closest hoisting scope; the first one owned by the program node is
    returned at once ([inl]). *)
Fixpoint hoist_entries (scopes : list Scope) : Res (Scope + list Scope) :=
  match scopes with
  | [] => Ok (inr [])
  | scope :: rest =>
      scope <- closestHoistScope scope ;;
      if bool_decide (ntype (snode scope) = Program) then Ok (inl scope)
      else
        r <- hoist_entries rest ;;
        match r with
        | inl found => Ok (inl found)
        | inr rest' => Ok (inr (scope :: rest'))
        end
  end.

Record WalkState := mkWalk {
  w_parentScope : option Scope;
  w_scopesLength : Z;
  w_scopes : list Scope;
  w_path : gmap nat N
}.

(** The inner [for ( let i = 0 ; i < scopesLength ; ++i )] loop, from index
    [i] on.  Every pass lowers [scopesLength - i] by one (either [++i] or
    [scopesLength--] with [i--] undone by [++i]), so a budget of
    [scopesLength - i] passes is never exhausted. *)
Fixpoint for_loop (budget : nat) (uniquePathId : N) (i : Z) (w : WalkState)
    : Res WalkState :=
  if bool_decide (i < w_scopesLength w) then
    match budget with
    | O => Err LoopBudget
    | S budget' =>
        match w_scopes w !! Z.to_nat i with
        | None => Err TypeError
        | Some scope =>
            hoistScope <- closestHoistScope scope ;;
            let scope' := if same_scope hoistScope scope then sparent scope
                          else Some scope in
            if bool_decide (w_path w !! sid hoistScope = Some uniquePathId)
            then Ok (mkWalk (Some hoistScope) (w_scopesLength w) (w_scopes w)
                       (w_path w))
            else
              match scope' with
              | Some scope' =>
                  for_loop budget' uniquePathId (i + 1)
                    (mkWalk None (w_scopesLength w)
                       (<[Z.to_nat i := scope']> (w_scopes w))
                       (<[sid hoistScope := uniquePathId]> (w_path w)))
              | None =>
                  for_loop budget' uniquePathId (i - 1 + 1)
                    (mkWalk None (w_scopesLength w - 1)
                       (splice1 (i - 1) (w_scopes w)) (w_path w))
              end
        end
    end
  else Ok w.

(** The [while] loop; [rounds] is what [++maxCounter < 1000] leaves. *)
Fixpoint while_loop (rounds : nat) (uniquePathId : N) (w : WalkState)
    : Res WalkState :=
  match w_parentScope w with
  | Some _ => Ok w
  | None =>
      if bool_decide (w_scopesLength w = 0) then Ok w
      else match rounds with
           | O => Ok w
           | S rounds' =>
               w' <- for_loop (Z.to_nat (w_scopesLength w)) uniquePathId 0 w ;;
               while_loop rounds' uniquePathId w'
           end
  end.

Definition findParentForScopes (arguments : list Scope) : M Scope :=
  fun c =>
    let scopesLength := Z.of_nat (length arguments) in
    _ <- assert (negb (bool_decide (scopesLength = 0))) ;;
    (* [scopesLength.length === 1] compares [undefined] with 1: never taken *)
    entries <- hoist_entries arguments ;;
    match entries with
    | inl programScope => Ok (programScope, c)
    | inr scopes =>
        let uniquePathId := UUID c in
        w <- while_loop 999 uniquePathId
               (mkWalk None scopesLength scopes (scopePath c)) ;;
        let c' := set_scopePath (w_path w) (UUID c + 1)%N c in
        match w_parentScope w with
        | Some parentScope => Ok (parentScope, c')
        | None => Err AssertionError
        end
    end.

(** A scope recorded as found by the walk is a hoisting scope. *)
Definition found_is_hoist (w : WalkState) : Prop :=
  ∀ p, w_parentScope w = Some p -> skind p = Hoist.

(** ** Shared helper declarations *)

Definition __getNodeBegin (node : Node) : Res Z :=
  if bool_decide (ntype node = Program) then Ok 0
  else if bool_decide (ntype node = ArrowFunctionExpression) then
    match body0 node with
    | Some begin => Ok begin
    | None => Err TypeError
    end
  else
    match body0 node with
    | Some begin => Ok (if isFunction node then begin + 1 else begin)
    | None => Err TypeError
    end.

Definition createScopeVariableDeclaration (scope : Scope) (kind : DeclKind)
    (variableName : string) : M unit :=
  Scope_add scope variableName kind None None None.

Definition __isBubbledVariableDeclaration (variableName variableInitValue : string)
    (c : Core) : option BubbledVariable :=
  match bubbledVariables c !! variableName with
  | Some bubbledVariable =>
      if bool_decide (bv_value bubbledVariable = variableInitValue)
      then Some bubbledVariable else None
  | None => None
  end.

(** [alter.insert(pos, str, options)]. *)
Definition alter_insert (pos : Z) (str : string) (options' : nat) : M unit :=
  modify (fun c => set_alter (alter c ++ [mkEdit pos str options'])
                     (inactiveOptions c) (nextOptions c) c).

(** A fresh [{}] to hold the options of one edit. *)
Definition new_options : M nat :=
  fun c => Ok (nextOptions c,
               set_alter (alter c) (inactiveOptions c) (S (nextOptions c)) c).

(** [__createBubbledVariableDeclaration].  [key] is the logical name under
    which the record sits in [bubbledVariables]: with a record passed in
    (the rebase), the source mutates that record in place. *)
Definition __createBubbledVariableDeclaration (scope : Scope) (key : string)
    (variableInitValue : string) (isFunction' : bool)
    (bubbledVariable : option BubbledVariable) : M string :=
  (bubbledVariable <~
     match bubbledVariable with
     | Some bv =>
         changesOptions <~ new_options ;
         let bv' := mkBV (bv_name bv) (bv_value bv) (bv_isFunction bv) scope
                      changesOptions in
         modify (set_bubbledVariables (fun m => <[key := bv']> m)) ;>
         ret bv'
     | None =>
         name <~ unique key true None ;
         changesOptions <~ new_options ;
         let bv' := mkBV name variableInitValue isFunction' scope changesOptions in
         modify (set_bubbledVariables (fun m => <[key := bv']> m)) ;>
         ret bv'
     end ;
   let variableName := bv_name bubbledVariable in
   createScopeVariableDeclaration scope KVar variableName ;>
   let text :=
     if bv_isFunction bubbledVariable
     then "function " +:+ variableName +:+ bv_value bubbledVariable
     else "var " +:+ variableName +:+ " = " +:+ bv_value bubbledVariable +:+ ";" in
   begin <~ lift (__getNodeBegin (snode scope)) ;
   alter_insert begin text (bv_changesOptions bubbledVariable) ;>
   ret variableName)%core.

Definition __rebaseBubbledVariableDeclaration (scope : Scope) (variableName : string)
    : M string :=
  fun c =>
    match bubbledVariables c !! variableName with
    | None => Err TypeError
    | Some bubbledVariable =>
        let latestChangesOptions := bv_changesOptions bubbledVariable in
        let c1 := set_alter (alter c)
                    (inactiveOptions c ∪ {[latestChangesOptions]})
                    (nextOptions c) c in
        __createBubbledVariableDeclaration scope variableName "" false
          (Some bubbledVariable) c1
    end.

Definition bubbledVariableDeclaration (scope : Scope) (variableName : string)
    (variableInitValue : string) (isFunction' : bool) : M string :=
  (scope <~ lift (closestHoistScope scope) ;
   c <~ get ;
   match __isBubbledVariableDeclaration variableName variableInitValue c with
   | Some bubbledVariable =>
       match Scope_lookup c scope (bv_name bubbledVariable) with
       | Some _ => ret (bv_name bubbledVariable)
       | None =>
           scope <~ findParentForScopes [scope; bv_scope bubbledVariable] ;
           __rebaseBubbledVariableDeclaration scope variableName
       end
   | None =>
       __createBubbledVariableDeclaration scope variableName variableInitValue
         isFunction' None
   end)%core.

(** The edits of the sink that are in force: those whose options object has
    not been marked [inactive]. *)
Definition active_edits (c : Core) : list Edit :=
  filter (fun e => e_options e ∉ inactiveOptions c) (alter c).

(** Requests for one shared helper, one per requesting scope, in order; the
    unit is aborted by the first request that raises. *)
Fixpoint run_requests (scopes : list Scope) (variableName variableInitValue : string)
    (isFunction' : bool) (c : Core) : Res (list string * Core) :=
  match scopes with
  | [] => Ok ([], c)
  | scope :: rest =>
      match bubbledVariableDeclaration scope variableName variableInitValue
              isFunction' c with
      | Ok (name, c1) =>
          match run_requests rest variableName variableInitValue isFunction' c1 with
          | Ok (names, c2) => Ok (name :: names, c2)
          | Err e => Err e
          end
      | Err e => Err e
      end
  end.

(** Handles of option objects are allocated in increasing order. *)
Definition handles_fresh (c : Core) : Prop :=
  (∀ e, e ∈ alter c -> (e_options e < nextOptions c)%nat)
  ∧ (∀ h, h ∈ inactiveOptions c -> (h < nextOptions c)%nat).

(** No request for the logical name has been made and the sink is empty. *)
Definition pristine (variableName : string) (c : Core) : Prop :=
  bubbledVariables c !! variableName = None ∧ alter c = [] ∧ handles_fresh c.

(** The helper is installed under the identifier [name], and the edit held
    by its record is the only edit in force. *)
Definition installed (variableName variableInitValue name : string) (c : Core)
    : Prop :=
  ∃ bv e,
    bubbledVariables c !! variableName = Some bv
    ∧ bv_value bv = variableInitValue
    ∧ bv_name bv = name
    ∧ active_edits c = [e]
    ∧ e_options e = bv_changesOptions bv
    ∧ handles_fresh c.

(** ** Concrete programs

    Trees and scope chains as the parser and [createScopes] produce them:
    ranges are half-open character offsets, the program scope hangs under the
    ambient top scope linked in by [createTopScope], a function node owns a
    hoisting scope, and every [BlockStatement] owns a block scope
    ([isNonFunctionBlock] passes the parent's type string to [isFunction],
    which finds no [type] on it, so function bodies are not exempted). *)

Definition isNonFunctionBlock (node : Node) : bool :=
  bool_decide (ntype node = BlockStatement) && negb false.

Definition leaf (id : nat) (type : NodeType) (name : string) (range : Z * Z)
    (parent : option Node) : Node :=
  mkNode id type name range 1 None None None None None None None [] false None
    parent.

Definition topScope : Scope :=
  mkScope 0 Hoist (leaf 1000 NoType "" (0, 0) None) None.

Definition programScope (program : Node) : Scope :=
  mkScope 1 Hoist program (Some topScope).

Definition unit_start : Core := setup [] (mkOptions false false) core0.

Definition then_run {A B} (r : Res (A * Core)) (k : Core -> Res B) : Res B :=
  match r with
  | Ok (_, c) => k c
  | Err e => Err e
  end.

(** The state a computation ends in (the start state when it raises; the
    examples below all run through). *)
Definition state_after {A} (r : Res (A * Core)) : Core :=
  match r with
  | Ok (_, c) => c
  | Err _ => unit_start
  end.

(** [let x = x;] *)
Module LetXX.
Definition program := leaf 0 Program "" (0, 10) None.
Definition declaration := leaf 1 VariableDeclaration "" (0, 10) (Some program).
Definition declarator :=
  mkNode 2 VariableDeclarator "" (4, 9) 1 (Some 3%nat) None None None None None
    None [] false None (Some declaration).
Definition id_x := leaf 3 Identifier "x" (4, 5) (Some declarator).
Definition init_x := leaf 4 Identifier "x" (8, 9) (Some declarator).
Definition scope := programScope program.
Definition built : Res (unit * Core) :=
  createScopes_VariableDeclaration scope KLet
    [(2%nat, PIdentifier 3 "x" (4, 5))] unit_start.
Definition reference := mkANode init_x scope None.
Definition core : Core := state_after built.
Definition resolved : Res (ANode * Core) := setupReferences reference core.
End LetXX.

(** [x; let x = 1;] *)
Module UseThenLet.
Definition program := leaf 0 Program "" (0, 13) None.
Definition statement := leaf 1 ExpressionStatement "" (0, 2) (Some program).
Definition use_x := leaf 2 Identifier "x" (0, 1) (Some statement).
Definition declaration := leaf 3 VariableDeclaration "" (3, 13) (Some program).
Definition declarator :=
  mkNode 4 VariableDeclarator "" (7, 12) 1 (Some 5%nat) None None None None None
    None [] false None (Some declaration).
Definition id_x := leaf 5 Identifier "x" (7, 8) (Some declarator).
Definition scope := programScope program.
Definition built : Res (unit * Core) :=
  createScopes_VariableDeclaration scope KLet
    [(4%nat, PIdentifier 5 "x" (7, 8))] unit_start.
Definition reference := mkANode use_x scope None.
Definition core : Core := state_after built.
Definition resolved : Res (ANode * Core) := setupReferences reference core.
End UseThenLet.

(** [function f(){ return x; } let x = 1; f();] *)
Module ClosureThenLet.
Definition program := leaf 0 Program "" (0, 41) None.
Definition f :=
  mkNode 1 FunctionDeclaration "" (0, 25) 1 (Some 2%nat) None None None None None
    None [] false (Some 12) (Some program).
Definition body := leaf 3 BlockStatement "" (12, 25) (Some f).
Definition ret_stmt := leaf 4 ReturnStatement "" (14, 23) (Some body).
Definition use_x := leaf 5 Identifier "x" (21, 22) (Some ret_stmt).
Definition declaration := leaf 6 VariableDeclaration "" (26, 36) (Some program).
Definition declarator :=
  mkNode 7 VariableDeclarator "" (30, 35) 1 (Some 8%nat) None None None None None
    None [] false None (Some declaration).
Definition scope := programScope program.
Definition f_scope := mkScope 2 Hoist f (Some scope).
Definition body_scope := mkScope 3 BlockScope body (Some f_scope).
Definition built : Res (unit * Core) :=
  bind (Scope_add scope "f" KFun (Some 2%nat) None None)
    (fun _ => createScopes_VariableDeclaration scope KLet
                [(7%nat, PIdentifier 8 "x" (30, 31))]) unit_start.
Definition reference := mkANode use_x body_scope None.
Definition core : Core := state_after built.
Definition resolved : Res (ANode * Core) := setupReferences reference core.
End ClosureThenLet.

(** [const c = 1; c = 2;] *)
Module ConstWrite.
Definition program := leaf 0 Program "" (0, 19) None.
Definition declaration := leaf 1 VariableDeclaration "" (0, 12) (Some program).
Definition declarator :=
  mkNode 2 VariableDeclarator "" (6, 11) 1 (Some 3%nat) None None None None None
    None [] false None (Some declaration).
Definition statement := leaf 4 ExpressionStatement "" (13, 19) (Some program).
Definition assignment :=
  mkNode 5 AssignmentExpression "" (13, 18) 1 None None None None None
    (Some 6%nat) None [] false None (Some statement).
Definition target_c := leaf 6 Identifier "c" (13, 14) (Some assignment).
Definition scope := programScope program.
Definition built : Res (unit * Core) :=
  createScopes_VariableDeclaration scope KConst
    [(2%nat, PIdentifier 3 "c" (6, 7))] unit_start.
Definition core : Core := state_after built.
Definition target := mkANode target_c scope (Some scope).
End ConstWrite.

(** Pre-order visits of [detectLoopClosuresPre] down one path of the tree. *)
Fixpoint visit_pre (path : list ANode) : M unit :=
  match path with
  | [] => ret tt
  | node :: rest => bind (detectLoopClosuresPre node) (fun _ => visit_pre rest)
  end.

(** [for (let i=0;i<3;i++){ later(function(){ use(i); }); }], with [later]
    and [use] injected as writable globals. *)
Module LoopClosure.
Definition program := leaf 0 Program "" (0, 54) None.
Definition for_stmt := leaf 1 ForStatement "" (0, 54) (Some program).
Definition body := leaf 2 BlockStatement "" (21, 54) (Some for_stmt).
Definition stmt := leaf 3 ExpressionStatement "" (23, 52) (Some body).
Definition call := leaf 4 CallExpression "" (23, 51) (Some stmt).
Definition later_id := leaf 10 Identifier "later" (23, 28) (Some call).
Definition closure :=
  mkNode 5 FunctionExpression "" (29, 50) 1 None None None None None None None
    [] false (Some 39) (Some call).
Definition closure_body := leaf 6 BlockStatement "" (39, 50) (Some closure).
Definition inner_stmt := leaf 7 ExpressionStatement "" (41, 48) (Some closure_body).
Definition inner_call := leaf 8 CallExpression "" (41, 47) (Some inner_stmt).
Definition use_id := leaf 11 Identifier "use" (41, 44) (Some inner_call).
Definition use_i := leaf 9 Identifier "i" (45, 46) (Some inner_call).

Definition scope := programScope program.
Definition for_scope := mkScope 2 BlockScope for_stmt (Some scope).
Definition body_scope := mkScope 3 BlockScope body (Some for_scope).
Definition closure_scope := mkScope 4 Hoist closure (Some body_scope).
Definition closure_body_scope :=
  mkScope 5 BlockScope closure_body (Some closure_scope).

Definition built : Res (unit * Core) :=
  bind (Scope_add topScope "later" KVar None (Some (-1)) None)
    (fun _ => bind (Scope_add topScope "use" KVar None (Some (-1)) None)
    (fun _ => createScopes_VariableDeclaration for_scope KLet
                [(13%nat, PIdentifier 12 "i" (9, 10))])) unit_start.

Definition path : list ANode :=
  [ mkANode program scope None; mkANode for_stmt for_scope None;
    mkANode body body_scope None; mkANode stmt body_scope None;
    mkANode call body_scope None;
    mkANode later_id body_scope (Some topScope);
    mkANode closure closure_scope None;
    mkANode closure_body closure_body_scope None;
    mkANode inner_stmt closure_body_scope None;
    mkANode inner_call closure_body_scope None;
    mkANode use_id closure_body_scope (Some topScope) ].
Definition visited : Res (unit * Core) := then_run built (visit_pre path).
Definition core : Core := state_after visited.
Definition reference := mkANode use_i closure_body_scope (Some for_scope).
End LoopClosure.

(** [for (;;){ later(function(){ let j = 1; use(j); }); }] *)
Module LocalCapture.
Definition program := leaf 0 Program "" (0, 52) None.
Definition for_stmt := leaf 1 ForStatement "" (0, 52) (Some program).
Definition body := leaf 2 BlockStatement "" (8, 52) (Some for_stmt).
Definition stmt := leaf 3 ExpressionStatement "" (10, 50) (Some body).
Definition call := leaf 4 CallExpression "" (10, 49) (Some stmt).
Definition closure :=
  mkNode 5 FunctionExpression "" (16, 48) 1 None None None None None None None
    [] false (Some 26) (Some call).
Definition closure_body := leaf 6 BlockStatement "" (26, 48) (Some closure).
Definition inner_stmt := leaf 7 ExpressionStatement "" (39, 46) (Some closure_body).
Definition inner_call := leaf 8 CallExpression "" (39, 45) (Some inner_stmt).
Definition use_j := leaf 9 Identifier "j" (43, 44) (Some inner_call).

Definition scope := programScope program.
Definition body_scope := mkScope 3 BlockScope body (Some scope).
Definition closure_scope := mkScope 4 Hoist closure (Some body_scope).
Definition closure_body_scope :=
  mkScope 5 BlockScope closure_body (Some closure_scope).

Definition built : Res (unit * Core) :=
  createScopes_VariableDeclaration closure_body_scope KLet
    [(13%nat, PIdentifier 12 "j" (32, 33))] unit_start.
Definition path : list ANode :=
  [ mkANode program scope None; mkANode for_stmt scope None;
    mkANode body body_scope None; mkANode stmt body_scope None;
    mkANode call body_scope None;
    mkANode closure closure_scope None;
    mkANode closure_body closure_body_scope None;
    mkANode inner_stmt closure_body_scope None;
    mkANode inner_call closure_body_scope None ].
Definition visited : Res (unit * Core) := then_run built (visit_pre path).
Definition core : Core := state_after visited.
Definition reference := mkANode use_j closure_body_scope (Some closure_body_scope).
End LocalCapture.

(** Two classes in functions of different nesting depth:
<<
function g() { function f() { class Y {} } }
function a() { class X {} }
>>
    Lowering a class requests the shared helper "DP" from the scope of the
    class node ([createNames]). *)
Module TwoClasses.
Definition program := leaf 0 Program "" (0, 72) None.
Definition g :=
  mkNode 1 FunctionDeclaration "" (0, 44) 1 (Some 11%nat) None None None None
    None None [] false (Some 13) (Some program).
Definition g_body := leaf 2 BlockStatement "" (13, 44) (Some g).
Definition f :=
  mkNode 3 FunctionDeclaration "" (15, 42) 1 (Some 12%nat) None None None None
    None None [] false (Some 28) (Some g_body).
Definition f_body := leaf 4 BlockStatement "" (28, 42) (Some f).
Definition class_Y := leaf 5 ClassDeclaration "" (30, 40) (Some f_body).
Definition a :=
  mkNode 6 FunctionDeclaration "" (45, 72) 2 (Some 13%nat) None None None None
    None None [] false (Some 58) (Some program).
Definition a_body := leaf 7 BlockStatement "" (58, 72) (Some a).
Definition class_X := leaf 8 ClassDeclaration "" (60, 70) (Some a_body).

Definition scope := programScope program.
Definition g_scope := mkScope 2 Hoist g (Some scope).
Definition g_body_scope := mkScope 3 BlockScope g_body (Some g_scope).
Definition f_scope := mkScope 4 Hoist f (Some g_body_scope).
Definition f_body_scope := mkScope 5 BlockScope f_body (Some f_scope).
Definition a_scope' := mkScope 6 Hoist a (Some scope).
Definition a_body_scope := mkScope 7 BlockScope a_body (Some a_scope').

(** Function names go into the scope of the parent node. *)
Definition built : Res (unit * Core) :=
  bind (Scope_add scope "g" KFun (Some 11%nat) None None)
    (fun _ => bind (Scope_add g_body_scope "f" KFun (Some 12%nat) None None)
    (fun _ => Scope_add scope "a" KFun (Some 13%nat) None None)) unit_start.
Definition core : Core := state_after built.

(** The helper requested for [class Y], then for [class X]. *)
Definition first_request : Res (string * Core) :=
  bubbledVariableDeclaration f_body_scope "DP" "Object.defineProperty" false core.
Definition after_first : Core := state_after first_request.
Definition second_request : Res (string * Core) :=
  bubbledVariableDeclaration a_body_scope "DP" "Object.defineProperty" false
    after_first.
End TwoClasses.

(** The same functions with the hoisting scopes nested directly, as for
    arrow functions with expression bodies
    ([var g = () => () => ...]), where no block lies between. *)
Module DirectNesting.
Definition g_scope := mkScope 2 Hoist TwoClasses.g (Some TwoClasses.scope).
Definition f_scope := mkScope 4 Hoist TwoClasses.f (Some g_scope).
End DirectNesting.

(** A scope followed by the scopes enclosing it, innermost first. *)
Fixpoint scope_chain (s : Scope) : list Scope :=
  s :: match sparent s with
       | Some p => scope_chain p
       | None => []
       end.

(** [anc] is [s] or one of the scopes enclosing it. *)
Definition encloses (anc s : Scope) : bool :=
  existsb (same_scope anc) (scope_chain s).

(** ** Class lowering: the prototype wiring text *)

(** The double-quote character of the emitted JavaScript. *)
Definition dq : string := String (Stdlib.Strings.Ascii.ascii_of_nat 34) "".
Definition quoted (s : string) : string := dq +:+ s +:+ dq.

(** [Array.prototype.join]. *)
Fixpoint join (sep : string) (l : list string) : string :=
  match l with
  | [] => ""
  | [s] => s
  | s :: rest => s +:+ sep +:+ join sep rest
  end.

(** JavaScript truthiness of an optional string. *)
Definition truthy (s : option string) : bool :=
  match s with
  | Some s => negb (bool_decide (s = ""))
  | None => false
  end.

(** An entry of the per-class accessor table. *)
Record Accessor := mkAccessor {
  acc_raw : option string;
  acc_get : option string;
  acc_set : option string
}.

Definition accessorString (key : string) (accessor : Accessor) : string :=
  let raw := acc_raw accessor in
  let getter := acc_get accessor in
  let setter := acc_set accessor in
  (if truthy raw then default "" raw else key)
  +:+ ": {"
  +:+ (if truthy getter then quoted "get" +:+ ": " +:+ default "" getter +:+ ", "
       else "")
  +:+ (if truthy setter then quoted "set" +:+ ": " +:+ default "" setter +:+ ", "
       else "")
  +:+ quoted "configurable" +:+ ": true, " +:+ quoted "enumerable" +:+ ": true}".

Definition freezePrototypeString (Object_defineProperty_name className : string)
    : string :=
  Object_defineProperty_name +:+ "(" +:+ className +:+ ", "
  +:+ quoted "prototype" +:+ ", {" +:+ quoted "configurable" +:+ ": false, "
  +:+ quoted "enumerable" +:+ ": false, " +:+ quoted "writable"
  +:+ ": false});".

(** [createPrototypeString(node, className, superName, accessors)];
    [accessors] lists the table in the order of [Object.keys]. *)
Definition createPrototypeString (node : ANode) (className : string)
    (superName : option string) (accessors : list (string * Accessor))
    : M string :=
  (let accessorsString :=
     join ", " ((fun ka => accessorString (fst ka) (snd ka)) <$> accessors) in
   Object_defineProperty_name <~
     bubbledVariableDeclaration (a_scope node) "DP" "Object.defineProperty" false ;
   let freezePrototypeString :=
     freezePrototypeString Object_defineProperty_name className in
   if truthy superName then
     ret (className
          +:+ ".prototype = Object.create(" +:+ default "" superName +:+ ".prototype"
          +:+ ", {"
          +:+ quoted "constructor" +:+ ": {" +:+ quoted "value" +:+ ": "
          +:+ className +:+ ", " +:+ quoted "configurable" +:+ ": true, "
          +:+ quoted "writable" +:+ ": true}"
          +:+ (if truthy (Some accessorsString) then ", " +:+ accessorsString
               else "")
          +:+ " }"
          +:+ ");"
          +:+ freezePrototypeString)
   else if truthy (Some accessorsString) then
     ret ("Object.defineProperties("
          +:+ className +:+ ".prototype, {" +:+ accessorsString +:+ "});"
          +:+ freezePrototypeString)
   else ret freezePrototypeString)%core.

(** ** Parameter lowering ([transpiler/functions.js]) *)

(** A parameter, default-value or rest node as the plugin reads it. *)
Record Slot := mkSlot {
  x_type : NodeType;
  x_name : option string;
  x_range : Z * Z
}.

Record FunctionNode := mkFunctionNode {
  fn_type : NodeType;
  fn_line : Z;
  fn_params : list Slot;
  fn_defaults : list Slot;
  fn_rest : option Slot;
  fn_body0 : Z;
  fn_scope : Scope
}.

(** An entry pushed on [this.changes]. *)
Record Change := mkChange {
  ch_start : Z;
  ch_end : Z;
  ch_str : string;
  ch_type : option Z
}.

(** [array[i]] for a number [i]: [undefined] outside the array. *)
Definition at_index {A} (l : list A) (i : Z) : option A :=
  if bool_decide (i < 0) then None else l !! Z.to_nat i.

Definition js_name (name : option string) : string := default "undefined" name.

Definition present {A} (o : option A) : bool :=
  match o with
  | Some _ => true
  | None => false
  end.

(** [isFunction] of this file: arrow functions are not listed. *)
Definition functions_isFunction (node : FunctionNode) : bool :=
  bool_decide (fn_type node = FunctionDeclaration)
  || bool_decide (fn_type node = FunctionExpression).

Definition isObjectPattern (node : option Slot) : bool :=
  match node with
  | Some n => bool_decide (x_type n = ObjectPattern)
  | None => false
  end.

Definition isArrayPattern (node : option Slot) : bool :=
  match node with
  | Some n => bool_decide (x_type n = ArrayPattern)
  | None => false
  end.

Definition defaultString (node : Slot) (value : string) : Res string :=
  _ <- assert (bool_decide (x_type node = Identifier)) ;;
  Ok ("if(" +:+ js_name (x_name node) +:+ " === void 0)"
      +:+ js_name (x_name node) +:+ " = " +:+ value).

Definition definitionWithDefaultString (node : option Slot) (donor value : string)
    : Res string :=
  match node with
  | None => Err TypeError
  | Some node =>
      _ <- assert (bool_decide (x_type node = Identifier)) ;;
      d <- defaultString node value ;;
      Ok (js_name (x_name node) +:+ " = " +:+ donor +:+ ";" +:+ d)
  end.

Definition unwrapSpreadDeclaration (node : Slot) (scope : Scope) (donor : string)
    (fromIndex : Z) : M string :=
  (lift (assert (bool_decide (x_type node = Identifier))) ;>
   sliceFunctionName <~
     bubbledVariableDeclaration scope "SLICE" "Array.prototype.slice" false ;
   ret (js_name (x_name node) +:+ " = " +:+ sliceFunctionName +:+ ".call("
        +:+ donor +:+ ", " +:+ pretty fromIndex +:+ ")"))%core.

Section ParameterLowering.
(** Collaborators outside the sources: the destructuring expansion
    ([destructuring.unwrapDestructuring(kind, pattern, value)], given the
    text of the value identifier) and [core.stringFromSrc], the source text
    of a node.  Both are taken to return. *)
Variable unwrapDestructuring : string -> Slot -> string -> string.
Variable stringFromSrc : Slot -> string.

(** First loop: the parameters without default, from index [i] on. *)
Fixpoint lower_patterns (todo : nat) (i : Z) (fnBodyStart : Z)
    (params : list Slot) (changes : list Change) : M (list Change) :=
  match todo with
  | O => ret changes
  | S todo' =>
      let param := at_index params i in
      let prevParam := at_index params (i - 1) in
      if isObjectPattern param || isArrayPattern param then
        match param with
        | None => throw TypeError
        | Some p =>
            (newParamName <~ unique "$D" true None ;
             let paramStr :=
               unwrapDestructuring "var" p newParamName +:+ ";" in
             let add := mkChange fnBodyStart fnBodyStart paramStr (Some 2) in
             let cleanup :=
               mkChange
                 ((match prevParam with
                   | Some prev => snd (x_range prev) + 1
                   | None => fst (x_range p)
                   end) - (if present prevParam then 1 else 0))
                 (snd (x_range p))
                 ((if bool_decide (i = 0) then "" else ", ") +:+ newParamName)
                 None in
             lower_patterns todo' (i + 1) fnBodyStart params
               (changes ++ [add; cleanup]))%core
        end
      else lower_patterns todo' (i + 1) fnBodyStart params changes
  end.

(** Second loop: the defaults, from index [i] on. *)
Fixpoint lower_defaults (todo : nat) (i : Z) (node : FunctionNode)
    (changes : list Change) : Res (list Change) :=
  match todo with
  | O => Ok changes
  | S todo' =>
      let params := fn_params node in
      let defaults := fn_defaults node in
      let initialParamsCount := Z.of_nat (length params) in
      let defaultsCount := Z.of_nat (length defaults) in
      let fnBodyStart := fn_body0 node + 1 in
      let paramIndex := initialParamsCount - defaultsCount + i in
      let param := at_index params paramIndex in
      let prevDflt := at_index defaults (i - 1) in
      let prevParam := at_index params (paramIndex - 1) in
      match at_index defaults i with
      | None => Err TypeError
      | Some dflt =>
          _ <- (if bool_decide (x_type dflt = Identifier) then
                  match param with
                  | None => Err TypeError
                  | Some p =>
                      if bool_decide (x_name dflt = x_name p)
                      then error (fn_line node) SelfReferentialDefaultError
                             (js_name (x_name p))
                      else Ok tt
                  end
                else Ok tt) ;;
          defaultStr <-
            (if isObjectPattern param || isArrayPattern param then
               match param with
               | None => Err TypeError
               | Some p =>
                   Ok (unwrapDestructuring "var" p
                         ("(arguments[" +:+ pretty paramIndex
                          +:+ "] !== void 0 ? arguments[" +:+ pretty paramIndex
                          +:+ "] : " +:+ stringFromSrc dflt +:+ ")")
                       +:+ ";")
               end
             else
               d <- definitionWithDefaultString param
                      ("arguments[" +:+ pretty paramIndex +:+ "]")
                      (stringFromSrc dflt) ;;
               Ok ("var " +:+ d +:+ ";")) ;;
          match param with
          | None => Err TypeError
          | Some p =>
              let add :=
                mkChange fnBodyStart fnBodyStart defaultStr (Some 2) in
              let prev := match prevDflt with
                          | Some d => Some d
                          | None => prevParam
                          end in
              let cleanup :=
                mkChange
                  ((match prev with
                    | Some q => snd (x_range q) + 1
                    | None => fst (x_range p)
                    end) - (if present prevParam then 1 else 0))
                  (snd (x_range dflt)) "" None in
              lower_defaults todo' (i + 1) node (changes ++ [add; cleanup])
          end
      end
  end.

Definition lower_rest (node : FunctionNode) (changes : list Change)
    : M (list Change) :=
  match fn_rest node with
  | None => ret changes
  | Some rest =>
      let params := fn_params node in
      let defaults := fn_defaults node in
      let initialParamsCount := Z.of_nat (length params) in
      let fnBodyStart := fn_body0 node + 1 in
      let lastParam := at_index params (initialParamsCount - 1) in
      let lastDflt := at_index defaults (Z.of_nat (length defaults) - 1) in
      (spread <~ unwrapSpreadDeclaration rest (fn_scope node) "arguments"
                   initialParamsCount ;
       let restStr := "var " +:+ spread +:+ ";" in
       hoist <~ lift (closestHoistScope (fn_scope node)) ;
       Scope_add hoist (js_name (x_name rest)) KVar None (Some (-1)) None ;>
       let last := match lastDflt with
                   | Some d => Some d
                   | None => lastParam
                   end in
       ret (changes ++
            [ mkChange fnBodyStart fnBodyStart restStr None;
              mkChange
                ((match last with
                  | Some q => snd (x_range q) + 1
                  | None => fst (x_range rest)
                  end) - (if present lastParam then 1 else 3))
                (snd (x_range rest)) "" None ]))%core
  end.

(** [pre], the visitor [functionDestructuringAndDefaultsAndRest]; the
    result is [this.changes] after the visit. *)
Definition functionDestructuringAndDefaultsAndRest (node : FunctionNode)
    (changes : list Change) : M (list Change) :=
  if functions_isFunction node then
    let params := fn_params node in
    let defaults := fn_defaults node in
    let initialParamsCount := Z.of_nat (length params) in
    let defaultsCount := Z.of_nat (length defaults) in
    let fnBodyStart := fn_body0 node + 1 in
    let paramsCount := initialParamsCount - defaultsCount in
    (changes <~ lower_patterns (Z.to_nat paramsCount) 0 fnBodyStart params
                  changes ;
     changes <~ lift (lower_defaults (length defaults) 0 node changes) ;
     lower_rest node changes)%core
  else ret changes.
End ParameterLowering.



(** [function f(a = a){}] *)
Module SelfDefault.
Definition program := leaf 0 Program "" (0, 19) None.
Definition f_node :=
  mkNode 1 FunctionDeclaration "" (0, 19) 1 (Some 2%nat) None None None None
    None None [3%nat] false (Some 17) (Some program).
Definition f_scope := mkScope 2 Hoist f_node (Some (programScope program)).
Definition f : FunctionNode :=
  mkFunctionNode FunctionDeclaration 1
    [mkSlot Identifier (Some "a") (11, 12)]
    [mkSlot Identifier (Some "a") (15, 16)]
    None 17 f_scope.
End SelfDefault.

(** ** Names by token ([uniqueByToken])

    [__nameByToken] is created on first use and is a plain object: [token in
    table] also holds for the names every object inherits from
    [Object.prototype], and an assignment to [__proto__] with a string does
    not create a property. *)





(** ** Further concrete inputs *)

(** [tmp$0;]: a program that refers to a name of the form [unique] mints. *)
Module DollarReference.
Definition program := leaf 0 Program "" (0, 6) None.
Definition statement := leaf 1 ExpressionStatement "" (0, 6) (Some program).
Definition use := leaf 2 Identifier "tmp$0" (0, 5) (Some statement).
Definition reference := mkANode use (programScope program) None.
End DollarReference.

(** The text of the declaration installed for a shared helper. *)
Definition helper_text (name value : string) (isFunction' : bool) : string :=
  if isFunction' then "function " +:+ name +:+ value
  else "var " +:+ name +:+ " = " +:+ value +:+ ";".


(** [function f(a, b = 2, ...rest){}] *)
Module DefaultAndRest.
Definition program := leaf 0 Program "" (0, 32) None.
Definition f_node :=
  mkNode 1 FunctionDeclaration "" (0, 32) 1 (Some 2%nat) None None None None
    None None [3%nat; 4%nat] false (Some 30) (Some program).
Definition f_scope := mkScope 2 Hoist f_node (Some (programScope program)).
Definition f : FunctionNode :=
  mkFunctionNode FunctionDeclaration 1
    [mkSlot Identifier (Some "a") (11, 12); mkSlot Identifier (Some "b") (14, 15)]
    [mkSlot Literal None (18, 19)]
    (Some (mkSlot Identifier (Some "rest") (24, 28))) 30 f_scope.
Definition plain : FunctionNode :=
  mkFunctionNode FunctionExpression 1
    [mkSlot Identifier (Some "a") (11, 12); mkSlot Identifier (Some "b") (14, 15)]
    [] None 30 f_scope.
Definition expand : string -> Slot -> string -> string := fun _ _ _ => "".
Definition source : Slot -> string := fun _ => "2".
Definition lower (node : FunctionNode) : Res (list Change * Core) :=
  functionDestructuringAndDefaultsAndRest expand source
    node [] unit_start.
Definition lowered : Res (list Change * Core) :=
  functionDestructuringAndDefaultsAndRest expand source
    f [] unit_start.
End DefaultAndRest.

(** ** Class lowering: static accessors and the names of a unit *)

(** The descriptor text of one static accessor, as built inside
    [createStaticAccessorsDefinitionString]. *)
Definition staticAccessorString (key : string) (accessor : Accessor) : string :=
  let raw := acc_raw accessor in
  let getter := acc_get accessor in
  let setter := acc_set accessor in
  (if truthy raw then default "" raw else key)
  +:+ ": {"
  +:+ (if truthy getter then quoted "get" +:+ ": " +:+ default "" getter +:+ ", "
       else "")
  +:+ (if truthy setter then quoted "set" +:+ ": " +:+ default "" setter
       else "")
  +:+ ", " +:+ quoted "configurable" +:+ ": true, " +:+ quoted "enumerable"
  +:+ ": true}".

(** [createStaticAccessorsDefinitionString(node, recipientStr, accessors)];
    [accessors] lists the table in the order of [Object.keys].  The [node]
    argument is not used by the function. *)
Definition createStaticAccessorsDefinitionString (recipientStr : string)
    (accessors : list (string * Accessor)) : string :=
  match accessors with
  | [] => ""
  | _ =>
      ";Object.defineProperties(" +:+ recipientStr +:+ ", {"
      +:+ join ", " ((fun ka => staticAccessorString (fst ka) (snd ka)) <$> accessors)
      +:+ "});"
  end.

(** The fields of the class transpiler that [createNames] reads and
    writes. *)
Record ClassNames := mkClassNames {
  __superRefName : option string;
  __protoRefName : option string;
  __staticRefName : option string;
  __DP : option string;
  __MIXIN : option string
}.

(** The part of [reset] that concerns the names. *)
Definition classes_reset : ClassNames := mkClassNames None None None None None.

Section CreateNames.
(** [objectMixinBody.replace("${Object_defineProperty}", name)]: the text of
    the mixin helper with the name of the defineProperty helper filled in.
    How [String.prototype.replace] reads a [$] sequence of the replacement
    text is left open. *)
Variable mixinBody : string -> string.

Definition refName (current : option string) (base : string) : M (option string) :=
  if negb (truthy current) then
    (g <~ unique base true None ; ret (Some g))%core
  else ret current.

(** The two helper requests at the end of [createNames]. *)
Definition createNames_helpers (scope : Scope) (names : ClassNames) : M ClassNames :=
  (dp <~ bubbledVariableDeclaration scope "DP" "Object.defineProperty" false ;
   mixin <~ bubbledVariableDeclaration scope "MIXIN" (mixinBody dp) false ;
   ret (mkClassNames (__superRefName names) (__protoRefName names)
          (__staticRefName names) (Some dp) (Some mixin)))%core.

(** [createNames(node)], for a node whose [$scope] is [scope]. *)
Definition createNames (scope : Scope) (names : ClassNames) : M ClassNames :=
  (superRef <~ refName (__superRefName names) "super" ;
   protoRef <~ refName (__protoRefName names) "$proto" ;
   staticRef <~ refName (__staticRefName names) "$static" ;
   createNames_helpers scope
     (mkClassNames superRef protoRef staticRef (__DP names) (__MIXIN names)))%core.
End CreateNames.

(** ** The names a declaration introduces *)

(** [addVariable] of [getNodeVariableNames]; the result is [vars] after the
    call. *)
Fixpoint addVariable (variable : Pattern) (vars : list string) : list string :=
  match variable with
  | PObjectPattern properties =>
      (fix each (l : list Pattern) (vars : list string) : list string :=
         match l with
         | [] => vars
         | v :: rest => each rest (addVariable v vars)
         end) properties vars
  | PProperty value => addVariable value vars
  | PArrayPattern elements =>
      (fix each (l : list (option Pattern)) (vars : list string) : list string :=
         match l with
         | [] => vars
         | Some v :: rest => each rest (addVariable v vars)
         | None :: rest => each rest vars
         end) elements vars
  | PSpreadElement _ argument_name _ => vars ++ [argument_name]
  | PIdentifier _ name _ => vars ++ [name]
  end.

(** [getNodeVariableNames(node)] for a [VariableDeclaration] node with the
    given declarators. *)
Definition getNodeVariableNames_VariableDeclaration
    (declarations : list (nat * Pattern)) : list string :=
  foldl (fun vars (declarator : nat * Pattern) =>
           addVariable (snd declarator) vars) [] declarations.

(** The scope [Scope.add] puts a declaration of the given kind in. *)
Definition declaration_target (scope : Scope) (kind : DeclKind) : Res Scope :=
  match kind with
  | KVar | KFun | KParam => closestHoistScope scope
  | _ => Ok scope
  end.

(** From [c] to [c1], exactly the listed names have been declared (or
    declared again) with the given kind in [target]. *)
Definition declares (target : Scope) (kind : DeclKind) (names : list string)
    (c c1 : Core) : Prop :=
  (∀ s, sid s ≠ sid target -> decls_of c1 s = decls_of c s)
  ∧ (∀ name, name ∈ names -> getKind c1 target name = Some kind)
  ∧ (∀ name, name ∉ names -> decls_of c1 target !! name = decls_of c target !! name).

(** ** The ambient scope *)

Definition complementary : list (string * bool) :=
  [("undefined", false); ("Infinity", false); ("console", false)].

(** [inject(obj)] of [createTopScope], on the declarations of the top scope;
    [obj] lists the table in the order of [for ... in].  The node given to
    [Scope.add] is a stub without identity. *)
Definition inject (obj : list (string * bool))
    (decls : gmap string Declaration) : gmap string Declaration :=
  foldl (fun decls (entry : string * bool) =>
           let name := fst entry in
           let writeable := snd entry in
           let kind := if writeable then KVar else KConst in
           let decls := if bool_decide (is_Some (decls !! name))
                        then delete name decls else decls in
           <[name := mkDecl kind None (Some (-1)) None]> decls)
        decls obj.

(** The failure of [createTopScope]: [error(-1, 'environment "{0}" not
    found', env)]. *)
Inductive TopScopeError :=
  | EnvironmentNotFound (env : string).

Section TopScope.
(** The tables of [jshint_globals/vars.js], by property name. *)
Variable jshint_vars : string -> option (list (string * bool)).

Fixpoint inject_environments (environments : list string)
    (decls : gmap string Declaration)
    : TopScopeError + gmap string Declaration :=
  match environments with
  | [] => inr decls
  | env :: rest =>
      match jshint_vars env with
      | None => inl (EnvironmentNotFound env)
      | Some table => inject_environments rest (inject table decls)
      end
  end.

(** [createTopScope(programScope, environments, globals)]: the declarations
    of the scope it returns.  [inject] of a table that [jshint_vars] lacks
    iterates over nothing. *)
Definition createTopScope (environments : option (list string))
    (globals : option (list (string * bool)))
    : TopScopeError + gmap string Declaration :=
  let decls := inject complementary ∅ in
  let decls := inject (default [] (jshint_vars "reservedVars")) decls in
  let decls := inject (default [] (jshint_vars "ecmaIdentifiers")) decls in
  match inject_environments (default [] environments) decls with
  | inl e => inl e
  | inr decls => inr (inject (default [] globals) decls)
  end.
End TopScope.

(** [let {a, b: [c, , ...d]} = o, e;] *)
Module DestructuringLet.
Definition program := leaf 0 Program "" (0, 32) None.
Definition scope := programScope program.
Definition declarations : list (nat * Pattern) :=
  [ (10%nat,
     PObjectPattern
       [ PProperty (PIdentifier 11 "a" (5, 6));
         PProperty (PArrayPattern
                      [ Some (PIdentifier 12 "c" (12, 13)); None;
                        Some (PSpreadElement 13 "d" (17, 21)) ]) ]);
    (14%nat, PIdentifier 15 "e" (29, 30)) ].
End DestructuringLet.

(** A unit with the browser environment and one global. *)
Module TopScopeExample.
Definition vars (name : string) : option (list (string * bool)) :=
  if bool_decide (name = "reservedVars") then Some [("arguments", false)]
  else if bool_decide (name = "ecmaIdentifiers") then Some [("Array", false)]
  else if bool_decide (name = "browser") then Some [("window", false); ("console", false)]
  else None.
Definition globals : list (string * bool) := [("console", true); ("$", false)].
End TopScopeExample.

(** The first class of a unit. *)
Module ClassUnit.
Definition program := leaf 0 Program "" (0, 10) None.
Definition scope := programScope program.
Definition mixinBody (name : string) : string :=
  "function(t,s){for(var p in s){if(s.hasOwnProperty(p)){" +:+ name
  +:+ "(t,p,Object.getOwnPropertyDescriptor(s,p));}}return t}".
Definition first : Res (ClassNames * Core) :=
  createNames mixinBody scope classes_reset unit_start.
End ClassUnit.

(** ** Two classes, the class of the later function lowered first

    The program of [TwoClasses], with the wiring text of [class X] (in [a])
    synthesized before that of [class Y] (in [f], nested in [g]). *)
Module FreezeOrder.
Definition X := mkANode TwoClasses.class_X TwoClasses.a_body_scope None.
Definition Y := mkANode TwoClasses.class_Y TwoClasses.f_body_scope None.
Definition lower_X : Res (string * Core) :=
  createPrototypeString X "X" None [] TwoClasses.core.
Definition after_X : Core := state_after lower_X.
Definition lower_Y : Res (string * Core) :=
  createPrototypeString Y "Y" None [] after_X.
Definition after_Y : Core := state_after lower_Y.
End FreezeOrder.

(** [var h = (a = a) => a;] *)
Module ArrowSelfDefault.
Definition program := leaf 0 Program "" (0, 21) None.
Definition h_node :=
  mkNode 1 ArrowFunctionExpression "" (8, 20) 1 None None None None None
    None None [2%nat] false (Some 19) (Some program).
Definition h_scope := mkScope 2 Hoist h_node (Some (programScope program)).
Definition h : FunctionNode :=
  mkFunctionNode ArrowFunctionExpression 1
    [mkSlot Identifier (Some "a") (9, 10)]
    [mkSlot Identifier (Some "a") (13, 14)]
    None 19 h_scope.
End ArrowSelfDefault.

(** * Properties *)

(** ** Fresh names *)

Lemma string_length_app (a b : string) :
  String.length (a +:+ b) = (String.length a + String.length b)%nat.
Proof. induction a as [|x a IH]; simpl; [done|]. by rewrite IH. Qed.

Lemma genName_inj name : Inj (=) (=) (genName name).
Proof.
  intros a b H. unfold genName in H.
  apply (inj (String.app name)) in H.
  apply (inj (String.app "$")) in H.
  by apply (inj pretty) in H.
Qed.

Lemma genName_ne_base name cnt : genName name cnt ≠ name.
Proof.
  intros H. apply (f_equal String.length) in H.
  unfold genName in H. rewrite !string_length_app in H. simpl in H. lia.
Qed.

Lemma accepts_false all f g :
  accepts all f g = false -> g ∈ all ∪ filter_set f.
Proof.
  unfold accepts, filter_set. intros H.
  apply andb_false_iff in H as [H|H].
  - apply bool_decide_eq_false in H. apply dec_stable in H. set_solver.
  - destruct f as [fs|]; [|done]. simpl.
    apply bool_decide_eq_false in H. apply dec_stable in H. set_solver.
Qed.

Lemma accepts_true all f g :
  accepts all f g = true -> (g ∉ all) ∧ (∀ fs, f = Some fs -> g ∉ fs).
Proof.
  unfold accepts. intros H. apply andb_true_iff in H as [H1 H2].
  apply bool_decide_eq_true in H1. split; [done|].
  intros fs ->. by apply bool_decide_eq_true in H2.
Qed.

(** What the loop returns: the first accepted candidate from [cnt] on. *)
Lemma unique_loop_Some budget all f name cnt g :
  unique_loop budget all f name cnt = Some g ->
  ∃ k : nat, (k < budget)%nat ∧ g = genName name (cnt + N.of_nat k)
    ∧ accepts all f g = true
    ∧ ∀ j : nat, (j < k)%nat -> accepts all f (genName name (cnt + N.of_nat j)) = false.
Proof.
  revert cnt. induction budget as [|b IH]; intros cnt H; simpl in H; [done|].
  destruct (accepts all f (genName name cnt)) eqn:Ha.
  - inversion H; subst g. exists O. rewrite N.add_0_r.
      repeat split; [lia|done|]. intros j Hj. lia.
  - apply IH in H as (k & Hk & -> & Hacc & Hlt).
    exists (S k). replace (cnt + N.of_nat (S k))%N with (cnt + 1 + N.of_nat k)%N by lia.
    repeat split; [lia|done|].
    intros [|j] Hj.
    + by rewrite N.add_0_r.
    + replace (cnt + N.of_nat (S j))%N with (cnt + 1 + N.of_nat j)%N by lia.
      apply Hlt. lia.
Qed.

Lemma unique_loop_None budget all f name cnt :
  unique_loop budget all f name cnt = None ->
  ∀ k : nat, (k < budget)%nat -> accepts all f (genName name (cnt + N.of_nat k)) = false.
Proof.
  revert cnt. induction budget as [|b IH]; intros cnt H k Hk; [lia|].
  simpl in H. destruct (accepts all f (genName name cnt)) eqn:Ha; [done|].
  destruct k as [|k].
  - by rewrite N.add_0_r.
  - replace (cnt + N.of_nat (S k))%N with (cnt + 1 + N.of_nat k)%N by lia.
    apply IH; [done|lia].
Qed.

(** The budget given by [unique] is never exhausted: the candidates are
    pairwise different, so they cannot all sit in the finite registry. *)
Lemma unique_loop_budget all f name :
  is_Some (unique_loop (S (size all + filter_size f)) all f name 0).
Proof.
  destruct (unique_loop _ all f name 0) as [g|] eqn:H; [by eexists|exfalso].
  pose proof (unique_loop_None _ _ _ _ _ H) as Hrej.
  set (b := S (size all + filter_size f)) in *.
  set (cands := (λ k : nat, genName name (0 + N.of_nat k)) <$> seq 0 b).
  assert (Hnd : NoDup cands).
  { apply NoDup_fmap_2_strong; [|apply NoDup_seq].
    intros x y _ _ Hxy. apply genName_inj in Hxy. lia. }
  assert (Hsub : (list_to_set cands : gset string) ⊆ all ∪ filter_set f).
  { intros g Hg. apply elem_of_list_to_set in Hg.
    apply list_elem_of_fmap in Hg as (k & -> & Hk).
    apply elem_of_seq in Hk. apply accepts_false, Hrej. lia. }
  apply subseteq_size in Hsub.
  rewrite size_list_to_set in Hsub by done.
  unfold cands in Hsub. rewrite length_fmap, length_seq in Hsub.
  rewrite size_union_alt in Hsub.
  assert (size (filter_set f ∖ all) ≤ filter_size f)%nat.
  { etrans; [apply subseteq_size; apply subseteq_difference_l; reflexivity|].
    destruct f; simpl; [done|]. change (size (∅ : gset string) ≤ 0)%nat.
    by rewrite size_empty. }
  unfold b in Hsub. lia.
Qed.

Lemma unique_Ok name newVariable f c g c' :
  unique name newVariable f c = Ok (g, c') ->
  ∃ n : N, g = genName name n
    ∧ accepts (allIdentifiers c) f g = true
    ∧ (∀ m : N, (m < n)%N -> accepts (allIdentifiers c) f (genName name m) = false)
    ∧ allIdentifiers c' =
        (if newVariable then allIdentifiers c ∪ {[g]} else allIdentifiers c).
Proof.
  unfold unique. intros H.
  destruct (assert _) as [[]|]; unfold res_bind in H; [|done].
  destruct (unique_loop _ _ f name 0) as [g0|] eqn:Hl; [|done].
  apply unique_loop_Some in Hl as (k & _ & -> & Hacc & Hlt).
  exists (N.of_nat k). rewrite N.add_0_l in *.
  assert (g = genName name (N.of_nat k) ∧ allIdentifiers c' =
    if newVariable then allIdentifiers c ∪ {[g]} else allIdentifiers c) as [-> Hc].
  { destruct newVariable; inversion H; subst; done. }
  repeat split; [done| |done].
  intros m Hm. specialize (Hlt (N.to_nat m)).
  rewrite N.add_0_l, N2Nat.id in Hlt. apply Hlt. lia.
Qed.

Lemma unique_returns name newVariable f c :
  newVariable = true ∨ name ∈ allIdentifiers c ->
  ∃ g c', unique name newVariable f c = Ok (g, c').
Proof.
  intros Hpre. unfold unique.
  assert (assert (newVariable || bool_decide (name ∈ allIdentifiers c)) = Ok tt) as ->.
  { destruct Hpre as [->|Hin]; [done|].
    rewrite (bool_decide_eq_true_2 _ Hin), orb_true_r. done. }
  unfold res_bind. destruct (unique_loop_budget (allIdentifiers c) f name) as [g ->].
  destruct newVariable; eauto.
Qed.

(** C10.  [unique] either fails its assertion (non-declaring request for a
    name the registry does not hold) or returns [name + "$" + n] for the
    least [n >= 0] whose suffixed name is neither in the registry nor in the
    additional filter; the bare [name] itself is never returned. *)
Theorem unique_least_suffix (name : string) (newVariable : bool)
    (additionalFilter : option (gset string)) (c : Core) :
  (newVariable = false ∧ (name ∉ allIdentifiers c)
     ∧ unique name newVariable additionalFilter c = Err AssertionError)
  ∨ (∃ (n : N) (c' : Core),
       unique name newVariable additionalFilter c
         = Ok (name +:+ "$" +:+ pretty n, c')
       ∧ (name +:+ "$" +:+ pretty n ∉ allIdentifiers c)
       ∧ (∀ fs, additionalFilter = Some fs -> name +:+ "$" +:+ pretty n ∉ fs)
       ∧ (∀ m : N, (m < n)%N ->
            name +:+ "$" +:+ pretty m ∈ allIdentifiers c
            ∨ ∃ fs, additionalFilter = Some fs ∧ name +:+ "$" +:+ pretty m ∈ fs)
       ∧ name +:+ "$" +:+ pretty n ≠ name).
Proof.
  destruct newVariable eqn:Hnv.
  - right. destruct (unique_returns name true additionalFilter c) as (g & c' & Hu);
      [by left|].
    pose proof (unique_Ok _ _ _ _ _ _ Hu) as (n & -> & Hacc & Hlt & _).
    apply accepts_true in Hacc as [Hreg Hfil].
    exists n, c'. repeat split; [done|done|done| |apply genName_ne_base].
    intros m Hm. specialize (Hlt m Hm). apply accepts_false in Hlt.
    apply elem_of_union in Hlt as [?|Hf]; [by left|right].
    destruct additionalFilter as [fs|]; [by exists fs|]. by apply elem_of_empty in Hf.
  - destruct (decide (name ∈ allIdentifiers c)) as [Hin|Hnin].
    + right. destruct (unique_returns name false additionalFilter c) as (g & c' & Hu);
        [by right|].
      pose proof (unique_Ok _ _ _ _ _ _ Hu) as (n & -> & Hacc & Hlt & _).
      apply accepts_true in Hacc as [Hreg Hfil].
      exists n, c'. repeat split; [done|done|done| |apply genName_ne_base].
      intros m Hm. specialize (Hlt m Hm). apply accepts_false in Hlt.
      apply elem_of_union in Hlt as [?|Hf]; [by left|right].
      destruct additionalFilter as [fs|]; [by exists fs|]. by apply elem_of_empty in Hf.
    + left. repeat split; [done|]. unfold unique.
      by rewrite (bool_decide_eq_false_2 _ Hnin).
Qed.

(** A run only grows the registry, and everything it mints is in the registry
    afterwards. *)
Lemma run_op_grows op c ev c1 :
  run_op op c = Ok (ev, c1) ->
  allIdentifiers c ⊆ allIdentifiers c1
  ∧ ∀ g reg, (g, reg) ∈ ev -> reg = allIdentifiers c ∧ (g ∉ reg) ∧ g ∈ allIdentifiers c1.
Proof.
  destruct op as [name nv f|name|names]; simpl.
  - destruct (unique name nv f c) as [[g c']|] eqn:Hu; [|done].
    intros [= <- <-]. apply unique_Ok in Hu as (n & -> & Hacc & _ & Hreg).
    apply accepts_true in Hacc as [Hnin _]. rewrite Hreg.
    destruct nv; (split; [set_solver|]); intros g reg Hin.
    + apply list_elem_of_singleton in Hin as [= -> ->]. set_solver.
    + by apply elem_of_nil in Hin.
  - intros [= <- <-]. simpl. split; [set_solver|]. intros ?? Hin.
    by apply elem_of_nil in Hin.
  - intros [= <- <-]. simpl. split; [set_solver|]. intros ?? Hin.
    by apply elem_of_nil in Hin.
Qed.

Lemma run_op_at_most_one op c ev c1 :
  run_op op c = Ok (ev, c1) -> NoDup ev.*1.
Proof.
  destruct op as [name nv f|name|names]; simpl.
  - destruct (unique name nv f c) as [[g c']|]; [|done].
    intros [= <- <-]. destruct nv; simpl; [apply NoDup_singleton|apply NoDup_nil_2].
  - intros [= <- <-]. apply NoDup_nil_2.
  - intros [= <- <-]. apply NoDup_nil_2.
Qed.

Lemma run_ops_invariant ops c evs c' :
  run_ops ops c = Ok (evs, c') ->
  allIdentifiers c ⊆ allIdentifiers c'
  ∧ (∀ g reg, (g, reg) ∈ evs ->
       allIdentifiers c ⊆ reg ∧ (g ∉ reg) ∧ g ∈ allIdentifiers c')
  ∧ NoDup evs.*1.
Proof.
  revert c evs c'. induction ops as [|op rest IH]; intros c evs c' H; simpl in H.
  - inversion H; subst. split; [done|]. split; [|apply NoDup_nil_2].
    intros ?? Hin. by apply elem_of_nil in Hin.
  - destruct (run_op op c) as [[ev c1]|] eqn:Hop; [|done].
    destruct (run_ops rest c1) as [[evs1 c2]|] eqn:Hrest; [|done].
    inversion H; subst. clear H.
    pose proof (run_op_grows _ _ _ _ Hop) as [Hg1 Hev].
    pose proof (run_op_at_most_one _ _ _ _ Hop) as Hnd1.
    apply IH in Hrest as (Hg2 & Hevs & Hnd2).
    split; [set_solver|]. split.
    + intros g reg Hin. apply elem_of_app in Hin as [Hin|Hin].
      * apply Hev in Hin as (-> & ? & ?). set_solver.
      * apply Hevs in Hin as (? & ? & ?). set_solver.
    + rewrite fmap_app. apply NoDup_app. split; [done|]. split; [|done].
      intros g Hin1 Hin2.
      apply list_elem_of_fmap in Hin1 as ([g1 r1] & -> & Hin1).
      apply list_elem_of_fmap in Hin2 as ([g2 r2] & Heq & Hin2). simpl in Heq. subst g2.
      apply Hev in Hin1 as (_ & _ & Hin1).
      apply Hevs in Hin2 as (Hsub & Hnot & _). set_solver.
Qed.

(** C4.  Along any run of registry operations of one unit, the identifiers
    minted by [unique] with the declaring flag are pairwise different, and
    each of them was absent from the registry at the time it was minted. *)
Theorem unique_minted_distinct (ops : list RegistryOp) (c c' : Core)
    (minted : list (string * gset string)) :
  run_ops ops c = Ok (minted, c') ->
  NoDup minted.*1
  ∧ ∀ g registry, (g, registry) ∈ minted ->
      (g ∉ registry) ∧ allIdentifiers c ⊆ registry.
Proof.
  intros H. apply run_ops_invariant in H as (_ & Hev & Hnd).
  split; [done|]. intros g reg Hin. apply Hev in Hin as (? & ? & _). done.
Qed.

Lemma unique_minted_distinct_witness :
  match run_ops [OpAdd "DP"; OpUnique "DP" true None; OpUnique "DP" true None;
                 OpUnique "DP" false None; OpUnique "super" true None] unit_start with
  | Ok (minted, _) =>
      minted.*1 = ["DP$0"; "DP$1"; "super$0"]
      ∧ NoDup minted.*1
      ∧ ∀ g registry, (g, registry) ∈ minted ->
          (g ∉ registry) ∧ allIdentifiers unit_start ⊆ registry
  | Err _ => False
  end.
Proof.
  destruct (run_ops _ unit_start) as [[minted c']|] eqn:E.
  - split.
    + vm_compute in E. injection E as <- _. reflexivity.
    + exact (unique_minted_distinct _ _ _ _ E).
  - vm_compute in E. discriminate E.
Defined.

(** ** Unit lifecycle *)

(** C9, as amended.  [reset] empties the registry and the shared-helper
    table.  [setup] does so only behind its init latch: when the latch is
    unset it resets and sets the latch, when it is set both tables are left
    as they are. *)
Theorem setup_resets_behind_latch (alter' : list Edit) (options' : Options)
    (c : Core) :
  allIdentifiers (reset c) = ∅
  ∧ bubbledVariables (reset c) = ∅
  ∧ __isInit (setup alter' options' c) = true
  ∧ (if __isInit c
     then allIdentifiers (setup alter' options' c) = allIdentifiers c
          ∧ bubbledVariables (setup alter' options' c) = bubbledVariables c
     else allIdentifiers (setup alter' options' c) = ∅
          ∧ bubbledVariables (setup alter' options' c) = ∅).
Proof.
  unfold setup. destruct (__isInit c) eqn:Hi; simpl; rewrite ?Hi; done.
Qed.

(** C9 as stated fails: the first unit is set up and mints [x$0]; the
    [setup] that starts the second unit leaves [x$0] in the registry. *)
Lemma setup_keeps_previous_unit :
  ∃ c1 : Core,
    unique "x" true None (setup [] (mkOptions false false) core0) = Ok ("x$0", c1)
    ∧ "x$0" ∈ allIdentifiers (setup [] (mkOptions false false) c1)
    ∧ allIdentifiers (setup [] (mkOptions false false) c1) ≠ ∅.
Proof.
  destruct (unique "x" true None (setup [] (mkOptions false false) core0))
    as [[g c1]|] eqn:E; [|by vm_compute in E].
  assert (g = "x$0" ∧ "x$0" ∈ allIdentifiers c1 ∧ __isInit c1 = true) as (-> & Hin & Hi).
  { vm_compute in E. inversion E; subst. by vm_compute. }
  exists c1. split; [done|].
  assert (allIdentifiers (setup [] (mkOptions false false) c1) = allIdentifiers c1) as ->.
  { unfold setup. by rewrite Hi. }
  split; [done|]. intros He. rewrite He in Hin. by apply elem_of_empty in Hin.
Qed.

(** ** Induction along parent chains *)

Lemma Scope_chain_ind (P : Scope -> Prop) :
  (∀ s, sparent s = None -> P s) ->
  (∀ s p, sparent s = Some p -> P p -> P s) ->
  ∀ s, P s.
Proof.
  intros Hroot Hstep. fix IH 1. intros [i k n [p|]].
  - apply (Hstep _ p); [reflexivity|apply IH].
  - by apply Hroot.
Qed.

Lemma Node_chain_ind (P : Node -> Prop) :
  (∀ n, nparent n = None -> P n) ->
  (∀ n p, nparent n = Some p -> P p -> P n) ->
  ∀ n, P n.
Proof.
  intros Hroot Hstep. fix IH 1.
  intros [i t nm r l c1 c2 c3 c4 c5 c6 c7 ps cp b [p|]].
  - apply (Hstep _ p); [reflexivity|apply IH].
  - by apply Hroot.
Qed.

Lemma Scope_lookup_unfold c s name :
  Scope_lookup c s name =
    if bool_decide (is_Some (decls_of c s !! name)) then Some s
    else match sparent s with
         | Some p => Scope_lookup c p name
         | None => None
         end.
Proof. by destruct s. Qed.

Lemma hasFunctionScopeBetween_unfold this outer :
  hasFunctionScopeBetween this outer =
    if same_scope this outer then Ok false
    else if isFunction (snode this) then Ok true
    else match sparent this with
         | Some p => hasFunctionScopeBetween p outer
         | None => Err AssertionError
         end.
Proof. by destruct this. Qed.

Lemma scopes_between_unfold this outer :
  scopes_between this outer =
    if same_scope this outer then []
    else this :: match sparent this with
                 | Some p => scopes_between p outer
                 | None => []
                 end.
Proof. by destruct this. Qed.

Lemma closure_walk_unfold n innermost loop :
  closure_walk n innermost loop =
    if same_node n innermost then true
    else if same_node n loop then false
    else match nparent n with
         | Some p => closure_walk p innermost loop
         | None => true
         end.
Proof. by destruct n. Qed.

Lemma ancestors_unfold n :
  ancestors n = n :: match nparent n with
                     | Some p => ancestors p
                     | None => []
                     end.
Proof. by destruct n. Qed.

Lemma same_scope_refl s : same_scope s s = true.
Proof. unfold same_scope. by apply bool_decide_eq_true. Qed.

(** ** Reference resolution *)

Lemma lookup_registry_irrelevant f c s name :
  Scope_lookup (set_allIdentifiers f c) s name = Scope_lookup c s name.
Proof.
  induction s as [s Hp|s p Hp IH] using Scope_chain_ind;
    rewrite !(Scope_lookup_unfold _ s), Hp; [done|].
  by rewrite IH.
Qed.

(** The declaring scope found by [lookup] is on the chain of the use, so the
    walk of [hasFunctionScopeBetween] ends, and it reports whether one of the
    scopes passed before the declaring scope is a function scope. *)
Lemma hasFunctionScopeBetween_lookup c s name d :
  Scope_lookup c s name = Some d ->
  hasFunctionScopeBetween s d
    = Ok (existsb (fun x => isFunction (snode x)) (scopes_between s d)).
Proof.
  induction s as [s Hp|s p Hp IH] using Scope_chain_ind;
    rewrite Scope_lookup_unfold, hasFunctionScopeBetween_unfold,
      scopes_between_unfold, Hp.
  - case_bool_decide; [|done]. intros [= <-]. by rewrite same_scope_refl.
  - case_bool_decide.
    + intros [= <-]. by rewrite same_scope_refl.
    + intros Hl. destruct (same_scope s d); [done|].
      simpl. destruct (isFunction (snode s)); [done|]. by apply IH.
Qed.

Lemma isConstLet_kind k :
  k = KLet ∨ k = KConst -> isConstLet (Some k) = true.
Proof. by intros [-> | ->]. Qed.

(** C1, as amended.  For a reference that resolves to a let or const
    declaration whose visible-from position lies after the position of the
    reference, [setupReferences] raises the use-before-declaration diagnostic
    if and only if no function scope is passed on the way from the scope of
    the use out to the declaring scope, and otherwise resolves the reference.
    The visible-from position is the end of the declared identifier:
    [x; let x = 1;] is rejected, and the reference in
    [function f(){ return x; } let x = 1; f();] is accepted. *)
Theorem setupReferences_use_before_declaration :
  (∀ (node : ANode) (c : Core) (scope : Scope) (kind : DeclKind)
     (allowedFromPos : Z),
     isReference node = Ok true ->
     Scope_lookup c (a_scope node) (nname node) = Some scope ->
     getKind c scope (nname node) = Some kind ->
     kind = KLet ∨ kind = KConst ->
     getFromPos c scope (nname node) = Some allowedFromPos ->
     fst (nrange node) < allowedFromPos ->
     (setupReferences node c
        = error (nline node) UseBeforeDeclarationError (nname node)
      ↔ ∀ s, s ∈ scopes_between (a_scope node) scope ->
             isFunction (snode s) = false)
     ∧ ((∃ s, s ∈ scopes_between (a_scope node) scope
              ∧ isFunction (snode s) = true) ->
        setupReferences node c
          = Ok (mkANode node (a_scope node) (Some scope),
                set_allIdentifiers (fun r => r ∪ {[nname node]}) c)))
  ∧ UseThenLet.resolved = error 1 UseBeforeDeclarationError "x"
  ∧ (∃ c, ClosureThenLet.resolved
          = Ok (mkANode ClosureThenLet.use_x ClosureThenLet.body_scope
                  (Some ClosureThenLet.scope), c)).
Proof.
  split; [|split; [by vm_compute|eexists; by vm_compute]].
  intros node c scope kind from Href Hl Hk Hkind Hfrom Hlt.
  assert (Hrun : setupReferences node c =
    if existsb (fun x => isFunction (snode x)) (scopes_between (a_scope node) scope)
    then Ok (mkANode node (a_scope node) (Some scope),
             set_allIdentifiers (fun r => r ∪ {[nname node]}) c)
    else error (nline node) UseBeforeDeclarationError (nname node)).
  { unfold setupReferences. rewrite Href. cbn [res_bind].
    rewrite lookup_registry_irrelevant, Hl. cbn [res_bind].
    change (getKind (set_allIdentifiers _ c) scope (nname node))
      with (getKind c scope (nname node)).
    change (getFromPos (set_allIdentifiers _ c) scope (nname node))
      with (getFromPos c scope (nname node)).
    rewrite Hk, (isConstLet_kind _ Hkind), Hfrom.
    rewrite (bool_decide_eq_true_2 _ Hlt).
    rewrite (hasFunctionScopeBetween_lookup _ _ _ _ Hl). cbn [res_bind].
    by destruct (existsb _ _). }
  rewrite Hrun. split.
  - destruct (existsb _ _) eqn:He.
    + split; [done|]. intros Hall. apply existsb_exists in He as (s & Hin & Hf).
      apply list_elem_of_In in Hin. rewrite (Hall s Hin) in Hf. done.
    + split; [|done]. intros _ s Hin. apply list_elem_of_In in Hin.
      destruct (isFunction (snode s)) eqn:Hf; [|done].
      assert (existsb (λ x, isFunction (snode x))
                (scopes_between (a_scope node) scope) = true) as Ht.
      { apply existsb_exists. eauto. }
      congruence.
  - intros (s & Hin & Hf). apply list_elem_of_In in Hin.
    assert (existsb (λ x, isFunction (snode x))
              (scopes_between (a_scope node) scope) = true) as ->; [|done].
    apply existsb_exists. eauto.
Qed.

Lemma setupReferences_use_before_declaration_witness :
  UseThenLet.built = Ok (tt, UseThenLet.core)
  ∧ (setupReferences UseThenLet.reference UseThenLet.core
       = error 1 UseBeforeDeclarationError "x"
     ↔ ∀ s, s ∈ scopes_between UseThenLet.scope UseThenLet.scope ->
            isFunction (snode s) = false).
Proof.
  split; [by vm_compute|].
  apply (proj1 setupReferences_use_before_declaration
           UseThenLet.reference UseThenLet.core UseThenLet.scope KLet 8).
  - by vm_compute.
  - by vm_compute.
  - by vm_compute.
  - by left.
  - by vm_compute.
  - simpl. lia.
Defined.

(** C1 as stated fails on [let x = x;]: [createScopes] makes [x] visible from
    the end of the declared identifier (offset 5), the initializer refers to
    it at offset 8, and [setupReferences] resolves the reference. *)
Lemma let_x_x_is_accepted :
  LetXX.built = Ok (tt, LetXX.core)
  ∧ getFromPos LetXX.core LetXX.scope "x" = Some 5
  ∧ fst (nrange LetXX.init_x) = 8
  ∧ ∃ c, LetXX.resolved
         = Ok (mkANode LetXX.init_x LetXX.scope (Some LetXX.scope), c).
Proof.
  split; [by vm_compute|]. split; [by vm_compute|]. split; [done|].
  eexists. by vm_compute.
Qed.

(** The body of a function is a [BlockStatement] like any other for
    [isNonFunctionBlock]. *)
Lemma function_body_is_block_scope :
  isNonFunctionBlock ClosureThenLet.body = true
  ∧ nparent ClosureThenLet.body = Some ClosureThenLet.f
  ∧ isFunction ClosureThenLet.f = true.
Proof. by vm_compute. Qed.

(** ** Writes to const *)

Lemma isReference_write_target (node : ANode) (parent : Node) :
  bool_decide (ntype node = Identifier) || bool_decide (is_Some (a_refToScope node))
    = true ->
  nparent node = Some parent ->
  ntype parent = AssignmentExpression ∨ ntype parent = UpdateExpression ->
  isReference node = Ok true.
Proof.
  intros Hid Hp Ht. unfold isReference.
  destruct (a_refToScope node); [done|].
  rewrite orb_false_r in Hid. rewrite Hid, Hp. cbn [negb].
  unfold isFunction. destruct Ht as [-> | ->]; reflexivity.
Qed.

(** C7.  An identifier that is the left side of an assignment expression or
    the operand of an update expression, and that resolves to a declaration
    of kind const, makes [detectConstAssignment] raise the const-reassignment
    diagnostic. *)
Theorem detectConstAssignment_rejects (node : ANode) (parent : Node) (c : Core)
    (scope : Scope) :
  ntype node = Identifier ->
  nparent node = Some parent ->
  (ntype parent = AssignmentExpression ∧ c_left parent = Some (nid node))
  ∨ (ntype parent = UpdateExpression ∧ c_argument parent = Some (nid node)) ->
  Scope_lookup c (a_scope node) (nname node) = Some scope ->
  getKind c scope (nname node) = Some KConst ->
  detectConstAssignment node c
    = error (nline node) ConstReassignmentError (nname node).
Proof.
  intros Hid Hp Hslot Hl Hk. unfold detectConstAssignment, isLvalue.
  rewrite (isReference_write_target node parent); cycle 1.
  { by rewrite (bool_decide_eq_true_2 _ Hid). }
  { done. }
  { destruct Hslot as [[? _]|[? _]]; auto. }
  cbn [res_bind]. rewrite Hp. cbn [res_bind].
  assert (bool_decide (ntype parent = AssignmentExpression)
            && is_child (c_left parent) node
          || bool_decide (ntype parent = UpdateExpression)
            && is_child (c_argument parent) node = true) as ->.
  { unfold is_child. rewrite orb_true_iff, !andb_true_iff, !bool_decide_eq_true.
    tauto. }
  rewrite Hl, Hk. by rewrite bool_decide_eq_true_2.
Qed.

Lemma detectConstAssignment_rejects_witness :
  ConstWrite.built = Ok (tt, ConstWrite.core)
  ∧ detectConstAssignment ConstWrite.target ConstWrite.core
      = error 1 ConstReassignmentError "c".
Proof.
  split; [by vm_compute|].
  apply (detectConstAssignment_rejects ConstWrite.target ConstWrite.assignment
           ConstWrite.core ConstWrite.scope).
  - reflexivity.
  - reflexivity.
  - left. split; reflexivity.
  - by vm_compute.
  - by vm_compute.
Defined.

(** ** Closures in loops *)

Lemma closure_walk_false n innermost loop :
  closure_walk n innermost loop = false <-> loop_reached_first n loop innermost.
Proof.
  unfold loop_reached_first.
  induction n as [n Hp|n p Hp IH] using Node_chain_ind;
    rewrite closure_walk_unfold, ancestors_unfold, Hp.
  - destruct (same_node n innermost) eqn:Hf.
    + split; [done|]. intros (pre & l & post & Heq & Hl & Hnf & Hpre).
      destruct pre as [|x pre]; simpl in Heq; injection Heq as <- Heq;
        [congruence|by destruct pre].
    + destruct (same_node n loop) eqn:Hl.
      * split; [|done]. intros _. exists [], n, []. split_and!; [done..|].
        intros x Hx. by apply elem_of_nil in Hx.
      * split; [done|]. intros (pre & l & post & Heq & Hl' & Hnf & Hpre).
        destruct pre as [|x pre]; simpl in Heq; injection Heq as <- Heq;
          [congruence|by destruct pre].
  - destruct (same_node n innermost) eqn:Hf.
    + split; [done|]. intros (pre & l & post & Heq & Hl & Hnf & Hpre).
      destruct pre as [|x pre]; simpl in Heq; injection Heq as <- Heq;
        [congruence|].
      destruct (Hpre n) as [Hc _]; [left|congruence].
    + destruct (same_node n loop) eqn:Hl.
      * split; [|done]. intros _. exists [], n, (ancestors p).
        split_and!; [done..|]. intros x Hx. by apply elem_of_nil in Hx.
      * rewrite IH. split.
        -- intros (pre & l & post & Heq & Hl' & Hnf & Hpre).
           exists (n :: pre), l, post. rewrite Heq. split_and!; [done..|].
           intros x Hx. apply elem_of_cons in Hx as [->|Hx]; auto.
        -- intros (pre & l & post & Heq & Hl' & Hnf & Hpre).
           destruct pre as [|x pre]; simpl in Heq; injection Heq as <- Heq;
             [congruence|].
           exists pre, l, post. split_and!; [done..|].
           intros y Hy. apply Hpre. by right.
Qed.

Lemma closure_walk_function_first n innermost loop :
  function_reached_first n loop innermost -> closure_walk n innermost loop = true.
Proof.
  unfold function_reached_first.
  induction n as [n Hp|n p Hp IH] using Node_chain_ind;
    rewrite closure_walk_unfold, ancestors_unfold, Hp;
    intros (pre & f & post & Heq & Hf & Hpre).
  - destruct pre as [|x pre]; simpl in Heq; injection Heq as <- Heq;
      [by rewrite Hf|by destruct pre].
  - destruct pre as [|x pre]; simpl in Heq; injection Heq as <- Heq;
      [by rewrite Hf|].
    destruct (Hpre n) as [-> ->]; [left|].
    apply IH. exists pre, f, post. split_and!; [done..|].
    intros y Hy. apply Hpre. by right.
Qed.

(** C2.  Inside a function inside a loop (the outermost loop is set and the
    stack of entered functions is not empty), a reference to a let or const
    binding makes [detectLoopClosuresPre] raise the loop-closure diagnostic
    exactly when the walk from the declaring node up its ancestors meets the
    outermost loop before the innermost entered function; when the innermost
    function is met first, nothing is raised and the state is unchanged. *)
Theorem detectLoopClosuresPre_loop_before_function (node : ANode) (c : Core)
    (loop innermost : Node) (scope : Scope) :
  outermostLoop c = Some loop ->
  last (functions c) = Some innermost ->
  ntype node = Identifier ->
  a_refToScope node = Some scope ->
  isConstLet (getKind c scope (nname node)) = true ->
  (detectLoopClosuresPre node c
     = error (nline node) UnsupportedLoopClosureError (nname node)
   <-> loop_reached_first (snode scope) loop innermost)
  ∧ (function_reached_first (snode scope) loop innermost ->
     detectLoopClosuresPre node c = Ok (tt, c)).
Proof.
  intros Hloop Hfun Hid Href Hkind.
  assert (Hrun : detectLoopClosuresPre node c =
    if closure_walk (snode scope) innermost loop then Ok (tt, c)
    else error (nline node) UnsupportedLoopClosureError (nname node)).
  { unfold detectLoopClosuresPre. rewrite Hloop. cbn [bool_decide andb].
    rewrite bool_decide_eq_false_2 by done. cbn [andb]. rewrite Hloop.
    unfold isFunction. rewrite Hid. cbn [bool_decide orb].
    rewrite !bool_decide_eq_false_2 by done. cbn [orb]. rewrite Hfun.
    unfold isReference. rewrite Href. cbn [res_bind]. by rewrite Hkind. }
  rewrite Hrun. split.
  - rewrite <- closure_walk_false.
    destruct (closure_walk _ _ _); split; done.
  - intros H. by rewrite (closure_walk_function_first _ _ _ H).
Qed.

Lemma detectLoopClosuresPre_loop_before_function_witness :
  LoopClosure.visited = Ok (tt, LoopClosure.core)
  ∧ outermostLoop LoopClosure.core = Some LoopClosure.for_stmt
  ∧ functions LoopClosure.core = [LoopClosure.closure]
  ∧ (detectLoopClosuresPre LoopClosure.reference LoopClosure.core
       = error 1 UnsupportedLoopClosureError "i"
     <-> loop_reached_first LoopClosure.for_stmt LoopClosure.for_stmt
           LoopClosure.closure).
Proof.
  split; [by vm_compute|]. split; [by vm_compute|]. split; [by vm_compute|].
  apply (detectLoopClosuresPre_loop_before_function LoopClosure.reference
           LoopClosure.core LoopClosure.for_stmt LoopClosure.closure
           LoopClosure.for_scope).
  - by vm_compute.
  - by vm_compute.
  - reflexivity.
  - reflexivity.
  - by vm_compute.
Defined.

(** The two situations on concrete programs: the loop variable captured by
    a closure is rejected, a binding local to the closure is accepted. *)
Lemma loop_closure_examples :
  detectLoopClosuresPre LoopClosure.reference LoopClosure.core
    = error 1 UnsupportedLoopClosureError "i"
  ∧ LocalCapture.visited = Ok (tt, LocalCapture.core)
  ∧ detectLoopClosuresPre LocalCapture.reference LocalCapture.core
    = Ok (tt, LocalCapture.core).
Proof. split; [by vm_compute|]. split; by vm_compute. Qed.

(** ** Common hoisting-scope ancestor *)

Lemma closestHoistScope_unfold s :
  closestHoistScope s =
    if bool_decide (skind s = Hoist) then Ok s
    else match sparent s with
         | Some p => closestHoistScope p
         | None => Err TypeError
         end.
Proof. by destruct s. Qed.

Lemma closestHoistScope_no_budget s : closestHoistScope s ≠ Err LoopBudget.
Proof.
  induction s as [s Hp|s p Hp IH] using Scope_chain_ind;
    rewrite closestHoistScope_unfold, Hp; by case_bool_decide.
Qed.

(** The budget of the inner loop is never exhausted. *)
Lemma for_loop_budget budget uniquePathId i w :
  (Z.to_nat (w_scopesLength w - i) <= budget)%nat ->
  for_loop budget uniquePathId i w ≠ Err LoopBudget.
Proof.
  revert i w. induction budget as [|b IH]; intros i w Hb; simpl.
  - case_bool_decide; [lia|done].
  - case_bool_decide; [|done].
    destruct (w_scopes w !! Z.to_nat i) as [scope|]; [|done].
    pose proof (closestHoistScope_no_budget scope) as Hh.
    destruct (closestHoistScope scope) as [h|e]; simpl; [|congruence].
    case_bool_decide; [done|].
    destruct (if same_scope h scope then sparent scope else Some scope);
      apply IH; simpl; lia.
Qed.

Lemma hoist_entries_no_budget scopes : hoist_entries scopes ≠ Err LoopBudget.
Proof.
  induction scopes as [|s rest IH]; simpl; [done|].
  pose proof (closestHoistScope_no_budget s) as Hs.
  destruct (closestHoistScope s) as [h|e]; simpl; [|congruence].
  case_bool_decide; [done|].
  destruct (hoist_entries rest) as [[p|l]|e]; simpl; congruence.
Qed.

Lemma while_loop_no_budget rounds uniquePathId w :
  while_loop rounds uniquePathId w ≠ Err LoopBudget.
Proof.
  revert w. induction rounds as [|r IH]; intros w; simpl.
  - destruct (w_parentScope w); [done|]. by case_bool_decide.
  - destruct (w_parentScope w); [done|]. case_bool_decide; [done|].
    pose proof (for_loop_budget (Z.to_nat (w_scopesLength w)) uniquePathId 0 w) as Hf.
    destruct (for_loop _ _ 0 w) as [w'|e]; simpl; [apply IH|].
    intros [= ->]. apply Hf; [lia|done].
Qed.

(** The walk of [findParentForScopes] always comes to an end: it returns a
    scope or raises, and never runs out of the budget of the model. *)
Lemma findParentForScopes_terminates arguments c :
  findParentForScopes arguments c ≠ Err LoopBudget.
Proof.
  unfold findParentForScopes, assert. destruct (negb _); [|done].
  cbn [res_bind]. pose proof (hoist_entries_no_budget arguments) as Hh.
  destruct (hoist_entries arguments) as [[p|l]|e]; cbn [res_bind];
    [done| |congruence].
  pose proof (while_loop_no_budget 999 (UUID c)
                (mkWalk None (Z.of_nat (length arguments)) l (scopePath c))) as Hw.
  destruct (while_loop _ _ _) as [w|e]; cbn [res_bind]; [|congruence].
  by destruct (w_parentScope w).
Qed.

Lemma closestHoistScope_kind s h :
  closestHoistScope s = Ok h -> skind h = Hoist.
Proof.
  induction s as [s Hp|s p Hp IH] using Scope_chain_ind;
    rewrite closestHoistScope_unfold, Hp; case_bool_decide; try done.
  - by intros [= <-].
  - by intros [= <-].
Qed.

Lemma hoist_entries_program scopes p :
  hoist_entries scopes = Ok (inl p) -> skind p = Hoist.
Proof.
  induction scopes as [|s rest IH]; simpl; [done|].
  destruct (closestHoistScope s) as [h|] eqn:Hh; simpl; [|done].
  apply closestHoistScope_kind in Hh. case_bool_decide.
  - by intros [= <-].
  - destruct (hoist_entries rest) as [[q|l]|]; simpl; [|done..].
    intros [= <-]. by apply IH.
Qed.

Lemma for_loop_found budget uniquePathId i w w' :
  found_is_hoist w ->
  for_loop budget uniquePathId i w = Ok w' -> found_is_hoist w'.
Proof.
  revert i w. induction budget as [|b IH]; intros i w Hw; simpl.
  - case_bool_decide; [done|]. by intros [= <-].
  - case_bool_decide; [|by intros [= <-]].
    destruct (w_scopes w !! Z.to_nat i) as [scope|]; [|done].
    destruct (closestHoistScope scope) as [h|] eqn:Hh; simpl; [|done].
    apply closestHoistScope_kind in Hh. case_bool_decide.
    + intros [= <-]. intros p [= <-]. done.
    + destruct (if same_scope h scope then sparent scope else Some scope);
        apply IH; intros p; done.
Qed.

Lemma while_loop_found rounds uniquePathId w w' :
  found_is_hoist w ->
  while_loop rounds uniquePathId w = Ok w' -> found_is_hoist w'.
Proof.
  revert w. induction rounds as [|r IH]; intros w Hw; simpl.
  - destruct (w_parentScope w); [by intros [= <-]|].
    case_bool_decide; by intros [= <-].
  - destruct (w_parentScope w) eqn:Hp; [by intros [= <-]|].
    case_bool_decide; [by intros [= <-]|].
    destruct (for_loop _ _ 0 w) as [w1|] eqn:Hf; simpl; [|done].
    apply IH. by apply (for_loop_found _ _ _ _ _ Hw Hf).
Qed.

(** What [findParentForScopes] returns is a hoisting scope. *)
Lemma findParentForScopes_returns_hoist arguments c s c' :
  findParentForScopes arguments c = Ok (s, c') -> skind s = Hoist.
Proof.
  unfold findParentForScopes, assert. destruct (negb _); [|done].
  cbn [res_bind].
  destruct (hoist_entries arguments) as [[p|l]|] eqn:Hh; cbn [res_bind]; [| |done].
  - intros [= <- _]. by apply (hoist_entries_program arguments).
  - destruct (while_loop _ _ _) as [w|] eqn:Hw; cbn [res_bind]; [|done].
    apply while_loop_found in Hw; [|by intros p].
    destruct (w_parentScope w) as [p|] eqn:Hp; [|done].
    intros [= <- _]. by apply Hw.
Qed.

(** When one of the arguments lives directly in the program, the program
    scope is returned. *)
Lemma findParentForScopes_program :
  ∃ c', findParentForScopes [TwoClasses.f_scope; TwoClasses.scope] TwoClasses.core
        = Ok (TwoClasses.scope, c').
Proof. eexists. by vm_compute. Qed.

(** C5, at the inputs where it fails.  The helper was requested from [f]
    (nested in [g]) and from [a]; both are functions of one program, whose
    only common hoisting scope is the program scope.  Asked for [f] and [a],
    [findParentForScopes] returns the scope of [g], which does not enclose
    [a]; asked for [a] and [f], it raises an assertion failure. *)
Theorem findParentForScopes_misses_common_ancestor :
  encloses TwoClasses.scope TwoClasses.f_scope = true
  ∧ encloses TwoClasses.scope TwoClasses.a_scope' = true
  ∧ (∃ c', findParentForScopes [TwoClasses.f_scope; TwoClasses.a_scope']
             TwoClasses.core = Ok (TwoClasses.g_scope, c'))
  ∧ encloses TwoClasses.g_scope TwoClasses.a_scope' = false
  ∧ findParentForScopes [TwoClasses.a_scope'; TwoClasses.f_scope] TwoClasses.core
    = Err AssertionError.
Proof.
  split; [by vm_compute|]. split; [by vm_compute|].
  split; [eexists; by vm_compute|]. split; by vm_compute.
Qed.

(** [findParentForScopes] touches only the [$__path] marks and the counter. *)
Lemma findParentForScopes_frame arguments c s c' :
  findParentForScopes arguments c = Ok (s, c') ->
  bubbledVariables c' = bubbledVariables c ∧ alter c' = alter c
  ∧ inactiveOptions c' = inactiveOptions c ∧ nextOptions c' = nextOptions c
  ∧ allIdentifiers c' = allIdentifiers c ∧ scopeDecls c' = scopeDecls c.
Proof.
  unfold findParentForScopes. intros H.
  destruct (assert _) as [[]|]; [|done]. cbn [res_bind] in H.
  destruct (hoist_entries arguments) as [[p|l]|]; cbn [res_bind] in H; [| |done].
  - by inversion H.
  - destruct (while_loop _ _ _) as [w|]; cbn [res_bind] in H; [|done].
    destruct (w_parentScope w); [|done]. by inversion H.
Qed.

(** The assertion failure does not depend on block scopes lying between the
    hoisting scopes: with [f] nested directly in [g], the order (f, a) finds
    the program scope, the order (a, f) still fails. *)
Lemma findParentForScopes_direct_nesting :
  (∃ c', findParentForScopes [DirectNesting.f_scope; TwoClasses.a_scope']
           TwoClasses.core = Ok (TwoClasses.scope, c'))
  ∧ findParentForScopes [TwoClasses.a_scope'; DirectNesting.f_scope]
      TwoClasses.core = Err AssertionError.
Proof. split; [eexists; by vm_compute|by vm_compute]. Qed.

(** ** Shared helper declarations *)

Lemma bind_Ok {A B} (m : M A) (k : A -> M B) c b c' :
  bind m k c = Ok (b, c') -> ∃ a c1, m c = Ok (a, c1) ∧ k a c1 = Ok (b, c').
Proof.
  unfold bind. destruct (m c) as [[a c1]|]; [|done]. intros H. by exists a, c1.
Qed.

Lemma lift_Ok {A} (r : Res A) c a c' :
  lift r c = Ok (a, c') -> r = Ok a ∧ c' = c.
Proof. unfold lift. destruct r; [|done]. by intros [= -> ->]. Qed.

Lemma Scope_add_frame scope name kind node from origin c u c' :
  Scope_add scope name kind node from origin c = Ok (u, c') ->
  bubbledVariables c' = bubbledVariables c ∧ alter c' = alter c
  ∧ inactiveOptions c' = inactiveOptions c ∧ nextOptions c' = nextOptions c
  ∧ allIdentifiers c' = allIdentifiers c.
Proof.
  unfold Scope_add. destruct (match kind with KVar => _ | _ => _ end);
    cbn [res_bind]; [|done]. by intros [= <- <-].
Qed.

Lemma unique_frame name nv f c g c' :
  unique name nv f c = Ok (g, c') ->
  bubbledVariables c' = bubbledVariables c ∧ alter c' = alter c
  ∧ inactiveOptions c' = inactiveOptions c ∧ nextOptions c' = nextOptions c
  ∧ scopeDecls c' = scopeDecls c.
Proof.
  unfold unique. destruct (assert _) as [[]|]; cbn [res_bind]; [|done].
  destruct (unique_loop _ _ _ _ _); [|done].
  destruct nv; by intros [= <- <-].
Qed.

(** The part of an installation shared by the first request and a rebase. *)
Lemma install_effect scope (bv : BubbledVariable) c name c' :
  (createScopeVariableDeclaration scope KVar (bv_name bv) ;>
   let text :=
     if bv_isFunction bv
     then "function " +:+ bv_name bv +:+ bv_value bv
     else "var " +:+ bv_name bv +:+ " = " +:+ bv_value bv +:+ ";" in
   begin <~ lift (__getNodeBegin (snode scope)) ;
   alter_insert begin text (bv_changesOptions bv) ;>
   ret (bv_name bv))%core c = Ok (name, c') ->
  name = bv_name bv
  ∧ bubbledVariables c' = bubbledVariables c
  ∧ nextOptions c' = nextOptions c
  ∧ inactiveOptions c' = inactiveOptions c
  ∧ ∃ pos text, alter c' = alter c ++ [mkEdit pos text (bv_changesOptions bv)].
Proof.
  intros H.
  apply bind_Ok in H as ([] & c1 & Hadd & H).
  unfold createScopeVariableDeclaration in Hadd.
  apply Scope_add_frame in Hadd as (Hb & Ha & Hi & Hn & _).
  apply bind_Ok in H as (begin & c2 & Hbegin & H).
  apply lift_Ok in Hbegin as [_ ->].
  apply bind_Ok in H as ([] & c3 & Hins & H).
  unfold alter_insert, modify in Hins. inversion Hins; subst c3. clear Hins.
  unfold ret in H. inversion H; subst. cbn.
  rewrite Hb, Ha, Hi, Hn. split_and!; [done..|]. by eexists _, _.
Qed.

(** What one installation does to the helper table and to the edit sink. *)
Lemma createBubbledVariableDeclaration_effect scope key init isF obv c name c' :
  __createBubbledVariableDeclaration scope key init isF obv c = Ok (name, c') ->
  ∃ bv' pos text,
    bubbledVariables c' = <[key := bv']> (bubbledVariables c)
    ∧ bv_name bv' = name
    ∧ bv_changesOptions bv' = nextOptions c
    ∧ nextOptions c' = S (nextOptions c)
    ∧ inactiveOptions c' = inactiveOptions c
    ∧ alter c' = alter c ++ [mkEdit pos text (nextOptions c)]
    ∧ match obv with
      | Some bv => bv_name bv' = bv_name bv ∧ bv_value bv' = bv_value bv
      | None => bv_value bv' = init
      end.
Proof.
  unfold __createBubbledVariableDeclaration. intros H.
  apply bind_Ok in H as (bv' & c1 & Hbv & H).
  apply install_effect in H as (-> & Hb & Hn & Hi & pos & text & Ha).
  exists bv', pos, text.
  destruct obv as [bv|].
  - apply bind_Ok in Hbv as (h & c0 & Hnew & Hbv).
    unfold new_options in Hnew. inversion Hnew; subst h c0. clear Hnew.
    apply bind_Ok in Hbv as ([] & c2 & Hmod & Hret).
    unfold modify in Hmod. inversion Hmod; subst c2. clear Hmod.
    unfold ret in Hret. inversion Hret; subst bv' c1. clear Hret. cbn in *.
    rewrite Hb, Hn, Hi, Ha. split_and!; done.
  - apply bind_Ok in Hbv as (g & c0 & Hu & Hbv).
    apply unique_frame in Hu as (Hb0 & Ha0 & Hi0 & Hn0 & _).
    apply bind_Ok in Hbv as (h & c2 & Hnew & Hbv).
    unfold new_options in Hnew. inversion Hnew; subst h c2. clear Hnew.
    apply bind_Ok in Hbv as ([] & c3 & Hmod & Hret).
    unfold modify in Hmod. inversion Hmod; subst c3. clear Hmod.
    unfold ret in Hret. inversion Hret; subst bv' c1. clear Hret. cbn in *.
    rewrite Hb, Hn, Hi, Ha. cbn. rewrite Hb0, Ha0, Hi0, Hn0. split_and!; done.
Qed.

Lemma active_edits_snoc c c' pos text :
  handles_fresh c ->
  alter c' = alter c ++ [mkEdit pos text (nextOptions c)] ->
  inactiveOptions c' = inactiveOptions c ->
  active_edits c' = active_edits c ++ [mkEdit pos text (nextOptions c)].
Proof.
  intros [_ Hin] Ha Hi. unfold active_edits. rewrite Ha, Hi, filter_app.
  f_equal. rewrite filter_cons_True; [done|]. simpl.
  intros Hh. apply Hin in Hh. lia.
Qed.

Lemma handles_fresh_snoc c c' pos text :
  handles_fresh c ->
  alter c' = alter c ++ [mkEdit pos text (nextOptions c)] ->
  inactiveOptions c' = inactiveOptions c ->
  nextOptions c' = S (nextOptions c) ->
  handles_fresh c'.
Proof.
  intros [Ha Hi] Hal Hin Hn. split; rewrite Hn.
  - intros e He. rewrite Hal in He. apply elem_of_app in He as [He|He].
    + apply Ha in He. lia.
    + apply list_elem_of_singleton in He as ->. simpl. lia.
  - intros h Hh. rewrite Hin in Hh. apply Hi in Hh. lia.
Qed.

(** The first request installs the helper. *)
Lemma first_request_installs scope key init isF c name c' :
  pristine key c ->
  bubbledVariableDeclaration scope key init isF c = Ok (name, c') ->
  installed key init name c'.
Proof.
  intros (Hnone & Hempty & Hfresh) H. unfold bubbledVariableDeclaration in H.
  apply bind_Ok in H as (hoist & c0 & Hh & H). apply lift_Ok in Hh as [_ ->].
  apply bind_Ok in H as (cc & c0 & Hg & H). unfold get in Hg.
  inversion Hg; subst cc c0. clear Hg.
  unfold __isBubbledVariableDeclaration in H. rewrite Hnone in H.
  apply createBubbledVariableDeclaration_effect in H
    as (bv' & pos & text & Hb & Hname & Hopt & Hn & Hi & Ha & Hval).
  exists bv', (mkEdit pos text (nextOptions c)).
  rewrite Hb, lookup_insert_eq. split_and!; [done..| |done|].
  - rewrite (active_edits_snoc c c' pos text) by done.
    unfold active_edits. by rewrite Hempty.
  - by apply (handles_fresh_snoc c c' pos text).
Qed.

(** A later request returns the same identifier; when it rebases, the edit
    in force so far is deactivated and the new one is the only one left. *)
Lemma later_request_agrees scope key init isF name c name' c' :
  installed key init name c ->
  bubbledVariableDeclaration scope key init isF c = Ok (name', c') ->
  name' = name ∧ installed key init name c'.
Proof.
  intros (bv & e & Hbv & Hval & Hname & Hact & Hopt & Hfresh) H.
  pose proof Hfresh as [Hfa Hfi].
  unfold bubbledVariableDeclaration in H.
  apply bind_Ok in H as (hoist & c0 & Hh & H). apply lift_Ok in Hh as [_ ->].
  apply bind_Ok in H as (cc & c0 & Hg & H). unfold get in Hg.
  inversion Hg; subst cc c0. clear Hg.
  unfold __isBubbledVariableDeclaration in H. rewrite Hbv in H.
  rewrite (bool_decide_eq_true_2 _ Hval) in H.
  destruct (Scope_lookup c hoist (bv_name bv)).
  - unfold ret in H. inversion H; subst. split; [done|]. by exists bv, e.
  - apply bind_Ok in H as (target & c1 & Hfind & H).
    apply findParentForScopes_frame in Hfind as (Hb1 & Ha1 & Hi1 & Hn1 & _).
    unfold __rebaseBubbledVariableDeclaration in H. rewrite Hb1, Hbv in H.
    apply createBubbledVariableDeclaration_effect in H
      as (bv' & pos & text & Hb & Hname' & Hopt' & Hn & Hi & Ha & Hn' & Hv').
    cbn in Hb, Hopt', Hn, Hi, Ha. rewrite Hb1 in Hb.
    rewrite Ha1 in Ha. rewrite Hi1 in Hi. rewrite Hn1 in Hopt', Hn, Ha.
    split; [congruence|].
    assert (He : e ∈ alter c).
    { assert (e ∈ active_edits c) as Hin by (rewrite Hact; left).
      unfold active_edits in Hin. by apply list_elem_of_filter in Hin as [_ ?]. }
    exists bv', (mkEdit pos text (nextOptions c)).
    rewrite Hb, lookup_insert_eq. split_and!; [done|congruence|congruence| |done|].
    + unfold active_edits. rewrite Ha, Hi, filter_app.
      rewrite filter_cons_True, filter_nil; cycle 1.
      { simpl. intros Hh. apply elem_of_union in Hh as [Hh|Hh].
        - apply Hfi in Hh. lia.
        - apply elem_of_singleton in Hh. apply Hfa in He. lia. }
      assert (filter (λ e0, e_options e0 ∉ inactiveOptions c ∪ {[bv_changesOptions bv]})
                (alter c) = []) as ->; [|done].
      assert (filter (λ e0, e_options e0 ∉ inactiveOptions c ∪ {[bv_changesOptions bv]})
                (alter c)
              = filter (λ e0, e_options e0 ≠ bv_changesOptions bv) (active_edits c))
        as ->.
      { unfold active_edits. rewrite list_filter_filter.
        apply list_filter_iff. intros x. set_solver. }
      rewrite Hact. rewrite filter_cons_False; [done|]. simpl. intros Hne.
      by apply Hne.
    + split; rewrite Hn.
      * intros x Hx. rewrite Ha in Hx. apply elem_of_app in Hx as [Hx|Hx].
        -- apply Hfa in Hx. lia.
        -- apply list_elem_of_singleton in Hx as ->. simpl. lia.
      * intros h Hh. rewrite Hi in Hh. apply elem_of_union in Hh as [Hh|Hh].
        -- apply Hfi in Hh. lia.
        -- apply elem_of_singleton in Hh as ->. rewrite <- Hopt.
           apply Hfa in He. lia.
Qed.

Lemma run_requests_installed scopes key init isF name c names c' :
  installed key init name c ->
  run_requests scopes key init isF c = Ok (names, c') ->
  (∀ n, n ∈ names -> n = name) ∧ installed key init name c'.
Proof.
  revert c names. induction scopes as [|scope rest IH]; intros c names Hinst H;
    simpl in H.
  - inversion H; subst. split; [|done]. intros n Hn. by apply elem_of_nil in Hn.
  - destruct (bubbledVariableDeclaration scope key init isF c) as [[n1 c1]|] eqn:H1;
      [|done].
    destruct (run_requests rest key init isF c1) as [[ns c2]|] eqn:H2; [|done].
    inversion H; subst. clear H.
    apply (later_request_agrees _ _ _ _ name) in H1 as [-> Hinst1]; [|done].
    apply IH in H2 as [Hall Hinst2]; [|done]. split; [|done].
    intros n Hn. apply elem_of_cons in Hn as [->|Hn]; auto.
Qed.

(** Requests for one helper that all return: they return one identifier, and
    afterwards exactly one installation edit is in force. *)
Lemma run_requests_agree scope scopes key init isF c names c' :
  pristine key c ->
  run_requests (scope :: scopes) key init isF c = Ok (names, c') ->
  ∃ name, (∀ n, n ∈ names -> n = name) ∧ installed key init name c'
          ∧ length (active_edits c') = 1%nat.
Proof.
  intros Hp H. simpl in H.
  destruct (bubbledVariableDeclaration scope key init isF c) as [[n1 c1]|] eqn:H1;
    [|done].
  destruct (run_requests scopes key init isF c1) as [[ns c2]|] eqn:H2; [|done].
  inversion H; subst. clear H.
  apply first_request_installs in H1; [|done].
  apply (run_requests_installed _ _ _ _ n1) in H2 as [Hall Hinst]; [|done].
  exists n1. split_and!; [|done|].
  - intros n Hn. apply elem_of_cons in Hn as [->|Hn]; auto.
  - destruct Hinst as (bv & e & _ & _ & _ & -> & _). done.
Qed.

(** C3, at the input where it fails.  In
    [function g() { function f() { class Y {} } } function a() { class X {} }]
    the helper "DP" is requested for [class Y] and then for [class X] with the
    same initializer.  The first request returns [DP$0]; the second one does
    not return an identifier: the rebase asks [findParentForScopes] for the
    scopes of [a] and [f], which raises an assertion failure. *)
Theorem second_helper_request_aborts :
  TwoClasses.built = Ok (tt, TwoClasses.core)
  ∧ TwoClasses.first_request = Ok ("DP$0", TwoClasses.after_first)
  ∧ bv_scope <$> bubbledVariables TwoClasses.after_first !! "DP"
    = Some TwoClasses.f_scope
  ∧ closestHoistScope TwoClasses.a_body_scope = Ok TwoClasses.a_scope'
  ∧ Scope_lookup TwoClasses.after_first TwoClasses.a_scope' "DP$0" = None
  ∧ findParentForScopes [TwoClasses.a_scope'; TwoClasses.f_scope]
      TwoClasses.after_first = Err AssertionError
  ∧ TwoClasses.second_request = Err AssertionError.
Proof. split_and!; by vm_compute. Qed.

(** ** Class lowering *)

Lemma string_app_assoc (a b c : string) : (a +:+ b) +:+ c = a +:+ b +:+ c.
Proof. induction a as [|x a IH]; [done|]. unfold String.app in *. simpl. by rewrite IH. Qed.

(** The wiring text.  Whenever the request for the property-definition helper
    returns its identifier [dp], [createPrototypeString] returns a text that
    ends with [dp(className, "prototype", {"configurable": false,
    "enumerable": false, "writable": false});]; it fails only when that
    request fails.  Whether [dp] is bound where the text is inserted is
    another matter, see below. *)
Theorem createPrototypeString_ends_with_freeze (node : ANode)
    (className : string) (superName : option string)
    (accessors : list (string * Accessor)) (c : Core) :
  match createPrototypeString node className superName accessors c with
  | Ok (text, c') =>
      ∃ dp prefix : string,
        bubbledVariableDeclaration (a_scope node) "DP" "Object.defineProperty"
          false c = Ok (dp, c')
        ∧ text = prefix +:+ dp +:+ "(" +:+ className +:+ ", "
                 +:+ quoted "prototype" +:+ ", {"
                 +:+ quoted "configurable" +:+ ": false, "
                 +:+ quoted "enumerable" +:+ ": false, "
                 +:+ quoted "writable" +:+ ": false});"
  | Err e =>
      bubbledVariableDeclaration (a_scope node) "DP" "Object.defineProperty"
        false c = Err e
  end.
Proof.
  unfold createPrototypeString, bind at 1.
  destruct (bubbledVariableDeclaration _ _ _ _ c) as [[dp c']|e]; [|done].
  destruct (truthy superName).
  - unfold ret. eexists dp, _. split; [done|].
    rewrite <- !string_app_assoc. unfold freezePrototypeString.
    rewrite <- !string_app_assoc. reflexivity.
  - destruct (truthy (Some _)).
    + unfold ret. eexists dp, _. split; [done|].
      unfold freezePrototypeString.
      rewrite <- !string_app_assoc. reflexivity.
    + unfold ret. exists dp, "". split; [done|]. reflexivity.
Qed.

(** A class without superclass and without accessors: the wiring text is the
    freeze call alone. *)
Lemma createPrototypeString_plain_class :
  ∃ c', createPrototypeString
          (mkANode TwoClasses.class_Y TwoClasses.f_body_scope None) "Y" None []
          TwoClasses.core
        = Ok ("DP$0(Y, " +:+ quoted "prototype" +:+ ", {"
              +:+ quoted "configurable" +:+ ": false, "
              +:+ quoted "enumerable" +:+ ": false, "
              +:+ quoted "writable" +:+ ": false});", c').
Proof. eexists. by vm_compute. Qed.

(** C6, at the input where it fails.  In
    [function g() { function f() { class Y {} } } function a() { class X {} }]
    the wiring text of [class X] is synthesized first, that of [class Y]
    second.  Both texts are the freeze call through [DP$0].  After the first,
    [DP$0] is declared by an edit at 59, inside [a].  The request made for
    [class Y] rebases the helper: [findParentForScopes], asked for [f] and
    [a], answers with the scope of [g]; the edit at 59 is deactivated and the
    only declaration in force is the one inserted at 14, inside [g], which
    does not enclose [class X].  The freeze call of [X] is left without a
    binding for [DP$0]: the prototype slot of [X] is not frozen. *)
Theorem freeze_call_left_unbound :
  FreezeOrder.lower_X
    = Ok (freezePrototypeString "DP$0" "X", FreezeOrder.after_X)
  ∧ active_edits FreezeOrder.after_X
    = [mkEdit 59 "var DP$0 = Object.defineProperty;" 0]
  ∧ FreezeOrder.lower_Y
    = Ok (freezePrototypeString "DP$0" "Y", FreezeOrder.after_Y)
  ∧ (∃ c', findParentForScopes [TwoClasses.f_scope; TwoClasses.a_scope']
             FreezeOrder.after_X = Ok (TwoClasses.g_scope, c'))
  ∧ alter FreezeOrder.after_Y
    = [mkEdit 59 "var DP$0 = Object.defineProperty;" 0;
       mkEdit 14 "var DP$0 = Object.defineProperty;" 1]
  ∧ elements (inactiveOptions FreezeOrder.after_Y) = [0%nat]
  ∧ active_edits FreezeOrder.after_Y
    = [mkEdit 14 "var DP$0 = Object.defineProperty;" 1]
  ∧ bv_scope <$> bubbledVariables FreezeOrder.after_Y !! "DP"
    = Some TwoClasses.g_scope
  ∧ encloses TwoClasses.g_scope TwoClasses.a_body_scope = false
  ∧ fst (nrange TwoClasses.g) <= 14 < snd (nrange TwoClasses.g)
  ∧ snd (nrange TwoClasses.g) <= fst (nrange TwoClasses.class_X).
Proof.
  split_and!; try (by vm_compute); try (eexists; by vm_compute).
Qed.

(** ** Parameter lowering *)


Section ParameterLoweringFacts.
Variable unwrapDestructuring : string -> Slot -> string -> string.
Variable stringFromSrc : Slot -> string.



End ParameterLoweringFacts.


(** [function f(a = a){}] is rejected with the name of the parameter. *)
Lemma self_default_example :
  functionDestructuringAndDefaultsAndRest (fun _ _ _ => "") (fun _ => "a")
    SelfDefault.f [] unit_start
  = Err (Diagnostic SelfReferentialDefaultError 1 "a").
Proof. by vm_compute. Qed.


(** * Further properties of the code *)

(** ** Names by token *)



(** X2.  A name obtained from [unique] without the declaring flag is not
    reserved: the state is unchanged, and a declaring request for the same
    base and filter made next returns the very same identifier. *)
Theorem unique_not_reserved (name : string)
    (additionalFilter : option (gset string)) (c c' : Core) (g : string) :
  unique name false additionalFilter c = Ok (g, c') ->
  c' = c
  ∧ unique name true additionalFilter c
    = Ok (g, set_allIdentifiers (fun s => s ∪ {[g]}) c).
Proof.
  unfold unique. intros H.
  destruct (assert (false || _)) as [[]|]; cbn [res_bind] in H; [|done].
  cbn [orb assert res_bind].
  destruct (unique_loop _ _ _ _ _) as [g0|]; [|done].
  by inversion H.
Qed.

Lemma unique_not_reserved_witness :
  ∃ c, unique "x" false None c = Ok ("x$0", c)
       ∧ unique "x" true None c
         = Ok ("x$0", set_allIdentifiers (fun s => s ∪ {["x$0"]}) c).
Proof.
  exists (set_allIdentifiers (fun s => s ∪ {["x"]}) unit_start).
  assert (E : unique "x" false None (set_allIdentifiers (fun s => s ∪ {["x"]}) unit_start)
              = Ok ("x$0", set_allIdentifiers (fun s => s ∪ {["x"]}) unit_start))
    by (by vm_compute).
  split; [exact E|]. exact (proj2 (unique_not_reserved _ _ _ _ _ E)).
Defined.

(** ** Common hoisting-scope ancestor, continued *)

Lemma hoist_entries_inl scopes p :
  hoist_entries scopes = Ok (inl p) ->
  ∃ s, s ∈ scopes ∧ closestHoistScope s = Ok p ∧ ntype (snode p) = Program.
Proof.
  induction scopes as [|s rest IH]; simpl; [done|].
  destruct (closestHoistScope s) as [h|] eqn:Hh; simpl; [|done].
  case_bool_decide as Hprog.
  - intros [= <-]. exists s. split; [left|done].
  - destruct (hoist_entries rest) as [[q|l]|]; simpl; [|done..].
    intros [= <-]. destruct IH as (s' & Hin & Hc & Ht); [done|].
    exists s'. split; [by right|done].
Qed.

Lemma hoist_entries_finds_program scopes s p :
  s ∈ scopes ->
  closestHoistScope s = Ok p ->
  ntype (snode p) = Program ->
  (∀ x, x ∈ scopes -> ∃ h, closestHoistScope x = Ok h) ->
  ∃ p', hoist_entries scopes = Ok (inl p').
Proof.
  induction scopes as [|x rest IH]; intros Hin Hc Ht Hall; [by apply elem_of_nil in Hin|].
  simpl. destruct (Hall x) as (h & Hh); [left|]. rewrite Hh. simpl.
  case_bool_decide as Hprog; [by eexists|].
  apply elem_of_cons in Hin as [->|Hin]; [congruence|].
  destruct IH as (p' & ->); [done..| |by eexists].
  intros y Hy. apply Hall. by right.
Qed.

(** X3.  Whatever [findParentForScopes] returns is a hoisting scope. *)
Theorem findParentForScopes_result_is_hoisting (arguments : list Scope)
    (c c' : Core) (s : Scope) :
  findParentForScopes arguments c = Ok (s, c') -> skind s = Hoist.
Proof. apply findParentForScopes_returns_hoist. Qed.

Lemma findParentForScopes_result_is_hoisting_witness :
  ∃ s c', findParentForScopes [TwoClasses.g_scope; TwoClasses.a_scope']
            TwoClasses.core = Ok (s, c')
          ∧ sid s = 1%nat ∧ skind s = Hoist.
Proof.
  destruct (findParentForScopes [TwoClasses.g_scope; TwoClasses.a_scope']
              TwoClasses.core) as [[s c']|] eqn:E; [|by vm_compute in E].
  exists s, c'. split; [done|]. split.
  - vm_compute in E. by inversion E.
  - exact (findParentForScopes_result_is_hoisting _ _ _ _ E).
Defined.

(** X4.  When the closest hoisting scope of one of the arguments is owned by
    the program node (and every argument has a hoisting scope), the first
    loop returns at once: the result is a hoisting scope owned by the program
    node, the closest one of some argument, and the state is left as it
    was: no scope is marked and the path counter is not advanced. *)
Theorem findParentForScopes_program_shortcut (arguments : list Scope)
    (c : Core) (s p : Scope) :
  s ∈ arguments ->
  closestHoistScope s = Ok p ->
  ntype (snode p) = Program ->
  (∀ x, x ∈ arguments -> ∃ h, closestHoistScope x = Ok h) ->
  ∃ p' s',
    findParentForScopes arguments c = Ok (p', c)
    ∧ s' ∈ arguments ∧ closestHoistScope s' = Ok p'
    ∧ ntype (snode p') = Program.
Proof.
  intros Hin Hc Ht Hall.
  destruct (hoist_entries_finds_program arguments s p) as (p' & Hp'); [done..|].
  destruct (hoist_entries_inl _ _ Hp') as (s' & Hin' & Hc' & Ht').
  exists p', s'. split; [|done].
  unfold findParentForScopes, assert.
  destruct arguments as [|a rest]; [by apply elem_of_nil in Hin|].
  rewrite bool_decide_eq_false_2 by (simpl; lia). cbn [negb res_bind].
  by rewrite Hp'.
Qed.

Lemma findParentForScopes_program_shortcut_witness :
  ∃ p' s',
    findParentForScopes [TwoClasses.f_scope; TwoClasses.scope] TwoClasses.core
      = Ok (p', TwoClasses.core)
    ∧ s' ∈ [TwoClasses.f_scope; TwoClasses.scope]
    ∧ closestHoistScope s' = Ok p'
    ∧ ntype (snode p') = Program.
Proof.
  apply (findParentForScopes_program_shortcut _ _ TwoClasses.scope TwoClasses.scope).
  - right. left.
  - reflexivity.
  - reflexivity.
  - intros x Hx. apply elem_of_cons in Hx as [->|Hx].
    + by eexists.
    + apply list_elem_of_singleton in Hx as ->. by eexists.
Defined.

(** X5.  [findParentForScopes] only marks scopes and advances its path
    counter: the registry, the helper table, the edits, their option objects
    and the declarations of the scopes are what they were. *)
Theorem findParentForScopes_only_marks (arguments : list Scope) (c c' : Core)
    (s : Scope) :
  findParentForScopes arguments c = Ok (s, c') ->
  allIdentifiers c' = allIdentifiers c
  ∧ bubbledVariables c' = bubbledVariables c
  ∧ alter c' = alter c
  ∧ inactiveOptions c' = inactiveOptions c
  ∧ nextOptions c' = nextOptions c
  ∧ scopeDecls c' = scopeDecls c.
Proof.
  intros H. apply findParentForScopes_frame in H as (? & ? & ? & ? & ? & ?).
  done.
Qed.

Lemma findParentForScopes_only_marks_witness :
  ∃ c', findParentForScopes [TwoClasses.f_scope; TwoClasses.g_scope]
          TwoClasses.core = Ok (TwoClasses.g_scope, c')
        ∧ UUID c' = 2%N
        ∧ scopeDecls c' = scopeDecls TwoClasses.core.
Proof.
  destruct (findParentForScopes [TwoClasses.f_scope; TwoClasses.g_scope]
              TwoClasses.core) as [[s c']|] eqn:E; [|by vm_compute in E].
  assert (s = TwoClasses.g_scope ∧ UUID c' = 2%N) as [-> Hu].
  { vm_compute in E. by inversion E. }
  exists c'. split; [done|]. split; [done|].
  exact (proj2 (proj2 (proj2 (proj2 (proj2
           (findParentForScopes_only_marks _ _ _ _ E)))))).
Defined.

(** X6.  The walk of [findParentForScopes] always comes to an end.  Every
    pass of the inner loop lowers [scopesLength - i] by one (an entry is
    either advanced, with [++i], or removed, with [scopesLength--] and [i]
    kept), and the outer loop is capped, so the function returns a scope or
    raises; the iteration budget of the model is never what stops it. *)
Theorem findParentForScopes_walk_ends (arguments : list Scope) (c : Core) :
  findParentForScopes arguments c ≠ Err LoopBudget
  ∧ ∀ uniquePathId i w,
      for_loop (Z.to_nat (w_scopesLength w - i)) uniquePathId i w
      ≠ Err LoopBudget.
Proof.
  split; [apply findParentForScopes_terminates|].
  intros id i w. by apply for_loop_budget.
Qed.

(** ** Closures in loops, continued *)

Lemma isLoop_not_function (node : Node) : isLoop node = true -> isFunction node = false.
Proof.
  unfold isLoop, isFunction. destruct (ntype node); cbn; done.
Qed.

Lemma set_loopState_id c : set_loopState (outermostLoop c) (functions c) c = c.
Proof. by destruct c. Qed.

Lemma set_loopState_twice l fs l' fs' c :
  set_loopState l fs (set_loopState l' fs' c) = set_loopState l fs c.
Proof. done. Qed.

Lemma removelast_snoc {A} (l : list A) (x : A) : removelast (l ++ [x]) = l.
Proof.
  induction l as [|y l IH]; [done|]. simpl. rewrite IH.
  by destruct (l ++ [x]) eqn:E; [destruct l|].
Qed.

Lemma same_node_refl_anode (n : ANode) : same_node n n = true.
Proof. unfold same_node. by apply bool_decide_eq_true. Qed.

(** X7.  Leaving a node undoes entering it.  In a state where no function is
    tracked while no loop is active, and for a node other than the active
    loop, a [detectLoopClosuresPre] that returns followed by
    [detectLoopClosuresPost] on the same node gives back the state the
    traversal came with. *)
Theorem detectLoopClosures_pre_post (node : ANode) (c c1 c2 : Core) :
  (outermostLoop c = None -> functions c = []) ->
  (∀ loop, outermostLoop c = Some loop -> same_node loop node = false) ->
  detectLoopClosuresPre node c = Ok (tt, c1) ->
  detectLoopClosuresPost node c1 = Ok (tt, c2) ->
  c2 = c.
Proof.
  intros Hinv Hne Hpre Hpost. unfold detectLoopClosuresPre in Hpre.
  unfold detectLoopClosuresPost in Hpost.
  destruct (outermostLoop c) as [loop|] eqn:Hl.
  - cbn [bool_decide andb] in Hpre.
    rewrite bool_decide_eq_false_2 in Hpre by done. cbn [andb] in Hpre.
    rewrite Hl in Hpre. specialize (Hne loop eq_refl).
    assert (Hc1 : c1 = if isFunction node
                       then set_loopState (Some loop) (functions c ++ [anode node]) c
                       else c).
    { destruct (isFunction node).
      - destruct (last _); [|by inversion Hpre].
        destruct (isReference node) as [[]|]; cbn [res_bind] in Hpre; [| |done].
        + destruct (a_refToScope node); [|done].
          destruct (isConstLet _); [|by inversion Hpre].
          destruct (closure_walk _ _ _); [by inversion Hpre|done].
        + by inversion Hpre.
      - destruct (last _); [|by inversion Hpre].
        destruct (isReference node) as [[]|]; cbn [res_bind] in Hpre; [| |done].
        + destruct (a_refToScope node); [|done].
          destruct (isConstLet _); [|by inversion Hpre].
          destruct (closure_walk _ _ _); [by inversion Hpre|done].
        + by inversion Hpre. }
    inversion Hpost; subst c2. clear Hpost Hpre.
    destruct (isFunction node); subst c1.
    + cbn [outermostLoop functions set_loopState]. rewrite Hne, removelast_snoc.
      change (set_loopState (Some loop) (functions c)
                (set_loopState (Some loop) (functions c ++ [anode node]) c) = c).
      rewrite set_loopState_twice, <- Hl. apply set_loopState_id.
    + rewrite Hl, Hne. rewrite <- Hl. apply set_loopState_id.
  - specialize (Hinv eq_refl). rewrite bool_decide_eq_true_2 in Hpre by done.
    cbn [andb] in Hpre. destruct (isLoop node) eqn:Hloop.
    + cbn in Hpre. rewrite (isLoop_not_function _ Hloop), Hinv in Hpre.
      cbn in Hpre. inversion Hpre; subst c1. clear Hpre.
      inversion Hpost; subst c2. clear Hpost.
      rewrite same_node_refl_anode, (isLoop_not_function _ Hloop).
      rewrite set_loopState_twice, <- Hinv, <- Hl. apply set_loopState_id.
    + rewrite Hl in Hpre. inversion Hpre; subst c1. clear Hpre.
      inversion Hpost; subst c2. rewrite Hl, Hinv.
      assert ((if isFunction node then removelast [] else []) = @nil Node) as ->
        by (by destruct (isFunction node)).
      rewrite <- Hinv, <- Hl. apply set_loopState_id.
Qed.

Lemma detectLoopClosures_pre_post_witness :
  ∃ c1,
    detectLoopClosuresPre (mkANode LoopClosure.for_stmt LoopClosure.for_scope None)
      (state_after LoopClosure.built) = Ok (tt, c1)
    ∧ outermostLoop c1 = Some LoopClosure.for_stmt
    ∧ detectLoopClosuresPost
        (mkANode LoopClosure.for_stmt LoopClosure.for_scope None) c1
      = Ok (tt, state_after LoopClosure.built).
Proof.
  destruct (detectLoopClosuresPre
              (mkANode LoopClosure.for_stmt LoopClosure.for_scope None)
              (state_after LoopClosure.built)) as [[[] c1]|] eqn:Hpre;
    [|by vm_compute in Hpre].
  exists c1. split; [done|]. split.
  - vm_compute in Hpre. by inversion Hpre.
  - destruct (detectLoopClosuresPost
                (mkANode LoopClosure.for_stmt LoopClosure.for_scope None) c1)
      as [[[] c2]|] eqn:Hpost; [|by unfold detectLoopClosuresPost in Hpost].
    f_equal. f_equal.
    apply (detectLoopClosures_pre_post
             (mkANode LoopClosure.for_stmt LoopClosure.for_scope None)
             (state_after LoopClosure.built) c1 c2).
    + intros _. by vm_compute.
    + intros loop Hl. by vm_compute in Hl.
    + exact Hpre.
    + exact Hpost.
Defined.

(** X8.  Nothing is rejected outside a closure in a loop.  When no loop is
    active and the node is not a loop, [detectLoopClosuresPre] returns and
    changes nothing; when no function has been entered and the node is not a
    function, it returns whatever the node refers to. *)
Theorem detectLoopClosuresPre_quiet (node : ANode) (c : Core) :
  (outermostLoop c = None ∧ isLoop node = false ->
   detectLoopClosuresPre node c = Ok (tt, c))
  ∧ (functions c = [] ∧ isFunction node = false ->
     ∃ c', detectLoopClosuresPre node c = Ok (tt, c')).
Proof.
  split.
  - intros [Hl Hn]. unfold detectLoopClosuresPre. by rewrite Hn, andb_false_r, Hl.
  - intros [Hf Hn]. unfold detectLoopClosuresPre. rewrite Hn.
    destruct (bool_decide (outermostLoop c = None) && isLoop node).
    + cbn. rewrite Hf. by eexists.
    + destruct (outermostLoop c); [|by eexists]. rewrite Hf. by eexists.
Qed.

Lemma getKind_loopState l fs c scope name :
  getKind (set_loopState l fs c) scope name = getKind c scope name.
Proof. done. Qed.

(** X9.  A reference that resolves to a binding that is neither let nor
    const (var, function, parameter, caught, or no declaration in the
    resolved scope) never raises the loop-closure diagnostic:
    [detectLoopClosuresPre] returns. *)
Theorem detectLoopClosuresPre_only_let_const (node : ANode) (c : Core)
    (scope : Scope) :
  a_refToScope node = Some scope ->
  isConstLet (getKind c scope (nname node)) = false ->
  ∃ c', detectLoopClosuresPre node c = Ok (tt, c').
Proof.
  intros Href Hk. unfold detectLoopClosuresPre.
  set (c1 := if bool_decide (outermostLoop c = None) && isLoop node
             then set_loopState (Some (anode node)) (functions c) c else c).
  assert (Hk1 : ∀ l fs, isConstLet (getKind (set_loopState l fs c1) scope (nname node))
                        = false).
  { intros l fs. rewrite getKind_loopState. unfold c1.
    destruct (_ && _); [by rewrite getKind_loopState|done]. }
  assert (Hk1' : isConstLet (getKind c1 scope (nname node)) = false).
  { unfold c1. destruct (_ && _); [by rewrite getKind_loopState|done]. }
  destruct (outermostLoop c1); [|by eexists].
  destruct (isFunction node).
  - destruct (last _); [|by eexists].
    unfold isReference. rewrite Href. cbn [res_bind]. rewrite Hk1. by eexists.
  - destruct (last _); [|by eexists].
    unfold isReference. rewrite Href. cbn [res_bind]. rewrite Hk1'. by eexists.
Qed.

Lemma detectLoopClosuresPre_only_let_const_witness :
  ∃ c', detectLoopClosuresPre
          (mkANode LoopClosure.use_id LoopClosure.closure_body_scope (Some topScope))
          LoopClosure.core = Ok (tt, c').
Proof.
  apply (detectLoopClosuresPre_only_let_const _ _ topScope).
  - reflexivity.
  - by vm_compute.
Defined.

(** X10.  A reference that was left unresolved ([$refToScope] is [null], the
    name is declared nowhere) and is visited inside a function inside a loop
    makes [detectLoopClosuresPre] fail with a [TypeError]: the kind is asked
    of the missing scope. *)
Theorem detectLoopClosuresPre_unresolved_reference (node : ANode) (c : Core)
    (loop innermost : Node) :
  outermostLoop c = Some loop ->
  last (functions c) = Some innermost ->
  ntype node = Identifier ->
  isReference node = Ok true ->
  a_refToScope node = None ->
  detectLoopClosuresPre node c = Err TypeError.
Proof.
  intros Hloop Hfun Hid Href Hnone. unfold detectLoopClosuresPre.
  rewrite Hloop. cbn [bool_decide andb].
  rewrite bool_decide_eq_false_2 by done. cbn [andb]. rewrite Hloop.
  unfold isFunction. rewrite Hid. cbn [bool_decide orb].
  rewrite !bool_decide_eq_false_2 by done. cbn [orb]. rewrite Hfun.
  rewrite Href. cbn [res_bind]. by rewrite Hnone.
Qed.

Lemma detectLoopClosuresPre_unresolved_reference_witness :
  detectLoopClosuresPre
    (mkANode LoopClosure.use_id LoopClosure.closure_body_scope None)
    LoopClosure.core = Err TypeError.
Proof.
  apply (detectLoopClosuresPre_unresolved_reference _ _ LoopClosure.for_stmt
           LoopClosure.closure).
  - by vm_compute.
  - by vm_compute.
  - reflexivity.
  - by vm_compute.
  - reflexivity.
Defined.

(** ** References and const writes, continued *)

Lemma detectLoopClosuresPre_quiet_witness :
  detectLoopClosuresPre (mkANode LoopClosure.program LoopClosure.scope None)
    (state_after LoopClosure.built)
  = Ok (tt, state_after LoopClosure.built).
Proof.
  apply (proj1 (detectLoopClosuresPre_quiet _ _)). split; by vm_compute.
Defined.

Lemma isReference_error node e : isReference node = Err e -> e = TypeError.
Proof.
  unfold isReference. destruct (a_refToScope node); [done|].
  destruct (negb _); [done|]. destruct (nparent node); [done|]. by intros [= <-].
Qed.

Lemma isLvalue_error node e : isLvalue node = Err e -> e = TypeError.
Proof.
  unfold isLvalue. destruct (isReference node) as [[]|e'] eqn:Hr; cbn [res_bind].
  - destruct (nparent node); [done|]. by intros [= <-].
  - done.
  - intros [= <-]. by apply (isReference_error node).
Qed.

(** X11.  [detectConstAssignment] raises exactly for the write targets that
    resolve to a const: the diagnostic is raised if and only if the node is
    an lvalue and the scope found for its name declares the name const.  It
    raises no other diagnostic and never changes the state. *)
Theorem detectConstAssignment_exact (node : ANode) (c : Core) :
  (detectConstAssignment node c
     = error (nline node) ConstReassignmentError (nname node)
   <-> isLvalue node = Ok true
       ∧ ∃ scope, Scope_lookup c (a_scope node) (nname node) = Some scope
                  ∧ getKind c scope (nname node) = Some KConst)
  ∧ (∀ c1, detectConstAssignment node c = Ok (tt, c1) -> c1 = c)
  ∧ (∀ kind line subject,
       detectConstAssignment node c = Err (Diagnostic kind line subject) ->
       kind = ConstReassignmentError).
Proof.
  unfold detectConstAssignment.
  destruct (isLvalue node) as [[]|e] eqn:Hlv; cbn [res_bind].
  - destruct (Scope_lookup c (a_scope node) (nname node)) as [scope|].
    + case_bool_decide as Hk.
      * split; [|split; [done|]].
        -- split; [|done]. intros _. split; [done|]. by exists scope.
        -- intros k l s [= <- _ _]. done.
      * split; [|split; [by intros c1 [= <-]|done]].
        split; [done|]. intros (_ & s1 & [= <-] & Hk1). done.
    + split; [|split; [by intros c1 [= <-]|done]].
      split; [done|]. by intros (_ & s1 & [=] & _).
  - split; [|split; [by intros c1 [= <-]|done]].
    split; [done|]. by intros ([=] & _).
  - apply isLvalue_error in Hlv as ->.
    split; [|split; [done|done]]. split; [done|]. by intros ([=] & _).
Qed.

Lemma detectConstAssignment_exact_witness :
  detectConstAssignment ConstWrite.target ConstWrite.core
  = error 1 ConstReassignmentError "c".
Proof.
  apply (proj2 (proj1 (detectConstAssignment_exact ConstWrite.target
                         ConstWrite.core))).
  split; [by vm_compute|]. exists ConstWrite.scope. split; by vm_compute.
Defined.

(** X12.  A reference whose name no enclosing scope declares: with
    [disallowUnknownReferences] it raises the unknown-reference diagnostic;
    without, it is resolved to no scope and its name is added to the
    registry. *)
Theorem setupReferences_unknown (node : ANode) (c : Core) :
  isReference node = Ok true ->
  Scope_lookup c (a_scope node) (nname node) = None ->
  setupReferences node c =
    if disallowUnknownReferences (options c)
    then error (nline node) UnknownReferenceError (nname node)
    else Ok (mkANode node (a_scope node) None,
             set_allIdentifiers (fun r => r ∪ {[nname node]}) c).
Proof.
  intros Href Hl. unfold setupReferences. rewrite Href. cbn [res_bind].
  rewrite lookup_registry_irrelevant, Hl.
  change (options (set_allIdentifiers _ c)) with (options c).
  by destruct (disallowUnknownReferences (options c)).
Qed.

Lemma setupReferences_unknown_witness :
  setupReferences
    (mkANode LoopClosure.use_id LoopClosure.closure_body_scope None) unit_start
  = Ok (mkANode LoopClosure.use_id LoopClosure.closure_body_scope None,
        set_allIdentifiers (fun r => r ∪ {["use"]}) unit_start).
Proof.
  apply (setupReferences_unknown
           (mkANode LoopClosure.use_id LoopClosure.closure_body_scope None)
           unit_start); by vm_compute.
Defined.

Lemma setupReferences_Ok node c node1 c1 :
  setupReferences node c = Ok (node1, c1) ->
  (isReference node = Ok true
   ∧ allIdentifiers c1 = allIdentifiers c ∪ {[nname node]}
   ∧ node1 = mkANode node (a_scope node)
               (Scope_lookup c (a_scope node) (nname node)))
  ∨ (isReference node = Ok false ∧ c1 = c ∧ node1 = node).
Proof.
  unfold setupReferences. destruct (isReference node) as [[]|]; cbn [res_bind];
    [| |done].
  - rewrite lookup_registry_irrelevant.
    destruct (match Scope_lookup c (a_scope node) (nname node) with
              | Some _ => _ | None => _ end) as [[]|]; cbn [res_bind]; [|done].
    destruct (match Scope_lookup c (a_scope node) (nname node) with
              | Some scope => _ | None => _ end) as [[]|]; cbn [res_bind]; [|done].
    intros [= <- <-]. left. done.
  - intros [= <- <-]. by right.
Qed.

(** X13.  The registry covers the references: after [setupReferences] has
    resolved a reference, its name is in the registry, and in every later
    state (the registry only grows) no identifier returned by [unique]
    equals it. *)
Theorem referenced_name_is_never_minted (node node1 : ANode) (c c1 c2 c3 : Core)
    (name : string) (newVariable : bool)
    (additionalFilter : option (gset string)) (g : string) :
  isReference node = Ok true ->
  setupReferences node c = Ok (node1, c1) ->
  allIdentifiers c1 ⊆ allIdentifiers c2 ->
  unique name newVariable additionalFilter c2 = Ok (g, c3) ->
  nname node ∈ allIdentifiers c1 ∧ g ≠ nname node.
Proof.
  intros Href Hs Hsub Hu.
  apply setupReferences_Ok in Hs as [(_ & Hreg & _)|(Hf & _)]; [|congruence].
  assert (Hin : nname node ∈ allIdentifiers c1) by (rewrite Hreg; set_solver).
  split; [done|].
  apply unique_Ok in Hu as (n & -> & Hacc & _).
  apply accepts_true in Hacc as [Hnin _]. intros Heq. rewrite Heq in Hnin.
  apply Hnin, Hsub, Hin.
Qed.

Lemma referenced_name_is_never_minted_witness :
  match setupReferences DollarReference.reference unit_start with
  | Ok (_, c1) =>
      match unique "tmp" true None c1 with
      | Ok (g, _) => g = "tmp$1" ∧ "tmp$0" ∈ allIdentifiers c1 ∧ g ≠ "tmp$0"
      | Err _ => False
      end
  | Err _ => False
  end.
Proof.
  destruct (setupReferences DollarReference.reference unit_start)
    as [[n1 c1]|] eqn:Hs; [|by vm_compute in Hs].
  destruct (unique "tmp" true None c1) as [[g c3]|] eqn:Hu.
  - split.
    + vm_compute in Hs. inversion Hs; subst. vm_compute in Hu. by inversion Hu.
    + apply (referenced_name_is_never_minted DollarReference.reference n1
               unit_start c1 c1 c3 "tmp" true None g);
        [by vm_compute|done|done|done].
  - vm_compute in Hs. inversion Hs; subst. by vm_compute in Hu.
Defined.

(** X14.  The ordering check concerns let and const only, and only
    references placed before the visible-from position: a reference that
    resolves to a declaration of another kind, or to a let or const whose
    visible-from position is not after the reference, is resolved to the
    declaring scope whatever scopes lie between. *)
Theorem setupReferences_accepts (node : ANode) (c : Core) (scope : Scope) :
  isReference node = Ok true ->
  Scope_lookup c (a_scope node) (nname node) = Some scope ->
  isConstLet (getKind c scope (nname node)) = false
  ∨ (∃ allowedFromPos, getFromPos c scope (nname node) = Some allowedFromPos
                       ∧ allowedFromPos <= fst (nrange node)) ->
  setupReferences node c
  = Ok (mkANode node (a_scope node) (Some scope),
        set_allIdentifiers (fun r => r ∪ {[nname node]}) c).
Proof.
  intros Href Hl Hcase. unfold setupReferences. rewrite Href. cbn [res_bind].
  rewrite lookup_registry_irrelevant, Hl. cbn [res_bind].
  change (getKind (set_allIdentifiers _ c) scope (nname node))
    with (getKind c scope (nname node)).
  change (getFromPos (set_allIdentifiers _ c) scope (nname node))
    with (getFromPos c scope (nname node)).
  destruct Hcase as [Hk|(from & Hfrom & Hle)].
  - by rewrite Hk.
  - destruct (isConstLet _); [|done]. rewrite Hfrom.
    by rewrite bool_decide_eq_false_2 by lia.
Qed.

Lemma setupReferences_accepts_witness :
  setupReferences LetXX.reference LetXX.core
  = Ok (mkANode LetXX.init_x LetXX.scope (Some LetXX.scope),
        set_allIdentifiers (fun r => r ∪ {["x"]}) LetXX.core).
Proof.
  apply (setupReferences_accepts LetXX.reference LetXX.core LetXX.scope).
  - by vm_compute.
  - by vm_compute.
  - right. exists 5. split; [by vm_compute|]. simpl. lia.
Defined.

(** X15.  Sites that are not uses are skipped.  An identifier that has not
    been resolved and sits in the [id] slot of a declarator, the [property]
    slot of a non-computed member expression, the [key] slot of a property,
    the [label] slot of a labeled statement, the [param] slot of a catch
    clause, or the [id] slot or the parameter list of a function, is not a
    reference: [setupReferences] returns the node and the state as they
    are, so the name does not enter the registry this way. *)
Theorem setupReferences_skips_non_uses (node : ANode) (parent : Node) (c : Core) :
  ntype node = Identifier ->
  a_refToScope node = None ->
  nparent node = Some parent ->
  (ntype parent = VariableDeclarator ∧ c_id parent = Some (nid node))
  ∨ (ntype parent = MemberExpression ∧ computed parent = false
     ∧ c_property parent = Some (nid node))
  ∨ (ntype parent = Property ∧ c_key parent = Some (nid node))
  ∨ (ntype parent = LabeledStatement ∧ c_label parent = Some (nid node))
  ∨ (ntype parent = CatchClause ∧ c_param parent = Some (nid node))
  ∨ (isFunction parent = true
     ∧ (c_id parent = Some (nid node) ∨ nid node ∈ c_params parent)) ->
  isReference node = Ok false ∧ setupReferences node c = Ok (node, c).
Proof.
  intros Hid Href Hp Hsite.
  assert (Hr : isReference node = Ok false).
  { unfold isReference, is_child. rewrite Href, Hid, Hp. cbn [negb bool_decide].
    rewrite bool_decide_eq_true_2 by done. cbn [negb]. f_equal.
    destruct Hsite as [[Ht Hs]|[(Ht & Hc & Hs)|[[Ht Hs]|[[Ht Hs]|[[Ht Hs]|[Hf Hs]]]]]].
    - rewrite Ht, Hs, !bool_decide_eq_true_2 by done. done.
    - rewrite Ht, Hc, Hs. rewrite (bool_decide_eq_true_2 (Some _ = Some _)) by done.
      cbn. by rewrite !andb_false_r.
    - rewrite Ht, Hs. rewrite (bool_decide_eq_true_2 (Some _ = Some _)) by done.
      cbn. by rewrite !andb_false_r.
    - rewrite Ht, Hs. rewrite (bool_decide_eq_true_2 (Some _ = Some _)) by done.
      cbn. by rewrite !andb_false_r.
    - rewrite Ht, Hs. rewrite (bool_decide_eq_true_2 (Some _ = Some _)) by done.
      cbn. by rewrite !andb_false_r.
    - rewrite Hf. destruct Hs as [Hs|Hs].
      + rewrite Hs, (bool_decide_eq_true_2 (Some _ = Some _)) by done.
        cbn. by rewrite !andb_false_r.
      + rewrite (bool_decide_eq_true_2 _ Hs). cbn. by rewrite !andb_false_r. }
  split; [done|]. unfold setupReferences. by rewrite Hr.
Qed.

Lemma setupReferences_skips_non_uses_witness :
  isReference (mkANode LetXX.id_x LetXX.scope None) = Ok false
  ∧ setupReferences (mkANode LetXX.id_x LetXX.scope None) LetXX.core
    = Ok (mkANode LetXX.id_x LetXX.scope None, LetXX.core).
Proof.
  apply (setupReferences_skips_non_uses (mkANode LetXX.id_x LetXX.scope None)
           LetXX.declarator LetXX.core).
  - reflexivity.
  - reflexivity.
  - reflexivity.
  - left. split; reflexivity.
Defined.

(** ** Shared helper declarations, continued *)

Lemma unique_state name f c g c1 :
  unique name true f c = Ok (g, c1) ->
  c1 = set_allIdentifiers (fun s => s ∪ {[g]}) c.
Proof.
  unfold unique. cbn [orb assert res_bind].
  destruct (unique_loop _ _ _ _ _); [|done]. by intros [= <- <-].
Qed.


(** The first installation of a helper, step by step. *)
Lemma first_install_effect hoist key init isF c name c1 :
  __createBubbledVariableDeclaration hoist key init isF None c = Ok (name, c1) ->
  ∃ target begin,
    closestHoistScope hoist = Ok target
    ∧ __getNodeBegin (snode hoist) = Ok begin
    ∧ (name ∉ allIdentifiers c)
    ∧ (∃ n, name = genName key n)
    ∧ allIdentifiers c1 = allIdentifiers c ∪ {[name]}
    ∧ bubbledVariables c1
      = <[key := mkBV name init isF hoist (nextOptions c)]> (bubbledVariables c)
    ∧ alter c1 = alter c ++ [mkEdit begin (helper_text name init isF) (nextOptions c)]
    ∧ inactiveOptions c1 = inactiveOptions c
    ∧ nextOptions c1 = S (nextOptions c)
    ∧ scopeDecls c1
      = <[sid target := <[name := mkDecl KVar None None None]>
                          (default ∅ (scopeDecls c !! sid target))]> (scopeDecls c).
Proof.
  unfold __createBubbledVariableDeclaration. intros H.
  apply bind_Ok in H as (bv & c2 & Hbv & H).
  apply bind_Ok in Hbv as (g & c3 & Hu & Hbv).
  pose proof (unique_Ok _ _ _ _ _ _ Hu) as (n & Hg & Hacc & _).
  apply accepts_true in Hacc as [Hfresh _].
  apply unique_state in Hu. subst c3.
  apply bind_Ok in Hbv as (h & c4 & Hnew & Hbv).
  unfold new_options in Hnew. inversion Hnew; subst h c4. clear Hnew.
  apply bind_Ok in Hbv as ([] & c5 & Hmod & Hret).
  unfold modify in Hmod. inversion Hmod; subst c5. clear Hmod.
  unfold ret in Hret. inversion Hret; subst bv c2. clear Hret.
  apply bind_Ok in H as ([] & c6 & Hadd & H).
  unfold createScopeVariableDeclaration, Scope_add in Hadd.
  destruct (closestHoistScope hoist) as [target|] eqn:Ht; cbn [res_bind] in Hadd;
    [|done].
  inversion Hadd; subst c6. clear Hadd.
  apply bind_Ok in H as (begin & c7 & Hbegin & H).
  apply lift_Ok in Hbegin as [Hbegin ->].
  apply bind_Ok in H as ([] & c8 & Hins & H).
  unfold alter_insert, modify in Hins. inversion Hins; subst c8. clear Hins.
  unfold ret in H. inversion H; subst. clear H.
  exists target, begin. cbn. split_and!; try done. by exists n.
Qed.

(** What a request that returns leaves in the helper table. *)
Lemma bubbledVariableDeclaration_table scope key init isF c name c1 :
  bubbledVariableDeclaration scope key init isF c = Ok (name, c1) ->
  (∃ bv, bubbledVariables c1 !! key = Some bv
         ∧ bv_name bv = name ∧ bv_value bv = init)
  ∧ (∀ k, k ≠ key -> bubbledVariables c1 !! k = bubbledVariables c !! k)
  ∧ (∀ bv0, bubbledVariables c !! key = Some bv0 -> bv_value bv0 = init ->
            name = bv_name bv0)
  ∧ allIdentifiers c ⊆ allIdentifiers c1.
Proof.
  intros H. unfold bubbledVariableDeclaration in H.
  apply bind_Ok in H as (hoist & c0 & Hh & H). apply lift_Ok in Hh as [_ ->].
  apply bind_Ok in H as (cc & c0 & Hg & H). unfold get in Hg.
  inversion Hg; subst cc c0. clear Hg.
  unfold __isBubbledVariableDeclaration in H.
  destruct (bubbledVariables c !! key) as [bv|] eqn:Hbv.
  - case_bool_decide as Hval.
    + destruct (Scope_lookup c hoist (bv_name bv)).
      * unfold ret in H. inversion H; subst. split_and!; try done.
        -- by exists bv.
        -- by intros bv0 [= <-] _.
      * apply bind_Ok in H as (target & c2 & Hfind & H).
        apply findParentForScopes_frame in Hfind as (Hb1 & _ & _ & _ & Hr1 & _).
        unfold __rebaseBubbledVariableDeclaration in H. rewrite Hb1, Hbv in H.
        assert (Hreg : allIdentifiers c1 = allIdentifiers c2).
        { unfold __createBubbledVariableDeclaration in H.
          apply bind_Ok in H as (bv1 & c3 & Hx & H).
          apply bind_Ok in Hx as (h & c4 & Hnew & Hx).
          unfold new_options in Hnew. inversion Hnew; subst h c4. clear Hnew.
          apply bind_Ok in Hx as ([] & c5 & Hmod & Hret).
          unfold modify in Hmod. inversion Hmod; subst c5. clear Hmod.
          unfold ret in Hret. inversion Hret; subst bv1 c3. clear Hret.
          apply bind_Ok in H as ([] & c6 & Hadd & H).
          unfold createScopeVariableDeclaration in Hadd.
          apply Scope_add_frame in Hadd as (_ & _ & _ & _ & Hra).
          apply bind_Ok in H as (begin & c7 & Hbegin & H).
          apply lift_Ok in Hbegin as [_ ->].
          apply bind_Ok in H as ([] & c8 & Hins & H).
          unfold alter_insert, modify in Hins. inversion Hins; subst c8.
          unfold ret in H. inversion H; subst. cbn. by rewrite Hra. }
        apply createBubbledVariableDeclaration_effect in H
          as (bv1 & pos & text & Hb & Hname & _ & _ & _ & _ & Hn1 & Hv1).
        cbn in Hb. rewrite Hb1 in Hb. rewrite Hb. split_and!.
        -- exists bv1. rewrite lookup_insert_eq. split_and!; congruence.
        -- intros k Hk. by rewrite lookup_insert_ne.
        -- intros bv0 [= <-] _. congruence.
        -- rewrite Hreg, Hr1. done.
    + apply first_install_effect in H
        as (target & begin & _ & _ & _ & _ & Hreg & Hb & _).
      rewrite Hb. split_and!.
      * eexists. rewrite lookup_insert_eq. split_and!; done.
      * intros k Hk. by rewrite lookup_insert_ne.
      * intros bv0 [= <-] Hv. done.
      * rewrite Hreg. set_solver.
  - apply first_install_effect in H
      as (target & begin & _ & _ & _ & _ & Hreg & Hb & _).
    rewrite Hb. split_and!.
    + eexists. rewrite lookup_insert_eq. split_and!; done.
    + intros k Hk. by rewrite lookup_insert_ne.
    + by intros bv0 [=].
    + rewrite Hreg. set_solver.
Qed.

Lemma closestHoistScope_of_hoist s h :
  closestHoistScope s = Ok h -> closestHoistScope h = Ok h.
Proof.
  intros H. apply closestHoistScope_kind in H.
  rewrite closestHoistScope_unfold. by rewrite bool_decide_eq_true_2.
Qed.

Lemma scope_chain_unfold s :
  scope_chain s = s :: match sparent s with
                       | Some p => scope_chain p
                       | None => []
                       end.
Proof. by destruct s. Qed.

Lemma Scope_lookup_enclosing c h s name :
  encloses h s = true ->
  is_Some (decls_of c h !! name) ->
  is_Some (Scope_lookup c s name).
Proof.
  unfold encloses. intros He Hd.
  induction s as [s Hp|s p Hp IH] using Scope_chain_ind;
    rewrite Scope_lookup_unfold; rewrite scope_chain_unfold, Hp in He;
    cbn [existsb] in He.
  - rewrite orb_false_r in He. unfold same_scope in He.
    apply bool_decide_eq_true in He. unfold decls_of in *. rewrite <- He.
    by rewrite bool_decide_eq_true_2.
  - case_bool_decide; [done|]. apply orb_true_iff in He as [He|He].
    + unfold same_scope in He. apply bool_decide_eq_true in He.
      unfold decls_of in *. by rewrite <- He in *.
    + rewrite Hp. by apply IH.
Qed.

(** X16.  Requests for one shared helper (same logical name, same
    initializer), started on an empty sink, as long as they return: all of
    them return one identifier, the table holds it, and exactly one
    installation edit is in force afterwards, rebases included. *)
Theorem helper_requests_agree (scope : Scope) (scopes : list Scope)
    (key init : string) (isF : bool) (c c1 : Core) (names : list string) :
  pristine key c ->
  run_requests (scope :: scopes) key init isF c = Ok (names, c1) ->
  ∃ name,
    (∀ n, n ∈ names -> n = name)
    ∧ length names = S (length scopes)
    ∧ (bv_name <$> bubbledVariables c1 !! key) = Some name
    ∧ length (active_edits c1) = 1%nat.
Proof.
  intros Hp H.
  assert (Hlen : ∀ l c0 ns c2, run_requests l key init isF c0 = Ok (ns, c2) ->
                               length ns = length l).
  { induction l as [|x l IH]; intros c0 ns c2 Hr; simpl in Hr.
    - by inversion Hr.
    - destruct (bubbledVariableDeclaration x key init isF c0) as [[n0 c3]|]; [|done].
      destruct (run_requests l key init isF c3) as [[ns0 c4]|] eqn:Hr0; [|done].
      inversion Hr; subst. simpl. f_equal. by apply (IH c3 ns0 c2). }
  pose proof (Hlen _ _ _ _ H) as Hl.
  apply run_requests_agree in H as (name & Hall & Hinst & Hact); [|done].
  exists name. split_and!; [done|done| |done].
  destruct Hinst as (bv & e & -> & _ & <- & _). done.
Qed.

Lemma TwoClasses_pristine key : pristine key TwoClasses.core.
Proof.
  assert (Ha : alter TwoClasses.core = []) by (by vm_compute).
  assert (Hi : inactiveOptions TwoClasses.core = ∅) by (by vm_compute).
  split; [by vm_compute|]. split; [done|]. split.
  - intros e He. rewrite Ha in He. by apply elem_of_nil in He.
  - intros h Hh. rewrite Hi in Hh. by apply elem_of_empty in Hh.
Qed.

Lemma helper_requests_agree_witness :
  match run_requests
          [TwoClasses.f_body_scope; TwoClasses.g_body_scope; TwoClasses.f_body_scope]
          "DP" "Object.defineProperty" false TwoClasses.core with
  | Ok (names, c1) =>
      names = ["DP$0"; "DP$0"; "DP$0"]
      ∧ length (alter c1) = 2%nat ∧ length (active_edits c1) = 1%nat
  | Err _ => False
  end.
Proof.
  destruct (run_requests _ _ _ _ TwoClasses.core) as [[names c1]|] eqn:E;
    [|by vm_compute in E].
  destruct (helper_requests_agree _ _ _ _ _ _ _ _ (TwoClasses_pristine "DP") E)
    as (name & _ & _ & _ & Hact).
  split; [|split; [|exact Hact]].
  - vm_compute in E. by inversion E.
  - vm_compute in E. by inversion E.
Defined.

Lemma bubbledVariableDeclaration_first scope key init isF c name c1 hoist :
  __isBubbledVariableDeclaration key init c = None ->
  closestHoistScope scope = Ok hoist ->
  bubbledVariableDeclaration scope key init isF c = Ok (name, c1) ->
  __createBubbledVariableDeclaration hoist key init isF None c = Ok (name, c1).
Proof.
  intros Hnone Hh H. unfold bubbledVariableDeclaration in H.
  apply bind_Ok in H as (hoist0 & c0 & Hh0 & H).
  apply lift_Ok in Hh0 as [Hh0 ->]. rewrite Hh in Hh0. inversion Hh0; subst hoist0.
  apply bind_Ok in H as (cc & c0 & Hg & H). unfold get in Hg.
  inversion Hg; subst cc c0. by rewrite Hnone in H.
Qed.

(** X17.  The first request for a helper declares it in the closest hoisting
    scope of the requester: a request made afterwards from any scope whose
    closest hoisting scope is that scope or lies inside it returns the same
    identifier and changes nothing (no new edit, no new name). *)
Theorem helper_request_is_idempotent (scope scope2 hoist hoist2 : Scope)
    (key init : string) (isF isF2 : bool) (c c1 : Core) (name : string) :
  __isBubbledVariableDeclaration key init c = None ->
  closestHoistScope scope = Ok hoist ->
  bubbledVariableDeclaration scope key init isF c = Ok (name, c1) ->
  closestHoistScope scope2 = Ok hoist2 ->
  encloses hoist hoist2 = true ->
  bubbledVariableDeclaration scope2 key init isF2 c1 = Ok (name, c1).
Proof.
  intros Hnone Hh H Hh2 Henc.
  apply (bubbledVariableDeclaration_first _ _ _ _ _ _ _ hoist) in H; [|done..].
  apply first_install_effect in H
    as (target & begin & Ht & _ & _ & _ & _ & Hb & _ & _ & _ & Hd).
  rewrite (closestHoistScope_of_hoist _ _ Hh) in Ht. inversion Ht; subst target.
  unfold bubbledVariableDeclaration, bind at 1, lift. rewrite Hh2.
  unfold bind at 1, get. unfold __isBubbledVariableDeclaration.
  rewrite Hb, lookup_insert_eq. cbn [bv_value].
  rewrite bool_decide_eq_true_2 by done. cbn [bv_name].
  destruct (Scope_lookup_enclosing c1 hoist hoist2 name Henc) as [s ->]; [|done].
  unfold decls_of. rewrite Hd, lookup_insert_eq. cbn. by rewrite lookup_insert_eq.
Qed.

Lemma helper_request_is_idempotent_witness :
  TwoClasses.first_request = Ok ("DP$0", TwoClasses.after_first)
  ∧ bubbledVariableDeclaration TwoClasses.f_scope "DP" "Object.defineProperty" true
      TwoClasses.after_first = Ok ("DP$0", TwoClasses.after_first).
Proof.
  assert (E : TwoClasses.first_request = Ok ("DP$0", TwoClasses.after_first))
    by (by vm_compute).
  split; [exact E|].
  apply (helper_request_is_idempotent TwoClasses.f_body_scope TwoClasses.f_scope
           TwoClasses.f_scope TwoClasses.f_scope "DP" "Object.defineProperty"
           false true TwoClasses.core).
  - by vm_compute.
  - reflexivity.
  - exact E.
  - reflexivity.
  - reflexivity.
Defined.

(** X18.  The table holds one record per logical name.  After a helper has
    been installed for a logical name, a request under the same name with
    another initializer mints a different identifier and takes over the
    record; the edit of the first helper is not deactivated. *)
Theorem helper_other_initializer (scope scope2 : Scope) (key init init2 : string)
    (isF isF2 : bool) (c c1 c2 : Core) (name name2 : string) :
  __isBubbledVariableDeclaration key init c = None ->
  bubbledVariableDeclaration scope key init isF c = Ok (name, c1) ->
  init2 ≠ init ->
  bubbledVariableDeclaration scope2 key init2 isF2 c1 = Ok (name2, c2) ->
  name2 ≠ name
  ∧ (bv_name <$> bubbledVariables c2 !! key) = Some name2
  ∧ (bv_value <$> bubbledVariables c2 !! key) = Some init2
  ∧ inactiveOptions c2 = inactiveOptions c
  ∧ length (alter c2) = S (S (length (alter c))).
Proof.
  intros Hnone H1 Hne H2.
  destruct (closestHoistScope scope) as [hoist|] eqn:Hh.
  2: { unfold bubbledVariableDeclaration, bind at 1, lift in H1. by rewrite Hh in H1. }
  destruct (closestHoistScope scope2) as [hoist2|] eqn:Hh2.
  2: { unfold bubbledVariableDeclaration, bind at 1, lift in H2. by rewrite Hh2 in H2. }
  apply (bubbledVariableDeclaration_first _ _ _ _ _ _ _ hoist) in H1; [|done..].
  apply first_install_effect in H1
    as (t1 & b1 & _ & _ & _ & _ & Hreg1 & Hb1 & Ha1 & Hi1 & _).
  assert (Hnone2 : __isBubbledVariableDeclaration key init2 c1 = None).
  { unfold __isBubbledVariableDeclaration. rewrite Hb1, lookup_insert_eq.
    cbn [bv_value]. by rewrite bool_decide_eq_false_2 by congruence. }
  apply (bubbledVariableDeclaration_first _ _ _ _ _ _ _ hoist2) in H2; [|done..].
  apply first_install_effect in H2
    as (t2 & b2 & _ & _ & Hfresh & _ & _ & Hb2 & Ha2 & Hi2 & _).
  split_and!.
  - intros ->. apply Hfresh. rewrite Hreg1. set_solver.
  - by rewrite Hb2, lookup_insert_eq.
  - by rewrite Hb2, lookup_insert_eq.
  - congruence.
  - rewrite Ha2, Ha1, !length_app. simpl. lia.
Qed.

Lemma helper_other_initializer_witness :
  match bubbledVariableDeclaration TwoClasses.f_body_scope "DP" "Reflect.defineProperty"
          false TwoClasses.after_first with
  | Ok (name2, c2) =>
      name2 = "DP$1" ∧ name2 ≠ "DP$0"
      ∧ (bv_value <$> bubbledVariables c2 !! "DP") = Some "Reflect.defineProperty"
  | Err _ => False
  end.
Proof.
  destruct (bubbledVariableDeclaration TwoClasses.f_body_scope "DP"
              "Reflect.defineProperty" false TwoClasses.after_first)
    as [[name2 c2]|] eqn:E; [|by vm_compute in E].
  destruct (helper_other_initializer TwoClasses.f_body_scope TwoClasses.f_body_scope
              "DP" "Object.defineProperty" "Reflect.defineProperty" false false
              TwoClasses.core TwoClasses.after_first c2 "DP$0" name2)
    as (Hne & _ & Hv & _); [by vm_compute|by vm_compute|done|exact E|].
  split; [|split; [exact Hne|exact Hv]].
  clear Hne Hv. vm_compute in E. by injection E as <- _.
Defined.

(** X19.  What the first request for a helper does: it mints an identifier
    [key$n] that the registry did not hold and reserves it, declares it as a
    var in the closest hoisting scope of the requester, and appends one edit
    to the sink: the declaration text ([var name = value;], or [function
    name value] for a function helper) at the begin position of the node
    that owns that scope. *)
Theorem helper_first_request (scope hoist : Scope) (key init : string)
    (isF : bool) (c c1 : Core) (name : string) :
  __isBubbledVariableDeclaration key init c = None ->
  closestHoistScope scope = Ok hoist ->
  bubbledVariableDeclaration scope key init isF c = Ok (name, c1) ->
  ∃ (n : N) (begin : Z),
    name = key +:+ "$" +:+ pretty n
    ∧ (name ∉ allIdentifiers c)
    ∧ allIdentifiers c1 = allIdentifiers c ∪ {[name]}
    ∧ getKind c1 hoist name = Some KVar
    ∧ __getNodeBegin (snode hoist) = Ok begin
    ∧ alter c1
      = alter c ++ [mkEdit begin (helper_text name init isF) (nextOptions c)]
    ∧ (bv_scope <$> bubbledVariables c1 !! key) = Some hoist.
Proof.
  intros Hnone Hh H.
  apply (bubbledVariableDeclaration_first _ _ _ _ _ _ _ hoist) in H; [|done..].
  apply first_install_effect in H
    as (target & begin & Ht & Hbegin & Hfresh & (n & Hn) & Hreg & Hb & Ha & _ & _ & Hd).
  rewrite (closestHoistScope_of_hoist _ _ Hh) in Ht. inversion Ht; subst target.
  exists n, begin. split_and!; try done.
  - unfold getKind, decls_of. rewrite Hd, lookup_insert_eq. cbn.
    by rewrite lookup_insert_eq.
  - by rewrite Hb, lookup_insert_eq.
Qed.

Lemma helper_first_request_witness :
  ∃ (n : N) (begin : Z),
    "DP$0" = "DP" +:+ "$" +:+ pretty n
    ∧ ("DP$0" ∉ allIdentifiers TwoClasses.core)
    ∧ allIdentifiers TwoClasses.after_first
      = allIdentifiers TwoClasses.core ∪ {["DP$0"]}
    ∧ getKind TwoClasses.after_first TwoClasses.f_scope "DP$0" = Some KVar
    ∧ __getNodeBegin (snode TwoClasses.f_scope) = Ok begin
    ∧ alter TwoClasses.after_first
      = alter TwoClasses.core
        ++ [mkEdit begin (helper_text "DP$0" "Object.defineProperty" false)
              (nextOptions TwoClasses.core)]
    ∧ (bv_scope <$> bubbledVariables TwoClasses.after_first !! "DP")
      = Some TwoClasses.f_scope.
Proof.
  apply (helper_first_request TwoClasses.f_body_scope TwoClasses.f_scope "DP"
           "Object.defineProperty" false TwoClasses.core TwoClasses.after_first).
  - by vm_compute.
  - reflexivity.
  - by vm_compute.
Defined.

(** ** Parameter lowering, continued *)

Lemma at_index_elem {A} (l : list A) (i : Z) (x : A) :
  at_index l i = Some x -> x ∈ l.
Proof.
  unfold at_index. case_bool_decide; [done|]. apply list_elem_of_lookup_2.
Qed.


Section ParameterLoweringMore.
Variable unwrapDestructuring : string -> Slot -> string -> string.
Variable stringFromSrc : Slot -> string.

Lemma lower_patterns_plain todo i fnBodyStart params changes c :
  (∀ p, p ∈ params -> x_type p ≠ ObjectPattern ∧ x_type p ≠ ArrayPattern) ->
  lower_patterns unwrapDestructuring todo i fnBodyStart params changes c
  = Ok (changes, c).
Proof.
  intros Hplain. revert i. induction todo as [|todo IH]; intros i; simpl; [done|].
  destruct (at_index params i) as [p|] eqn:Hp; simpl; [|apply IH].
  destruct (Hplain p (at_index_elem _ _ _ Hp)) as [Ho Ha].
  rewrite !bool_decide_eq_false_2 by done. apply IH.
Qed.




(** X20.  The visitor leaves alone what needs no lowering: a node that is
    not a function declaration or function expression (an arrow function
    included), and a function whose parameters are all plain and which has
    neither defaults nor a rest parameter, produce no change and leave the
    core as it is. *)
Theorem parameter_lowering_no_op (node : FunctionNode) (changes : list Change)
    (c : Core) :
  functions_isFunction node = false
  ∨ ((∀ p, p ∈ fn_params node ->
           x_type p ≠ ObjectPattern ∧ x_type p ≠ ArrayPattern)
     ∧ fn_defaults node = [] ∧ fn_rest node = None) ->
  functionDestructuringAndDefaultsAndRest unwrapDestructuring stringFromSrc
    node changes c = Ok (changes, c).
Proof.
  intros [Hf|(Hplain & Hd & Hr)]; unfold functionDestructuringAndDefaultsAndRest.
  - by rewrite Hf.
  - destruct (functions_isFunction node); [|done].
    unfold bind at 1. rewrite lower_patterns_plain by done.
    unfold bind at 1, lift. rewrite Hd. simpl. unfold lower_rest. by rewrite Hr.
Qed.



(** X23.  A rest parameter is lowered only if it is an identifier.  The
    visit then leaves the slice helper in the helper table with the
    initializer [Array.prototype.slice], declares the rest name as a [var]
    of the closest hoisting scope, and the insertion it appends reads
    [var NAME = SLICE.call(arguments, N);] where [N] is the number of
    parameters and [SLICE] the name of the helper. *)
Theorem rest_parameter_lowering (node : FunctionNode) (rest : Slot)
    (changes out : list Change) (c c1 : Core) :
  functions_isFunction node = true ->
  fn_rest node = Some rest ->
  functionDestructuringAndDefaultsAndRest unwrapDestructuring stringFromSrc
    node changes c = Ok (out, c1) ->
  x_type rest = Identifier
  ∧ ∃ bv hoist front cleanup,
      bubbledVariables c1 !! "SLICE" = Some bv
      ∧ bv_value bv = "Array.prototype.slice"
      ∧ closestHoistScope (fn_scope node) = Ok hoist
      ∧ getKind c1 hoist (js_name (x_name rest)) = Some KVar
      ∧ getFromPos c1 hoist (js_name (x_name rest)) = Some (-1)
      ∧ out = front ++
          [ mkChange (fn_body0 node + 1) (fn_body0 node + 1)
              ("var " +:+ (js_name (x_name rest) +:+ " = " +:+ bv_name bv
                           +:+ ".call(arguments, "
                           +:+ pretty (Z.of_nat (length (fn_params node)))
                           +:+ ")") +:+ ";") None;
            cleanup ].
Proof.
  intros Hf Hr. unfold functionDestructuringAndDefaultsAndRest.
  rewrite Hf. intros H. apply bind_Ok in H as (ch1 & c2 & _ & H).
  apply bind_Ok in H as (ch2 & c3 & _ & H).
  unfold lower_rest in H. rewrite Hr in H.
  apply bind_Ok in H as (spread & c4 & Hs & H).
  apply bind_Ok in H as (hoist & c5 & Hh & H). apply lift_Ok in Hh as [Hh ->].
  apply bind_Ok in H as ([] & c6 & Ha & H).
  unfold ret in H. inversion H; subst out c6. clear H.
  unfold unwrapSpreadDeclaration in Hs.
  apply bind_Ok in Hs as ([] & c7 & Has & Hs). apply lift_Ok in Has as [Has ->].
  apply bind_Ok in Hs as (slice & c8 & Hb & Hs).
  unfold ret in Hs. inversion Hs; subst spread c8. clear Hs.
  split.
  { unfold assert in Has. destruct (bool_decide _) eqn:E; [|done].
    by apply bool_decide_eq_true_1 in E. }
  apply bubbledVariableDeclaration_table in Hb as ((bv & Hbv & Hn & Hv) & _).
  destruct (Scope_add_frame _ _ _ _ _ _ _ _ _ Ha) as (Hbub & _).
  unfold Scope_add in Ha. rewrite (closestHoistScope_of_hoist _ _ Hh) in Ha.
  cbn [res_bind] in Ha. inversion Ha; subst c1. clear Ha.
  exists bv, hoist, ch2. eexists. split_and!; [by rewrite Hbub|done|done|..].
  - unfold getKind, decls_of. destruct c4; cbn.
    rewrite lookup_insert_eq. cbn. by rewrite lookup_insert_eq.
  - unfold getFromPos, decls_of. destruct c4; cbn.
    rewrite lookup_insert_eq. cbn. by rewrite lookup_insert_eq.
  - by rewrite Hn.
Qed.
End ParameterLoweringMore.

Lemma parameter_lowering_no_op_witness :
  DefaultAndRest.lower DefaultAndRest.plain = Ok ([], unit_start).
Proof.
  apply (parameter_lowering_no_op DefaultAndRest.expand DefaultAndRest.source).
  right. split_and!; [|done..].
  intros p Hp. cbn in Hp. rewrite !elem_of_cons in Hp.
  destruct Hp as [->| [->|Hp]]; [done..|]. by apply elem_of_nil in Hp.
Defined.



Lemma rest_parameter_lowering_witness :
  ∃ out c1, DefaultAndRest.lowered = Ok (out, c1)
    ∧ getKind c1 DefaultAndRest.f_scope "rest" = Some KVar.
Proof.
  destruct DefaultAndRest.lowered as [[out c1]|] eqn:E; [|by vm_compute in E].
  exists out, c1. split; [done|].
  destruct (rest_parameter_lowering DefaultAndRest.expand
              DefaultAndRest.source DefaultAndRest.f
              (mkSlot Identifier (Some "rest") (24, 28)) [] out unit_start c1
              eq_refl eq_refl E)
    as (_ & bv & hoist & front & cleanup & _ & _ & Hh & Hk & _).
  vm_compute in Hh. by inversion Hh; subst hoist.
Defined.

(** ** Class lowering, continued *)

(** X24.  The descriptor text emitted for a static accessor is the one
    emitted for a prototype accessor exactly when the accessor has a setter.
    Without a setter the separator before ["configurable"] is still
    emitted: for a getter only, the text reads [..."get": g, , "configurable"...],
    with an empty slot between two commas. *)
Theorem static_descriptor_matches_prototype (key : string) (accessor : Accessor) :
  (staticAccessorString key accessor = accessorString key accessor
   ↔ truthy (acc_set accessor) = true)
  ∧ (truthy (acc_get accessor) = true -> truthy (acc_set accessor) = false ->
     staticAccessorString key accessor
     = (if truthy (acc_raw accessor) then default "" (acc_raw accessor) else key)
       +:+ ": {" +:+ quoted "get" +:+ ": " +:+ default "" (acc_get accessor)
       +:+ ", , " +:+ quoted "configurable" +:+ ": true, "
       +:+ quoted "enumerable" +:+ ": true}").
Proof.
  unfold staticAccessorString, accessorString. split.
  - destruct (truthy (acc_set accessor)).
    + split; [done|]. intros _. by rewrite !string_app_assoc.
    + split; [|done]. intros H. do 3 apply (inj (String.app _)) in H.
      by vm_compute in H.
  - intros -> ->. by rewrite !string_app_assoc.
Qed.

Lemma static_descriptor_matches_prototype_witness :
  staticAccessorString "x" (mkAccessor None (Some "static_x$get$0") None)
  = "x: {" +:+ quoted "get" +:+ ": static_x$get$0, , " +:+ quoted "configurable"
    +:+ ": true, " +:+ quoted "enumerable" +:+ ": true}".
Proof.
  by rewrite (proj2 (static_descriptor_matches_prototype "x"
                (mkAccessor None (Some "static_x$get$0") None)) eq_refl eq_refl).
Defined.

Lemma genName_truthy name n : truthy (Some (genName name n)) = true.
Proof. unfold genName. by destruct name. Qed.

Section CreateNamesProperties.
Variable mixinBody : string -> string.

Lemma refName_truthy current base c r c1 :
  refName current base c = Ok (r, c1) -> truthy r = true.
Proof.
  unfold refName. destruct (truthy current) eqn:Ht; simpl.
  - unfold ret. by intros [= <- <-].
  - intros H. apply bind_Ok in H as (g & c2 & Hu & H).
    unfold ret in H. injection H as <- <-.
    apply unique_Ok in Hu as (n & -> & _). apply genName_truthy.
Qed.

(** X25.  The reference names of the class transpiler are minted once.
    After a [createNames] that returned, the super, prototype and static
    reference names are set, and every later [createNames] (from any scope,
    in any state of the core) does nothing but the two helper requests: it
    mints no reference name and keeps the three it has. *)
Theorem createNames_reference_names_once (scope : Scope) (names names1 : ClassNames)
    (c c1 : Core) :
  createNames mixinBody scope names c = Ok (names1, c1) ->
  truthy (__superRefName names1) = true
  ∧ truthy (__protoRefName names1) = true
  ∧ truthy (__staticRefName names1) = true
  ∧ ∀ scope2 c2,
      createNames mixinBody scope2 names1 c2
      = createNames_helpers mixinBody scope2 names1 c2
      ∧ ∀ names2 c3,
          createNames mixinBody scope2 names1 c2 = Ok (names2, c3) ->
          __superRefName names2 = __superRefName names1
          ∧ __protoRefName names2 = __protoRefName names1
          ∧ __staticRefName names2 = __staticRefName names1.
Proof.
  intros H. unfold createNames in H.
  apply bind_Ok in H as (r1 & d1 & H1 & H). apply refName_truthy in H1.
  apply bind_Ok in H as (r2 & d2 & H2 & H). apply refName_truthy in H2.
  apply bind_Ok in H as (r3 & d3 & H3 & H). apply refName_truthy in H3.
  unfold createNames_helpers in H.
  apply bind_Ok in H as (dp & d4 & _ & H).
  apply bind_Ok in H as (mixin & d5 & _ & H).
  unfold ret in H. injection H as <- <-. cbn.
  split_and!; [done..|]. intros scope2 c2.
  assert (Heq : createNames mixinBody scope2
                  (mkClassNames r1 r2 r3 (Some dp) (Some mixin)) c2
                = createNames_helpers mixinBody scope2
                    (mkClassNames r1 r2 r3 (Some dp) (Some mixin)) c2).
  { unfold createNames, refName. cbn. rewrite H1, H2, H3. done. }
  split; [done|]. rewrite Heq. intros names2 c3 H.
  unfold createNames_helpers in H.
  apply bind_Ok in H as (dp2 & e1 & _ & H).
  apply bind_Ok in H as (mixin2 & e2 & _ & H).
  unfold ret in H. by injection H as <- <-.
Qed.
End CreateNamesProperties.

Lemma createNames_reference_names_once_witness :
  ∃ names1 c1, ClassUnit.first = Ok (names1, c1)
    ∧ truthy (__superRefName names1) = true.
Proof.
  destruct ClassUnit.first as [[names1 c1]|] eqn:E; [|by vm_compute in E].
  exists names1, c1. split; [done|].
  exact (proj1 (createNames_reference_names_once ClassUnit.mixinBody
                  ClassUnit.scope classes_reset names1 unit_start c1 E)).
Defined.

(** ** Declared names and the ambient scope *)

Lemma Pattern_nested_ind (P : Pattern -> Prop) :
  (∀ id name range, P (PIdentifier id name range)) ->
  (∀ properties, Forall P properties -> P (PObjectPattern properties)) ->
  (∀ value, P value -> P (PProperty value)) ->
  (∀ elements,
     Forall (fun o => match o with Some v => P v | None => True end) elements ->
     P (PArrayPattern elements)) ->
  (∀ id name range, P (PSpreadElement id name range)) ->
  ∀ p, P p.
Proof.
  intros HI HO HP HA HS. fix IH 1.
  intros [id name range|properties|value|elements|id name range].
  - apply HI.
  - apply HO. revert properties. fix IHl 1.
    intros [|p properties]; constructor; [apply IH|apply IHl].
  - apply HP, IH.
  - apply HA. revert elements. fix IHl 1.
    intros [|[p|] elements]; constructor; [apply IH|apply IHl|done|apply IHl].
  - apply HS.
Qed.

Lemma addVariable_app variable vars :
  addVariable variable vars = vars ++ addVariable variable [].
Proof.
  revert vars. induction variable as [id name range|properties HF|value IH
    |elements HF|id name range] using Pattern_nested_ind; intros vars; simpl;
    [done| |apply IH| |done].
  - revert vars. induction HF as [|p properties Hp _ IHF]; intros vars.
    + by rewrite app_nil_r.
    + rewrite IHF, (IHF (addVariable p [])), Hp. by rewrite app_assoc.
  - revert vars. induction HF as [|[p|] elements Hp _ IHF]; intros vars.
    + by rewrite app_nil_r.
    + rewrite IHF, (IHF (addVariable p [])), Hp. by rewrite app_assoc.
    + apply IHF.
Qed.

Lemma declares_nil target kind c : declares target kind [] c c.
Proof. split_and!; [done| |done]. intros name H. by apply elem_of_nil in H. Qed.

Lemma declares_app target kind names1 names2 c c1 c2 :
  declares target kind names1 c c1 -> declares target kind names2 c1 c2 ->
  declares target kind (names1 ++ names2) c c2.
Proof.
  intros (Ho1 & Hk1 & Hr1) (Ho2 & Hk2 & Hr2). split_and!.
  - intros s Hs. by rewrite Ho2, Ho1.
  - intros name Hin. destruct (decide (name ∈ names2)) as [H2|H2]; [by apply Hk2|].
    apply elem_of_app in Hin as [Hin|Hin]; [|done].
    unfold getKind. rewrite Hr2 by done. by apply Hk1.
  - intros name Hin. rewrite not_elem_of_app in Hin. destruct Hin.
    by rewrite Hr2, Hr1.
Qed.

Lemma Scope_add_declares scope target name kind node from origin c :
  declaration_target scope kind = Ok target ->
  ∃ c1, Scope_add scope name kind node from origin c = Ok (tt, c1)
        ∧ options c1 = options c
        ∧ declares target kind [name] c c1.
Proof.
  intros Ht. unfold Scope_add. unfold declaration_target in Ht. rewrite Ht.
  cbn [res_bind]. eexists. split; [done|]. split; [by destruct c|].
  unfold declares, getKind, decls_of. destruct c; cbn. split_and!.
  - intros s Hs. by rewrite lookup_insert_ne.
  - intros name' Hin. apply list_elem_of_singleton in Hin as ->.
    rewrite lookup_insert_eq. cbn. by rewrite lookup_insert_eq.
  - intros name' Hin. rewrite list_elem_of_singleton in Hin.
    rewrite lookup_insert_eq. cbn. by rewrite lookup_insert_ne.
Qed.

Lemma addVariableToScope_declares scope target kind declarator variable c :
  declaration_target scope kind = Ok target ->
  ∃ c1, addVariableToScope scope variable kind declarator c = Ok (tt, c1)
        ∧ options c1 = options c
        ∧ declares target kind (addVariable variable []) c c1.
Proof.
  intros Ht. revert c.
  induction variable as [id name range|properties HF|value IH
    |elements HF|id name range] using Pattern_nested_ind; intros c; simpl.
  - by apply Scope_add_declares.
  - revert c. induction HF as [|p properties Hp _ IHF]; intros c.
    + exists c. split_and!; [done..|]. apply declares_nil.
    + destruct (Hp c) as (c1 & H1 & Ho1 & Hd1).
      destruct (IHF c1) as (c2 & H2 & Ho2 & Hd2).
      exists c2. unfold bind at 1. rewrite H1. split; [done|].
      split; [congruence|].
      change ((fix each (l : list Pattern) (vars : list string) {struct l} :
                 list string :=
                 match l with
                 | [] => vars
                 | v :: rest => each rest (addVariable v vars)
                 end) properties (addVariable p []))
        with (addVariable (PObjectPattern properties) (addVariable p [])).
      rewrite addVariable_app. by eapply declares_app.
  - apply IH.
  - revert c. induction HF as [|[p|] elements Hp _ IHF]; intros c.
    + exists c. split_and!; [done..|]. apply declares_nil.
    + destruct (Hp c) as (c1 & H1 & Ho1 & Hd1).
      destruct (IHF c1) as (c2 & H2 & Ho2 & Hd2).
      exists c2. unfold bind at 1. rewrite H1. split; [done|].
      split; [congruence|].
      change ((fix each (l : list (option Pattern)) (vars : list string)
                 {struct l} : list string :=
                 match l with
                 | [] => vars
                 | Some v :: rest => each rest (addVariable v vars)
                 | None :: rest => each rest vars
                 end) elements (addVariable p []))
        with (addVariable (PArrayPattern elements) (addVariable p [])).
      rewrite addVariable_app. by eapply declares_app.
    + apply IHF.
  - by apply Scope_add_declares.
Qed.

Lemma getNodeVariableNames_foldl (declarations : list (nat * Pattern)) acc :
  foldl (fun vars (declarator : nat * Pattern) =>
           addVariable (snd declarator) vars) acc declarations
  = acc ++ getNodeVariableNames_VariableDeclaration declarations.
Proof.
  unfold getNodeVariableNames_VariableDeclaration. revert acc.
  induction declarations as [|d declarations IH]; intros acc; simpl.
  - by rewrite app_nil_r.
  - rewrite IH, (IH (addVariable d.2 [])), (addVariable_app d.2 acc).
    by rewrite app_assoc.
Qed.

(** X26.  [getNodeVariableNames] and [createScopes] agree on what a variable
    declaration introduces.  Where the scope that takes the declarations
    exists and [var] is not disallowed, the [VariableDeclaration] branch of
    [createScopes] returns, and it declares, with the kind of the statement
    and in that scope, exactly the names [getNodeVariableNames] lists for
    the statement; every other declaration is left as it was. *)
Theorem createScopes_declares_listed_names (scope target : Scope) (kind : DeclKind)
    (declarations : list (nat * Pattern)) (c : Core) :
  declaration_target scope kind = Ok target ->
  disallowVars (options c) && bool_decide (kind = KVar) = false ->
  ∃ c1, createScopes_VariableDeclaration scope kind declarations c = Ok (tt, c1)
        ∧ declares target kind
            (getNodeVariableNames_VariableDeclaration declarations) c c1.
Proof.
  intros Ht. revert c.
  induction declarations as [|[declarator id] declarations IH]; intros c Hopt.
  - exists c. split; [done|]. apply declares_nil.
  - simpl. rewrite Hopt.
    destruct (addVariableToScope_declares scope target kind declarator id c Ht)
      as (c1 & H1 & Ho1 & Hd1).
    destruct (IH c1) as (c2 & H2 & Hd2); [by rewrite Ho1|].
    exists c2. unfold bind at 1. rewrite H1. split; [done|].
    unfold getNodeVariableNames_VariableDeclaration at 1. simpl.
    rewrite getNodeVariableNames_foldl. by eapply declares_app.
Qed.

Lemma createScopes_declares_listed_names_witness :
  ∃ c1, createScopes_VariableDeclaration DestructuringLet.scope KLet
          DestructuringLet.declarations unit_start = Ok (tt, c1)
        ∧ declares DestructuringLet.scope KLet ["a"; "c"; "d"; "e"] unit_start c1.
Proof.
  exact (createScopes_declares_listed_names DestructuringLet.scope
           DestructuringLet.scope KLet DestructuringLet.declarations unit_start
           eq_refl eq_refl).
Defined.

Lemma inject_snoc obj entry decls :
  inject (obj ++ [entry]) decls = inject [entry] (inject obj decls).
Proof. unfold inject. by rewrite foldl_app. Qed.

Lemma inject_one_lookup (entry : string * bool) decls name :
  inject [entry] decls !! name
  = if bool_decide (name = entry.1)
    then Some (mkDecl (if entry.2 then KVar else KConst) None (Some (-1)) None)
    else decls !! name.
Proof.
  unfold inject. simpl. destruct (decide (name = entry.1)) as [->|Hn].
  - by rewrite (bool_decide_eq_true_2 (entry.1 = entry.1)), lookup_insert_eq.
  - rewrite (bool_decide_eq_false_2 (name = entry.1)), lookup_insert_ne by done.
    case_bool_decide; [by rewrite lookup_delete_ne|done].
Qed.

Lemma inject_cons entry obj decls :
  inject (entry :: obj) decls = inject obj (inject [entry] decls).
Proof. done. Qed.

Lemma inject_absent (obj : list (string * bool)) decls name :
  name ∉ obj.*1 -> inject obj decls !! name = decls !! name.
Proof.
  revert decls. induction obj as [|entry obj IH]; intros decls Hn; [done|].
  rewrite fmap_cons, not_elem_of_cons in Hn. destruct Hn as [Hne Hn].
  rewrite inject_cons, IH, inject_one_lookup by done.
  by rewrite bool_decide_eq_false_2.
Qed.

Lemma inject_present (obj : list (string * bool)) decls name
    (writeable : bool) :
  NoDup obj.*1 -> (name, writeable) ∈ obj ->
  inject obj decls !! name
  = Some (mkDecl (if writeable then KVar else KConst) None (Some (-1)) None).
Proof.
  revert decls. induction obj as [|entry obj IH]; intros decls Hnd Hin.
  { by apply elem_of_nil in Hin. }
  rewrite fmap_cons in Hnd. apply NoDup_cons in Hnd as [Hfirst Hnd].
  rewrite inject_cons. apply elem_of_cons in Hin as [<-|Hin].
  - rewrite inject_absent by done. rewrite inject_one_lookup.
    by rewrite bool_decide_eq_true_2.
  - by apply IH.
Qed.

Lemma inject_keeps obj decls name :
  is_Some (decls !! name) -> is_Some (inject obj decls !! name).
Proof.
  revert decls. induction obj as [|entry obj IH]; intros decls Hs; [done|].
  rewrite inject_cons. apply IH. rewrite inject_one_lookup.
  case_bool_decide; [by eexists|done].
Qed.

Lemma inject_ambient obj decls :
  (∀ name d, decls !! name = Some d -> dnode d = None ∧ dfrom d = Some (-1)) ->
  ∀ name d, inject obj decls !! name = Some d ->
            dnode d = None ∧ dfrom d = Some (-1).
Proof.
  revert decls. induction obj as [|entry obj IH]; intros decls Hd; [done|].
  rewrite inject_cons. apply IH. intros name d. rewrite inject_one_lookup.
  case_bool_decide; [by intros [= <-]|apply Hd].
Qed.

Section TopScopeProperties.
Variable jshint_vars : string -> option (list (string * bool)).

Lemma inject_environments_keeps environments decls decls1 name :
  inject_environments jshint_vars environments decls = inr decls1 ->
  is_Some (decls !! name) -> is_Some (decls1 !! name).
Proof.
  revert decls. induction environments as [|env environments IH];
    intros decls; simpl.
  - by intros [= <-].
  - destruct (jshint_vars env) as [table|]; [|done].
    intros H Hs. eapply IH; [done|]. by apply inject_keeps.
Qed.

Lemma inject_environments_ambient environments decls decls1 :
  inject_environments jshint_vars environments decls = inr decls1 ->
  (∀ name d, decls !! name = Some d -> dnode d = None ∧ dfrom d = Some (-1)) ->
  ∀ name d, decls1 !! name = Some d -> dnode d = None ∧ dfrom d = Some (-1).
Proof.
  revert decls. induction environments as [|env environments IH];
    intros decls; simpl.
  - by intros [= <-].
  - destruct (jshint_vars env) as [table|]; [|done].
    intros H Hd. eapply IH; [done|]. by apply inject_ambient.
Qed.

Lemma inject_environments_result environments decls :
  match inject_environments jshint_vars environments decls with
  | inl (EnvironmentNotFound env) =>
      ∃ known rest, environments = known ++ env :: rest
                    ∧ jshint_vars env = None
                    ∧ ∀ e, e ∈ known -> is_Some (jshint_vars e)
  | inr _ => ∀ e, e ∈ environments -> is_Some (jshint_vars e)
  end.
Proof.
  revert decls. induction environments as [|env environments IH];
    intros decls; simpl.
  - intros e H. by apply elem_of_nil in H.
  - destruct (jshint_vars env) as [table|] eqn:He.
    + specialize (IH (inject table decls)).
      destruct (inject_environments _ _ _) as [[bad]|].
      * destruct IH as (known & rest & -> & Hbad & Hk).
        exists (env :: known), rest. split_and!; [done..|].
        intros e [->|Hin]%elem_of_cons; [by rewrite He|by apply Hk].
      * intros e [->|Hin]%elem_of_cons; [by rewrite He|by apply IH].
    + exists [], environments. split_and!; [done..|].
      intros e H. by apply elem_of_nil in H.
Qed.

(** X27.  In the top scope the caller's globals have the last word.  When
    [createTopScope] returns, every name of [globals] is declared [var] if
    its entry is writeable and [const] if not, whatever the tables injected
    before say about it; [undefined], [Infinity] and [console] are declared
    in any case; and every declaration of the scope is visible from position
    -1 and carries no node of the program. *)
Theorem createTopScope_globals_override (environments : option (list string))
    (globals : list (string * bool)) (decls : gmap string Declaration) :
  NoDup globals.*1 ->
  createTopScope jshint_vars environments (Some globals) = inr decls ->
  (∀ name (writeable : bool), (name, writeable) ∈ globals ->
     dkind <$> decls !! name = Some (if writeable then KVar else KConst))
  ∧ (∀ name, name ∈ complementary.*1 -> is_Some (decls !! name))
  ∧ (∀ name d, decls !! name = Some d -> dnode d = None ∧ dfrom d = Some (-1)).
Proof.
  intros Hnd. unfold createTopScope.
  destruct (inject_environments _ _ _) as [|decls1] eqn:He; [done|].
  intros [= <-]. cbn [default]. split_and!.
  - intros name writeable Hin. by rewrite (inject_present _ _ _ _ Hnd Hin).
  - intros name Hin. apply inject_keeps.
    eapply inject_environments_keeps; [done|]. do 2 apply inject_keeps.
    cbn in Hin. rewrite !elem_of_cons in Hin.
    destruct Hin as [->|[->|[->|Hin]]]; [by eexists..|by apply elem_of_nil in Hin].
  - apply inject_ambient. eapply inject_environments_ambient; [done|].
    do 3 apply inject_ambient. intros name d. by rewrite lookup_empty.
Qed.

(** X28.  [createTopScope] fails exactly on an unknown environment: it
    returns if and only if [jshint_vars] has a table for every environment
    asked for (none asked for included), and the failure names the first
    environment that has none. *)
Theorem createTopScope_unknown_environment (environments : option (list string))
    (globals : option (list (string * bool))) :
  match createTopScope jshint_vars environments globals with
  | inl (EnvironmentNotFound env) =>
      ∃ known rest, environments = Some (known ++ env :: rest)
                    ∧ jshint_vars env = None
                    ∧ ∀ e, e ∈ known -> is_Some (jshint_vars e)
  | inr _ => ∀ e, e ∈ default [] environments -> is_Some (jshint_vars e)
  end.
Proof.
  unfold createTopScope.
  pose proof (inject_environments_result (default [] environments)
    (inject (default [] (jshint_vars "ecmaIdentifiers"))
       (inject (default [] (jshint_vars "reservedVars"))
          (inject complementary ∅)))) as H.
  destruct (inject_environments _ _ _) as [[bad]|]; [|done].
  destruct H as (known & rest & Heq & Hbad & Hk).
  exists known, rest. split_and!; [|done..].
  destruct environments as [l|]; simpl in Heq; [by subst|].
  by destruct known.
Qed.
End TopScopeProperties.

Lemma createTopScope_globals_override_witness :
  ∃ decls, createTopScope TopScopeExample.vars (Some ["browser"])
             (Some TopScopeExample.globals) = inr decls
    ∧ dkind <$> decls !! "console" = Some KVar.
Proof.
  destruct (createTopScope TopScopeExample.vars (Some ["browser"])
              (Some TopScopeExample.globals)) as [|decls] eqn:E;
    [by vm_compute in E|].
  exists decls. split; [done|].
  refine (proj1 (createTopScope_globals_override TopScopeExample.vars
            (Some ["browser"]) TopScopeExample.globals decls _ E) "console" true _).
  - apply (bool_decide_eq_true_1 (NoDup TopScopeExample.globals.*1)).
    by vm_compute.
  - apply (bool_decide_eq_true_1 (("console", true) ∈ TopScopeExample.globals)).
    by vm_compute.
Defined.

Lemma createTopScope_unknown_environment_witness :
  ∃ known rest,
    Some ["browser"; "rhino"] = Some (known ++ "rhino" :: rest)
    ∧ TopScopeExample.vars "rhino" = None
    ∧ ∀ e, e ∈ known -> is_Some (TopScopeExample.vars e).
Proof.
  pose proof (createTopScope_unknown_environment TopScopeExample.vars
                (Some ["browser"; "rhino"]) None) as H.
  vm_compute createTopScope in H. exact H.
Defined.
